(** * Staking information of the reward package

    A shallow embedding of [reward/staking_manager.go] (the staking manager)
    and of the staking-info file that follows it in the same source
    (StakingInfo, its RLP form, the consolidation by reward address and the
    Gini coefficient), with the properties the specification states about
    them.

    Conventions of the embedding:
    - [uint64] is [N]; additions that can wrap are written [add64];
    - [float64] is a binary64 value of the Standard Library's [SpecFloat]
      (precision 53, infinities at exponent 1024), all operations rounding
      to nearest even as Go's do; there is a single NaN, so the payload of a
      NaN is not represented;
    - [common.Address] (a 20-byte array) is the number its bytes spell;
    - a slice is a [list]; a Go map is a [gmap];
    - a call that panics in Go (index out of range, nil dereference, failed
      type assertion) makes the embedded function return [None]. *)

From Stdlib Require Import ZArith NArith List Bool Lia String.
From Stdlib Require Import Floats.SpecFloat.
From stdpp Require Import base option list gmap sorting.

Open Scope Z_scope.

(** ** Machine integers *)

Definition uint64 := N.

Bind Scope N_scope with uint64.

Definition two64 : N := Eval vm_compute in (2 ^ 64)%N.

(** [a + b] on uint64. *)
Definition add64 (a b : uint64) : uint64 := ((a + b) mod two64)%N.

(** The sum a loop of [+=] on a uint64 accumulator computes. *)
Definition sum64 (l : list uint64) : uint64 := fold_left add64 l 0%N.

(** ** float64 *)

Module Float64.

Definition prec : Z := 53.
Definition emax : Z := 1024.

Definition float64 := spec_float.

Definition add : float64 -> float64 -> float64 := SFadd prec emax.
Definition sub : float64 -> float64 -> float64 := SFsub prec emax.
Definition mul : float64 -> float64 -> float64 := SFmul prec emax.
Definition div : float64 -> float64 -> float64 := SFdiv prec emax.

(** [x < y] and [x >= y]; both are false when an operand is NaN. *)
Definition ltb (x y : float64) : bool := SFltb x y.
Definition geb (x y : float64) : bool := SFleb y x.

(** The conversions [float64(i)] from an int and from a uint64. *)
Definition of_Z (z : Z) : float64 := binary_normalize prec emax z 0 false.
Definition of_uint64 (n : uint64) : float64 := of_Z (Z.of_N n).

Definition zero : float64 := S754_zero false.
Definition hundred : float64 := Eval vm_compute in of_Z 100.
Definition minus_one : float64 := Eval vm_compute in SFopp (of_Z 1).
Definition nan : float64 := S754_nan.

(** A float64 the format can hold. *)
Definition valid (x : float64) : bool := valid_binary prec emax x.

(** [math.Round]: the nearest integer, halves away from zero;
    Round(±0) = ±0, Round(±Inf) = ±Inf, Round(NaN) = NaN. A finite
    [m * 2^e] with [e < 0] has integer part [m >> -e] and a fraction of at
    least one half exactly when bit [-e - 1] of [m] is set. *)
Definition Round (x : float64) : float64 :=
  match x with
  | S754_finite s m e =>
      if 0 <=? e then x
      else
        let k := - e in
        let q := Z.shiftr (Z.pos m) k in
        let r := if Z.testbit (Z.pos m) (k - 1) then q + 1 else q in
        binary_normalize prec emax (cond_Zopp s r) 0 s
  | _ => x
  end.

(** [math.Float64bits]: sign, 11 bits of biased exponent, 52 bits of
    fraction. NaN gives the pattern of Go's [math.NaN()]. *)
Definition sign_bit (s : bool) : Z := if s then Z.shiftl 1 63 else 0.

Definition Float64bits (x : float64) : Z :=
  match x with
  | S754_zero s => sign_bit s
  | S754_infinity s => Z.lor (sign_bit s) (Z.shiftl 2047 52)
  | S754_nan => Z.lor (Z.shiftl 2047 52) (Z.lor (Z.shiftl 1 51) 1)
  | S754_finite s m e =>
      if Z.pos m <? Z.shiftl 1 52
      then Z.lor (sign_bit s) (Z.pos m)
      else Z.lor (sign_bit s)
             (Z.lor (Z.shiftl (e + 1075) 52) (Z.land (Z.pos m) (Z.ones 52)))
  end.

(** [math.Float64frombits]. *)
Definition Float64frombits (b : Z) : float64 :=
  let s := Z.testbit b 63 in
  let ebits := Z.land (Z.shiftr b 52) (Z.ones 11) in
  let frac := Z.land b (Z.ones 52) in
  if ebits =? 0 then
    match frac with
    | Z.pos m => S754_finite s m (-1074)
    | _ => S754_zero s
    end
  else if ebits =? 2047 then
    if frac =? 0 then S754_infinity s else S754_nan
  else
    match Z.lor frac (Z.shiftl 1 52) with
    | Z.pos m => S754_finite s m (ebits - 1075)
    | _ => S754_nan
    end.

End Float64.

Import Float64.

(** ** The Gini coefficient *)

(** [sort.Sort] on a [float64Slice], whose [Less] is [p[i] < p[j]]: the
    sort is Go's library, modelled by an insertion sort. On stake amounts
    (no NaN, one sign of zero) [<] is a strict total order, so every correct
    sort returns the same slice (lemma [sorted_perm_is_sort] below). *)
Fixpoint insert_float64 (x : float64) (l : list float64) : list float64 :=
  match l with
  | [] => [x]
  | y :: l' => if ltb y x then y :: insert_float64 x l' else x :: l
  end.

Fixpoint sort_float64s (l : list float64) : list float64 :=
  match l with
  | [] => []
  | x :: l' => insert_float64 x (sort_float64s l')
  end.

(** The loop of [CalcGiniCoefficient] from index [i] on, with the two
    accumulators it carries. *)
Fixpoint gini_loop (xs : list float64) (i : Z)
    (sumOfAbsoluteDifferences subSum : float64) : float64 * float64 :=
  match xs with
  | [] => (sumOfAbsoluteDifferences, subSum)
  | x :: xs' =>
      let temp := sub (mul x (of_Z i)) subSum in
      gini_loop xs' (i + 1) (add sumOfAbsoluteDifferences temp) (add subSum x)
  end.

Definition CalcGiniCoefficient (stakingAmount : list float64) : float64 :=
  let sorted := sort_float64s stakingAmount in
  let '(sumOfAbsoluteDifferences, subSum) := gini_loop sorted 0 zero zero in
  let result :=
    div (div sumOfAbsoluteDifferences subSum) (of_Z (Z.of_nat (length sorted))) in
  div (Round (mul result hundred)) hundred.

(** ** StakingInfo and its consolidation by reward address *)

(** [common.Address]: 20 bytes, compared with [==]. *)
Abbreviation Address := N.

Definition AddrNotFoundInCouncilNodes : Z := -1.
Definition maxStakingLimit : uint64 := 100000000000%N.
Definition DefaultGiniCoefficient : float64 := minus_one.

Inductive error :=
| ErrStakingManagerNotSet
| ErrChainHeadChanNotSet
| ErrAddrNotInStakingInfo
| ErrFailedToGetBlock (blockNum : uint64)
| ErrCannotCreateConsolidated
| ErrExternal (msg : string).

Record StakingInfo := {
  BlockNum : uint64;
  CouncilNodeAddrs : list Address;
  CouncilStakingAddrs : list Address;
  CouncilRewardAddrs : list Address;
  KIRAddr : Address;
  PoCAddr : Address;
  UseGini : bool;
  Gini : float64;
  CouncilStakingAmounts : list uint64
}.

(** The assignment [stakingInfo.Gini = g]. *)
Definition set_Gini (s : StakingInfo) (g : float64) : StakingInfo :=
  {| BlockNum := BlockNum s;
     CouncilNodeAddrs := CouncilNodeAddrs s;
     CouncilStakingAddrs := CouncilStakingAddrs s;
     CouncilRewardAddrs := CouncilRewardAddrs s;
     KIRAddr := KIRAddr s;
     PoCAddr := PoCAddr s;
     UseGini := UseGini s;
     Gini := g;
     CouncilStakingAmounts := CouncilStakingAmounts s |}.

Record consolidatedNode := {
  NodeAddrs : list Address;
  StakingAddrs : list Address;
  RewardAddr : Address;
  StakingAmount : uint64
}.

Record ConsolidatedStakingInfo := {
  nodes : list consolidatedNode;
  nodeIndex : gmap N nat
}.

Definition newEmptyStakingInfo (blockNum : uint64) : StakingInfo :=
  {| BlockNum := blockNum;
     CouncilNodeAddrs := [];
     CouncilStakingAddrs := [];
     CouncilRewardAddrs := [];
     KIRAddr := 0%N;
     PoCAddr := 0%N;
     UseGini := false;
     Gini := DefaultGiniCoefficient;
     CouncilStakingAmounts := [] |}.

Fixpoint index_of (nodeAddress : Address) (l : list Address) (i : nat) : option nat :=
  match l with
  | [] => None
  | addr :: l' => if N.eqb addr nodeAddress then Some i else index_of nodeAddress l' (S i)
  end.

Definition GetIndexByNodeAddress (s : StakingInfo) (nodeAddress : Address)
  : Z * option error :=
  match index_of nodeAddress (CouncilNodeAddrs s) 0 with
  | Some i => (Z.of_nat i, None)
  | None => (AddrNotFoundInCouncilNodes, Some ErrAddrNotInStakingInfo)
  end.

(** [None] is the panic of [s.CouncilStakingAmounts[i]] out of range. *)
Definition GetStakingAmountByNodeId (s : StakingInfo) (nodeAddress : Address)
  : option (uint64 * option error) :=
  match GetIndexByNodeAddress s nodeAddress with
  | (_, Some err) => Some (0%N, Some err)
  | (i, None) =>
      amount ← CouncilStakingAmounts s !! Z.to_nat i;
      Some (amount, None)
  end.

(** The node appended for a reward address seen for the first time. *)
Definition new_node (nodeAddr stakingAddr rewardAddr : Address)
    (stakingAmount : uint64) : consolidatedNode :=
  {| NodeAddrs := [nodeAddr];
     StakingAddrs := [stakingAddr];
     RewardAddr := rewardAddr;
     StakingAmount := stakingAmount |}.

(** The three updates of [c.nodes[idx]] for a reward address seen before. *)
Definition extend_node (n : consolidatedNode) (nodeAddr stakingAddr : Address)
    (stakingAmount : uint64) : consolidatedNode :=
  {| NodeAddrs := NodeAddrs n ++ [nodeAddr];
     StakingAddrs := StakingAddrs n ++ [stakingAddr];
     RewardAddr := RewardAddr n;
     StakingAmount := add64 (StakingAmount n) stakingAmount |}.

(** One iteration of the loop of [GetConsolidatedStakingInfo], on [c] and
    the temporary [rewardIndex]. [None]: an index out of range. *)
Definition consolidate_step (s : StakingInfo)
    (st : ConsolidatedStakingInfo * gmap N nat) (j : nat)
  : option (ConsolidatedStakingInfo * gmap N nat) :=
  let '(c, rewardIndex) := st in
  nodeAddr ← CouncilNodeAddrs s !! j;
  stakingAddr ← CouncilStakingAddrs s !! j;
  rewardAddr ← CouncilRewardAddrs s !! j;
  stakingAmount ← CouncilStakingAmounts s !! j;
  match rewardIndex !! rewardAddr with
  | None =>
      let nodes' := nodes c ++ [new_node nodeAddr stakingAddr rewardAddr stakingAmount] in
      Some ({| nodes := nodes';
               nodeIndex := <[nodeAddr := (length nodes' - 1)%nat]> (nodeIndex c) |},
            <[rewardAddr := (length nodes' - 1)%nat]> rewardIndex)
  | Some idx =>
      n ← nodes c !! idx;
      Some ({| nodes := <[idx := extend_node n nodeAddr stakingAddr stakingAmount]> (nodes c);
               nodeIndex := <[nodeAddr := idx]> (nodeIndex c) |},
            rewardIndex)
  end.

Fixpoint consolidate_loop (s : StakingInfo) (js : list nat)
    (st : ConsolidatedStakingInfo * gmap N nat)
  : option (ConsolidatedStakingInfo * gmap N nat) :=
  match js with
  | [] => Some st
  | j :: js' => st' ← consolidate_step s st j; consolidate_loop s js' st'
  end.

Definition GetConsolidatedStakingInfo (s : StakingInfo) : option ConsolidatedStakingInfo :=
  fst <$> consolidate_loop s (seq 0 (length (CouncilNodeAddrs s)))
            ({| nodes := []; nodeIndex := ∅ |}, ∅).

Definition GetAllNodes (c : ConsolidatedStakingInfo) : list consolidatedNode := nodes c.

Definition GetConsolidatedNode (c : ConsolidatedStakingInfo) (nodeAddr : Address)
  : option consolidatedNode :=
  idx ← nodeIndex c !! nodeAddr; nodes c !! idx.

(** The amounts [CalcGiniCoefficientMinStake] collects, by [append]. *)
Definition eligible_amounts (ns : list consolidatedNode) (minStake : uint64)
  : list float64 :=
  fold_left
    (fun amounts node =>
       if (minStake <=? StakingAmount node)%N
       then amounts ++ [of_uint64 (StakingAmount node)]
       else amounts)
    ns [].

Definition CalcGiniCoefficientMinStake (c : ConsolidatedStakingInfo)
    (minStake : uint64) : float64 :=
  let amounts := eligible_amounts (nodes c) minStake in
  if (length amounts =? 0)%nat then DefaultGiniCoefficient
  else CalcGiniCoefficient amounts.

(** ** The Gini coefficient as the specification words it *)

(** The running sum of a loop of [subSum = subSum + x] from 0. *)
Definition float_sum (l : list float64) : float64 := fold_left add l zero.

(** What the element at sorted position [i] adds to the accumulator: its
    value times [i], minus the sum of the elements before it. *)
Definition gini_term (sorted : list float64) (i : nat) : float64 :=
  sub (mul (nth i sorted zero) (of_Z (Z.of_nat i))) (float_sum (firstn i sorted)).

(** Rounding to 2 decimal places, halves away from zero. *)
Definition round_2_decimals (q : float64) : float64 :=
  div (Round (mul q hundred)) hundred.

(** The value the specification words, on the sequence once it is in
    ascending order: the terms added up, divided by the sum of the elements,
    then by their count, and rounded. Nothing is sorted here. *)
Definition spec_Gini (sorted : list float64) : float64 :=
  let accumulator :=
    fold_left (fun acc i => add acc (gini_term sorted i)) (seq 0 (length sorted)) zero in
  round_2_decimals
    (div (div accumulator (float_sum sorted)) (of_Z (Z.of_nat (length sorted)))).

(** A stake amount as a float64: what [float64] of a uint64 can give, a
    zero or a positive number with the sign bit clear. *)
Definition stake_value (x : float64) : bool :=
  match x with
  | S754_zero false | S754_finite false _ _ | S754_infinity false => true
  | _ => false
  end.

(** [x <= y] between stake amounts. *)
Definition stake_le (x y : float64) : Prop :=
  stake_value x = true /\ stake_value y = true /\ ltb y x = false.

(** Ascending order, with the [<=] of float64: no element is greater than
    the one after it. *)
Definition ascending (l : list float64) : Prop :=
  Sorted (fun x y => SFleb x y = true) l.

(** [g] is the coefficient of [amounts] as the specification words it: the
    value of [spec_Gini] on the amounts arranged in ascending order. *)
Definition is_spec_Gini (amounts : list float64) (g : float64) : Prop :=
  exists sorted,
    Permutation sorted amounts /\ ascending sorted /\ g = spec_Gini sorted.

(** ** The consolidation as the specification words it *)

(** One validator registration: index [j] of the four sequences. *)
Record registration := {
  reg_node : Address;
  reg_staking : Address;
  reg_reward : Address;
  reg_amount : uint64
}.

Fixpoint registrations_of (ns ss rs : list Address) (ams : list uint64)
  : list registration :=
  match ns, ss, rs, ams with
  | n :: ns', s :: ss', r :: rs', a :: ams' =>
      {| reg_node := n; reg_staking := s; reg_reward := r; reg_amount := a |}
        :: registrations_of ns' ss' rs' ams'
  | _, _, _, _ => []
  end.

Definition registrations (s : StakingInfo) : list registration :=
  registrations_of (CouncilNodeAddrs s) (CouncilStakingAddrs s)
    (CouncilRewardAddrs s) (CouncilStakingAmounts s).

(** A record joins the entry of its reward address when there is one, and
    starts a new entry after the existing ones otherwise. *)
Fixpoint absorb (r : registration) (entries : list consolidatedNode)
  : list consolidatedNode :=
  match entries with
  | [] => [new_node (reg_node r) (reg_staking r) (reg_reward r) (reg_amount r)]
  | n :: entries' =>
      if (RewardAddr n =? reg_reward r)%N
      then extend_node n (reg_node r) (reg_staking r) (reg_amount r) :: entries'
      else n :: absorb r entries'
  end.

Definition spec_consolidate (regs : list registration) : list consolidatedNode :=
  fold_left (fun entries r => absorb r entries) regs [].

(** The reward addresses in the order of their first appearance. *)
Definition first_seen (rewards : list Address) : list Address :=
  fold_left (fun seen r => if decide (r ∈ seen) then seen else seen ++ [r]) rewards [].

(** The loop body of [GetConsolidatedStakingInfo] on the registration it
    has read, and the loop on a list of registrations. *)
Definition reg_step (st : ConsolidatedStakingInfo * gmap N nat) (r : registration)
  : option (ConsolidatedStakingInfo * gmap N nat) :=
  let '(c, rewardIndex) := st in
  match rewardIndex !! reg_reward r with
  | None =>
      let nodes' := nodes c ++ [new_node (reg_node r) (reg_staking r) (reg_reward r) (reg_amount r)] in
      Some ({| nodes := nodes';
               nodeIndex := <[reg_node r := (length nodes' - 1)%nat]> (nodeIndex c) |},
            <[reg_reward r := (length nodes' - 1)%nat]> rewardIndex)
  | Some idx =>
      n ← nodes c !! idx;
      Some ({| nodes := <[idx := extend_node n (reg_node r) (reg_staking r) (reg_amount r)]> (nodes c);
               nodeIndex := <[reg_node r := idx]> (nodeIndex c) |},
            rewardIndex)
  end.

Fixpoint reg_loop (regs : list registration)
    (st : ConsolidatedStakingInfo * gmap N nat)
  : option (ConsolidatedStakingInfo * gmap N nat) :=
  match regs with
  | [] => Some st
  | r :: regs' => st' ← reg_step st r; reg_loop regs' st'
  end.

(** The temporary [rewardIndex] maps each reward address met so far to the
    position of its entry. *)
Definition indexes (rewardIndex : gmap N nat) (entries : list consolidatedNode) : Prop :=
  NoDup (map RewardAddr entries)
  /\ forall (r : N) (i : nat),
       rewardIndex !! r = Some i <-> map RewardAddr entries !! i = Some r.

(** The sum of a list of uint64 before it is reduced to 64 bits. *)
Definition N_sum (l : list N) : N := fold_right N.add 0%N l.

(** An entry has a staking address for each node address. *)
Definition aligned (n : consolidatedNode) : Prop :=
  length (NodeAddrs n) = length (StakingAddrs n).

(** The node addresses the entries hold. *)
Definition node_count (entries : list consolidatedNode) : nat :=
  list_sum (map (fun n => length (NodeAddrs n)) entries).

(** ** The RLP form of a StakingInfo *)

Module Wire.

(** [stakingInfoRLP]: the struct handed to the RLP encoder, with the Gini
    coefficient as the uint64 of its bits. *)
Record stakingInfoRLP := {
    BlockNum : uint64;
    CouncilNodeAddrs : list Address;
    CouncilStakingAddrs : list Address;
    CouncilRewardAddrs : list Address;
    KIRAddr : Address;
    PoCAddr : Address;
    UseGini : bool;
    Gini : Z;
    CouncilStakingAmounts : list uint64
}.

End Wire.

(** The struct literal [EncodeRLP] builds. *)
Definition to_stakingInfoRLP (s : StakingInfo) : Wire.stakingInfoRLP :=
  {| Wire.BlockNum := BlockNum s;
     Wire.CouncilNodeAddrs := CouncilNodeAddrs s;
     Wire.CouncilStakingAddrs := CouncilStakingAddrs s;
     Wire.CouncilRewardAddrs := CouncilRewardAddrs s;
     Wire.KIRAddr := KIRAddr s;
     Wire.PoCAddr := PoCAddr s;
     Wire.UseGini := UseGini s;
     Wire.Gini := Float64bits (Gini s);
     Wire.CouncilStakingAmounts := CouncilStakingAmounts s |}.

(** The assignments of [DecodeRLP] to the receiver: every field is set. *)
Definition of_stakingInfoRLP (dec : Wire.stakingInfoRLP) : StakingInfo :=
  {| BlockNum := Wire.BlockNum dec;
     CouncilNodeAddrs := Wire.CouncilNodeAddrs dec;
     CouncilStakingAddrs := Wire.CouncilStakingAddrs dec;
     CouncilRewardAddrs := Wire.CouncilRewardAddrs dec;
     KIRAddr := Wire.KIRAddr dec;
     PoCAddr := Wire.PoCAddr dec;
     UseGini := Wire.UseGini dec;
     Gini := Float64frombits (Wire.Gini dec);
     CouncilStakingAmounts := Wire.CouncilStakingAmounts dec |}.

Section RLP.

(** The [rlp] package is not part of the sources read here: its encoder
    and decoder for a [stakingInfoRLP] are parameters, on any type of
    encoded data. A decoding error is [inr]. *)
Context {bytes : Type}.
Variable rlp_Encode : Wire.stakingInfoRLP -> bytes.
Variable rlp_Decode : bytes -> Wire.stakingInfoRLP + error.

Definition EncodeRLP (s : StakingInfo) : bytes :=
  rlp_Encode (to_stakingInfoRLP s).

(** [s.DecodeRLP(st)]: the receiver [s] after the call and the error
    returned; on a decoding error the receiver is left as it was. *)
Definition DecodeRLP (s : StakingInfo) (st : bytes) : StakingInfo * option error :=
  match rlp_Decode st with
  | inr err => (s, Some err)
  | inl dec => (of_stakingInfoRLP dec, None)
  end.

End RLP.

(** ** The staking manager *)

(** What a block's staking information is resolved from. Each access to
    the cache, the staking-info database, the chain, the address book
    contract and the governance is recorded in the order it happens; an
    access to the database is recorded with its outcome. *)
Inductive Access :=
| CacheGet (blockNum : uint64)
| CacheAdd (p : nat)
| DBRead (blockNum : uint64) (stored : option StakingInfo) (err : option error)
| DBWrite (s : StakingInfo) (err : option error)
| AddressBookRead (blockNum : uint64)
| ChainGetBlock (blockNum : uint64)
| ChainStateAt (root : N)
| GovUseGini (blockNum : uint64)
| GovMinimumStaking (blockNum : uint64).

(** The addresses the address book contract returns. *)
Record addressBook := {
  ab_nodeAddrs : list Address;
  ab_stakingAddrs : list Address;
  ab_rewardAddrs : list Address;
  ab_KIRAddr : Address;
  ab_PoCAddr : Address
}.

(** A governance item as [GetItemAtNumberByIntKey] returns it, an
    [interface{}]: a bool, or a value of another type, on which the type
    assertion [res.(bool)] panics. *)
Inductive govItem :=
| ItemBool (b : bool)
| ItemOther.

(** The collaborators of the manager, none of them in the sources read
    here, as functions on a state [Ext] of their own: the constants and
    functions of [params]; the [stakingInfoCache] (it holds pointers); the
    staking-info database behind [getStakingInfoFromDB] and
    [AddStakingInfoToDB] (it holds serialized values); the [blockChain] and
    [governanceHelper] interfaces; the call of the address book contract. A
    state view is the balance of every account. *)
Record Collaborators (Ext : Type) := {
  StakingUpdateInterval : uint64;
  IsStakingUpdateInterval : uint64 -> bool;
  CalcStakingBlockNumber : uint64 -> uint64;
  KLAY : Z;
  cache_get : uint64 -> Ext -> option nat * Ext;
  cache_add : nat -> StakingInfo -> Ext -> Ext;
  db_read : uint64 -> Ext -> (option StakingInfo * option error) * Ext;
  db_write : StakingInfo -> Ext -> option error * Ext;
  GetBlockByNumber : uint64 -> Ext -> option N * Ext;
  StateAt : N -> Ext -> ((Address -> Z) + error) * Ext;
  GetUseGiniCoeff : uint64 -> Ext -> (govItem + error) * Ext;
  GetMinimumStakingAtNumber : uint64 -> Ext -> (uint64 + error) * Ext;
  callAddressBook : uint64 -> Ext -> (addressBook + error) * Ext
}.

Arguments StakingUpdateInterval {Ext} _.
Arguments IsStakingUpdateInterval {Ext} _ _.
Arguments CalcStakingBlockNumber {Ext} _ _.
Arguments KLAY {Ext} _.
Arguments cache_get {Ext} _ _ _.
Arguments cache_add {Ext} _ _ _ _.
Arguments db_read {Ext} _ _ _.
Arguments db_write {Ext} _ _ _.
Arguments GetBlockByNumber {Ext} _ _ _.
Arguments StateAt {Ext} _ _ _.
Arguments GetUseGiniCoeff {Ext} _ _ _.
Arguments GetMinimumStakingAtNumber {Ext} _ _ _.
Arguments callAddressBook {Ext} _ _ _.

(** The state the manager runs in: the StakingInfo objects allocated so
    far (a [*StakingInfo] is an index into [heap], [nil] is [None]); whether
    the package variable [stakingManager] is set; whether [once] has fired
    and how many migration prerequisites are registered; the collaborators'
    state; the accesses made so far. *)
Record World (Ext : Type) := {
  heap : list StakingInfo;
  stakingManager : bool;
  once : bool;
  prerequisites : nat;
  ext : Ext;
  trace : list Access
}.

Arguments heap {Ext} _.
Arguments stakingManager {Ext} _.
Arguments once {Ext} _.
Arguments prerequisites {Ext} _.
Arguments ext {Ext} _.
Arguments trace {Ext} _.

(** The updates of one field of the world. *)
Definition log_access {Ext : Type} (a : Access) (w : World Ext) : World Ext :=
  {| heap := heap w; stakingManager := stakingManager w; once := once w;
     prerequisites := prerequisites w; ext := ext w; trace := trace w ++ [a] |}.

Definition set_ext {Ext : Type} (e : Ext) (w : World Ext) : World Ext :=
  {| heap := heap w; stakingManager := stakingManager w; once := once w;
     prerequisites := prerequisites w; ext := e; trace := trace w |}.

Definition set_heap {Ext : Type} (h : list StakingInfo) (w : World Ext) : World Ext :=
  {| heap := h; stakingManager := stakingManager w; once := once w;
     prerequisites := prerequisites w; ext := ext w; trace := trace w |}.

(** [big.Int.Div] (Euclidean division, the remainder is never negative;
    panics on a zero divisor) and [Uint64] (the low 64 bits of the
    magnitude). *)
Definition big_Div (x y : Z) : option Z :=
  if y =? 0 then None else Some (Z.sgn y * (x / Z.abs y)).

Definition big_Uint64 (x : Z) : uint64 := (Z.to_N (Z.abs x) mod two64)%N.

(** The body of the balance loop of [newStakingInfo]. *)
Definition staking_amount (klay balance : Z) : option uint64 :=
  tempStakingAmount ← big_Div balance klay;
  Some (big_Uint64 (if Z.of_N maxStakingLimit <? tempStakingAmount
                    then Z.of_N maxStakingLimit else tempStakingAmount)).

Fixpoint staking_amounts (klay : Z) (statedb : Address -> Z)
    (stakingAddrs : list Address) : option (list uint64) :=
  match stakingAddrs with
  | [] => Some []
  | stakingAddr :: rest =>
      a ← staking_amount klay (statedb stakingAddr);
      l ← staking_amounts klay statedb rest;
      Some (a :: l)
  end.

Section Manager.

Context {Ext : Type} (env : Collaborators Ext).

(** Computations of the manager: a state transformer on the world that
    may panic. *)
Definition M (A : Type) : Type := World Ext -> option (A * World Ext).

#[local] Instance M_ret : MRet M := fun A a w => Some (a, w).

#[local] Instance M_bind : MBind M := fun A B f m w =>
  match m w with
  | Some (a, w') => f a w'
  | None => None
  end.

Definition panic {A : Type} : M A := fun _ => None.

Definition record (a : Access) : M unit := fun w => Some (tt, log_access a w).

Definition call {A : Type} (f : Ext -> A * Ext) : M A := fun w =>
  let '(a, e) := f (ext w) in Some (a, set_ext e w).

(** [*p], [*p = s] and [&StakingInfo{...}]. *)
Definition load (p : nat) : M StakingInfo := fun w =>
  s ← heap w !! p; Some (s, w).

Definition store (p : nat) (s : StakingInfo) : M unit := fun w =>
  _ ← heap w !! p; Some (tt, set_heap (<[p := s]> (heap w)) w).

Definition alloc (s : StakingInfo) : M nat := fun w =>
  Some (length (heap w), set_heap (heap w ++ [s]) w).

Definition managerIsSet : M bool := fun w => Some (stakingManager w, w).

(** *** The collaborators, as the manager calls them *)

Definition stakingInfoCache_get (blockNum : uint64) : M (option nat) :=
  _ ← record (CacheGet blockNum);
  call (cache_get env blockNum).

Definition stakingInfoCache_add (p : nat) : M unit :=
  s ← load p;
  _ ← record (CacheAdd p);
  call (fun e => (tt, cache_add env p s e)).

(** A hit is a StakingInfo unmarshalled into a new object. *)
Definition getStakingInfoFromDB (blockNum : uint64) : M (option nat * option error) :=
  '(stored, err) ← call (db_read env blockNum);
  _ ← record (DBRead blockNum stored err);
  match stored with
  | Some s => p ← alloc s; mret (Some p, err)
  | None => mret (None, err)
  end.

(** The object is marshalled as it is at the call. *)
Definition AddStakingInfoToDB (p : nat) : M (option error) :=
  s ← load p;
  err ← call (db_write env s);
  _ ← record (DBWrite s err);
  mret err.

Definition newStakingInfo (blockNum : uint64)
    (nodeAddrs stakingAddrs rewardAddrs : list Address) (KIRAddr PoCAddr : Address)
  : M (option nat * option error) :=
  _ ← record (ChainGetBlock blockNum);
  intervalBlock ← call (GetBlockByNumber env blockNum);
  match intervalBlock with
  | None => mret (None, Some (ErrFailedToGetBlock blockNum))
  | Some root =>
      _ ← record (ChainStateAt root);
      st ← call (StateAt env root);
      match st with
      | inr err => mret (None, Some err)
      | inl statedb =>
          match staking_amounts (KLAY env) statedb stakingAddrs with
          | None => panic
          | Some stakingAmounts =>
              _ ← record (GovUseGini blockNum);
              res ← call (GetUseGiniCoeff env blockNum);
              match res with
              | inr err => mret (None, Some err)
              | inl ItemOther => panic
              | inl (ItemBool useGini) =>
                  p ← alloc {| BlockNum := blockNum;
                               CouncilNodeAddrs := nodeAddrs;
                               CouncilStakingAddrs := stakingAddrs;
                               CouncilRewardAddrs := rewardAddrs;
                               KIRAddr := KIRAddr;
                               PoCAddr := PoCAddr;
                               UseGini := useGini;
                               Gini := DefaultGiniCoefficient;
                               CouncilStakingAmounts := stakingAmounts |};
                  mret (Some p, None)
              end
          end
      end
  end.

(** Modelled from the spec: [getStakingInfoFromAddressBook] of the
    address book connector, which is not in the sources read here. The
    spec's reader resolves the block, opens the state at its root, reads
    the registry contract for the address lists, reads and clamps the
    balances, asks the governance for the use-Gini flag and assembles a
    snapshot whose gini is the sentinel; all of that but the registry read
    is [newStakingInfo], which takes the address lists as arguments, so the
    registry is read first. *)
Definition getStakingInfoFromAddressBook (blockNum : uint64)
  : M (option nat * option error) :=
  _ ← record (AddressBookRead blockNum);
  res ← call (callAddressBook env blockNum);
  match res with
  | inr err => mret (None, Some err)
  | inl ab =>
      newStakingInfo blockNum (ab_nodeAddrs ab) (ab_stakingAddrs ab)
        (ab_rewardAddrs ab) (ab_KIRAddr ab) (ab_PoCAddr ab)
  end.

(** *** The manager *)

(** The fixup reads [stakingManager.governanceHelper] after its two
    guards: there a nil manager is a nil dereference. A manager that is set
    is taken whole, with the governance helper [NewStakingManager] requires
    ([gh != nil]). *)
Definition fillMissingGiniCoefficient (stakingInfo : nat) (number : uint64)
  : M (option error) :=
  s ← load stakingInfo;
  if negb (UseGini s) then mret None
  else if geb (Gini s) zero then mret None
  else
    set ← managerIsSet;
    if negb set then panic
    else
      _ ← record (GovMinimumStaking number);
      res ← call (GetMinimumStakingAtNumber env number);
      match res with
      | inr err => mret (Some err)
      | inl minStaking =>
          s ← load stakingInfo;
          match GetConsolidatedStakingInfo s with
          | None => panic
          | Some c =>
              _ ← store stakingInfo (set_Gini s (CalcGiniCoefficientMinStake c minStaking));
              mret None
          end
      end.

Definition updateStakingInfo (blockNum : uint64) : M (option nat * option error) :=
  set ← managerIsSet;
  if negb set then mret (None, Some ErrStakingManagerNotSet)
  else
    '(stakingInfo, err) ← getStakingInfoFromAddressBook blockNum;
    match err with
    | Some e => mret (None, Some e)
    | None =>
        match stakingInfo with
        | None => panic
        | Some p =>
            err ← AddStakingInfoToDB p;
            match err with
            | Some e => mret (Some p, Some e)
            | None =>
                _ ← fillMissingGiniCoefficient p blockNum;
                _ ← stakingInfoCache_add p;
                mret (Some p, None)
            end
        end
    end.

Definition GetStakingInfoOnStakingBlock (stakingBlockNumber : uint64)
  : M (option nat) :=
  set ← managerIsSet;
  if negb set then mret None
  else if negb (IsStakingUpdateInterval env stakingBlockNumber) then mret None
  else
    cachedStakingInfo ← stakingInfoCache_get stakingBlockNumber;
    match cachedStakingInfo with
    | Some p =>
        _ ← fillMissingGiniCoefficient p stakingBlockNumber;
        mret (Some p)
    | None =>
        '(storedStakingInfo, err) ← getStakingInfoFromDB stakingBlockNumber;
        match storedStakingInfo, err with
        | Some p, None =>
            _ ← fillMissingGiniCoefficient p stakingBlockNumber;
            _ ← stakingInfoCache_add p;
            mret (Some p)
        | _, _ =>
            '(calcStakingInfo, _) ← updateStakingInfo stakingBlockNumber;
            mret calcStakingInfo
        end
    end.

Definition GetStakingInfo (blockNum : uint64) : M (option nat) :=
  GetStakingInfoOnStakingBlock (CalcStakingBlockNumber env blockNum).

Definition CheckStakingInfoStored (blockNum : uint64) : M (option error) :=
  set ← managerIsSet;
  if negb set then mret (Some ErrStakingManagerNotSet)
  else
    let stakingBlockNumber := CalcStakingBlockNumber env blockNum in
    '(_, err) ← getStakingInfoFromDB stakingBlockNumber;
    match err with
    | None => mret None
    | Some _ =>
        '(_, err) ← updateStakingInfo stakingBlockNumber;
        mret err
    end.

(** The function [NewStakingManager] registers with
    [blockchain.RegisterMigrationPrerequisites]. *)
Definition migrationPrerequisite (blockNum : uint64) : M (option error) :=
  err ← CheckStakingInfoStored blockNum;
  match err with
  | Some e => mret (Some e)
  | None => CheckStakingInfoStored (add64 blockNum (StakingUpdateInterval env))
  end.

(** [NewStakingManager(bc, gh, db)], from whether [bc] and [gh] are not
    nil; the result is whether the manager returned is not nil. *)
Definition NewStakingManager (bc gh : bool) : M bool := fun w =>
  if bc && gh then
    if once w then Some (stakingManager w, w)
    else Some (true, {| heap := heap w; stakingManager := true; once := true;
                        prerequisites := S (prerequisites w); ext := ext w;
                        trace := trace w |})
  else Some (stakingManager w, w).

(** The functions registered with
    [blockchain.RegisterMigrationPrerequisites]: the package registers one
    function only, the closure of [NewStakingManager], so the registry holds
    that closure as many times as [prerequisites] counts. *)
Definition registered_prerequisites (w : World Ext)
  : list (uint64 -> M (option error)) :=
  repeat migrationPrerequisite (prerequisites w).

End Manager.

(** The accesses of the address book reader, and those of the Gini fixup
    and of the insertion into the cache. *)
Definition reader_access (a : Access) : bool :=
  match a with
  | AddressBookRead _ | ChainGetBlock _ | ChainStateAt _ | GovUseGini _ => true
  | _ => false
  end.

Definition fixup_access (a : Access) : bool :=
  match a with
  | GovMinimumStaking _ | CacheAdd _ => true
  | _ => false
  end.

(** The collaborators' state read as a database: [view e n] is what a read
    of block [n] answers in the state [e], snapshot and error. A read
    answers it and leaves it; a write that returns no error makes it answer
    the snapshot written for the block of that snapshot, and leaves the
    other blocks; the cache, the chain, the governance and the address book
    leave it. *)
Record database_view {Ext : Type} (env : Collaborators Ext)
    (view : Ext -> uint64 -> option StakingInfo * option error) : Prop := {
  view_read : forall n e, fst (db_read env n e) = view e n;
  view_after_read : forall n m e, view (snd (db_read env m e)) n = view e n;
  view_after_write : forall s e e' n,
    db_write env s e = (None, e') ->
    view e' n = if (n =? BlockNum s)%N then (Some s, None) else view e n;
  view_cache_get : forall n m e, view (snd (cache_get env m e)) n = view e n;
  view_cache_add : forall n p s e, view (cache_add env p s e) n = view e n;
  view_block : forall n m e, view (snd (GetBlockByNumber env m e)) n = view e n;
  view_state : forall n root e, view (snd (StateAt env root e)) n = view e n;
  view_use_gini : forall n m e, view (snd (GetUseGiniCoeff env m e)) n = view e n;
  view_minimum_staking : forall n m e,
    view (snd (GetMinimumStakingAtNumber env m e)) n = view e n;
  view_address_book : forall n m e, view (snd (callAddressBook env m e)) n = view e n
}.

(** What the RLP form can carry: 64-bit integers, 20-byte addresses, and
    slices whose encoding has a length that fits 8 bytes (slices of less than
    [2^32] elements do). *)
Definition two160 : N := Eval vm_compute in (2 ^ 160)%N.

Definition is_uint64 (n : N) : bool := (n <? two64)%N.
Definition is_address (a : N) : bool := (a <? two160)%N.
Definition is_slice {A : Type} (l : list A) : bool :=
  (N.of_nat (length l) <? 4294967296)%N.

Definition wire_ok (r : Wire.stakingInfoRLP) : bool :=
  is_uint64 (Wire.BlockNum r)
  && (is_slice (Wire.CouncilNodeAddrs r) && forallb is_address (Wire.CouncilNodeAddrs r))
  && (is_slice (Wire.CouncilStakingAddrs r) && forallb is_address (Wire.CouncilStakingAddrs r))
  && (is_slice (Wire.CouncilRewardAddrs r) && forallb is_address (Wire.CouncilRewardAddrs r))
  && is_address (Wire.KIRAddr r)
  && is_address (Wire.PoCAddr r)
  && ((0 <=? Wire.Gini r) && (Wire.Gini r <? 2 ^ 64))
  && (is_slice (Wire.CouncilStakingAmounts r)
      && forallb is_uint64 (Wire.CouncilStakingAmounts r)).

(** A StakingInfo of the Go type: its integers and addresses have their
    width, its gini is a float64. *)
Definition info_ok (s : StakingInfo) : bool :=
  is_uint64 (BlockNum s)
  && (is_slice (CouncilNodeAddrs s) && forallb is_address (CouncilNodeAddrs s))
  && (is_slice (CouncilStakingAddrs s) && forallb is_address (CouncilStakingAddrs s))
  && (is_slice (CouncilRewardAddrs s) && forallb is_address (CouncilRewardAddrs s))
  && is_address (KIRAddr s)
  && is_address (PoCAddr s)
  && valid (Gini s)
  && (is_slice (CouncilStakingAmounts s) && forallb is_uint64 (CouncilStakingAmounts s)).

(** ** An RLP codec for the examples *)

(** The recursive length prefix encoding, as Ethereum defines it, of the
    fields of a [stakingInfoRLP]: unsigned integers as big-endian strings
    without leading zeros, a bool as the integer 0 or 1, an address as a
    string of 20 bytes, a slice or a struct as the list of its elements. A
    byte is a number under 256. This is an instance of the encoder and
    decoder that [EncodeRLP] and [DecodeRLP] take as parameters, not the
    code of the [rlp] package. *)
Module RLP.

Fixpoint le_bytes (fuel : nat) (n : N) : list N :=
  match fuel with
  | O => []
  | S fuel' =>
      if (n =? 0)%N then [] else (n mod 256)%N :: le_bytes fuel' (n / 256)%N
  end.

(** The big-endian bytes of [n], none for 0. *)
Definition be_bytes (n : N) : list N := rev (le_bytes (N.to_nat (N.size n)) n).

Fixpoint le_fixed (k : nat) (n : N) : list N :=
  match k with
  | O => []
  | S k' => (n mod 256)%N :: le_fixed k' (n / 256)%N
  end.

(** The [k] big-endian bytes of [n]. *)
Definition be_fixed (k : nat) (n : N) : list N := rev (le_fixed k n).

Definition be_value (l : list N) : N :=
  fold_left (fun acc b => (acc * 256 + b)%N) l 0%N.

(** The prefix of a payload: [base] is 128 for a string and 192 for a
    list; a length over 55 is written out after the first byte. *)
Definition header (base : N) (payload : list N) : list N :=
  let len := N.of_nat (length payload) in
  if (len <=? 55)%N then [(base + len)%N]
  else
    let lb := be_bytes len in
    (base + 55 + N.of_nat (length lb))%N :: lb.

Definition encode_string (b : list N) : list N :=
  match b with
  | [x] => if (x <? 128)%N then [x] else header 128 b ++ b
  | _ => header 128 b ++ b
  end.

Definition encode_list (payload : list N) : list N := header 192 payload ++ payload.

Definition encode_uint (n : N) : list N := encode_string (be_bytes n).

Definition encode_bool (b : bool) : list N := encode_uint (if b then 1 else 0)%N.

Definition encode_address (a : Address) : list N := encode_string (be_fixed 20 a).

Definition encode_stakingInfoRLP (r : Wire.stakingInfoRLP) : list N :=
  encode_list
    (encode_uint (Wire.BlockNum r)
     ++ encode_list (concat (map encode_address (Wire.CouncilNodeAddrs r)))
     ++ encode_list (concat (map encode_address (Wire.CouncilStakingAddrs r)))
     ++ encode_list (concat (map encode_address (Wire.CouncilRewardAddrs r)))
     ++ encode_address (Wire.KIRAddr r)
     ++ encode_address (Wire.PoCAddr r)
     ++ encode_bool (Wire.UseGini r)
     ++ encode_uint (Z.to_N (Wire.Gini r))
     ++ encode_list (concat (map encode_uint (Wire.CouncilStakingAmounts r)))).

Inductive kind := String | List.

Definition split_at (n : N) (l : list N) : option (list N * list N) :=
  if (n <=? N.of_nat (length l))%N
  then Some (take (N.to_nat n) l, drop (N.to_nat n) l)
  else None.

(** The kind and the payload of the first item, and what follows it. *)
Definition decode_item (l : list N) : option (kind * list N * list N) :=
  match l with
  | [] => None
  | b :: rest =>
      if (b <? 128)%N then Some (String, [b], rest)
      else if (b <=? 183)%N then
        '(p, r) ← split_at (b - 128) rest; Some (String, p, r)
      else if (b <=? 191)%N then
        '(lb, r1) ← split_at (b - 183) rest;
        '(p, r) ← split_at (be_value lb) r1; Some (String, p, r)
      else if (b <=? 247)%N then
        '(p, r) ← split_at (b - 192) rest; Some (List, p, r)
      else if (b <=? 255)%N then
        '(lb, r1) ← split_at (b - 247) rest;
        '(p, r) ← split_at (be_value lb) r1; Some (List, p, r)
      else None
  end.

Definition decode_string (l : list N) : option (list N * list N) :=
  '(k, p, r) ← decode_item l;
  match k with String => Some (p, r) | List => None end.

Definition decode_uint64 (l : list N) : option (N * list N) :=
  '(p, r) ← decode_string l;
  if (length p <=? 8)%nat then Some (be_value p, r) else None.

Definition decode_bool (l : list N) : option (bool * list N) :=
  '(n, r) ← decode_uint64 l;
  match n with
  | 0%N => Some (false, r)
  | 1%N => Some (true, r)
  | _ => None
  end.

Definition decode_address (l : list N) : option (Address * list N) :=
  '(p, r) ← decode_string l;
  if (length p =? 20)%nat then Some (be_value p, r) else None.

(** The elements of a payload, each read by [dec]. *)
Fixpoint decode_all {A : Type} (dec : list N -> option (A * list N))
    (fuel : nat) (p : list N) : option (list A) :=
  match p, fuel with
  | [], _ => Some []
  | _, O => None
  | _, S fuel' =>
      '(x, r) ← dec p; xs ← decode_all dec fuel' r; Some (x :: xs)
  end.

Definition decode_list {A : Type} (dec : list N -> option (A * list N))
    (l : list N) : option (list A * list N) :=
  '(k, p, r) ← decode_item l;
  match k with
  | List => xs ← decode_all dec (length p) p; Some (xs, r)
  | String => None
  end.

Definition decode_fields (p : list N) : option Wire.stakingInfoRLP :=
  '(blockNum, p) ← decode_uint64 p;
  '(nodeAddrs, p) ← decode_list decode_address p;
  '(stakingAddrs, p) ← decode_list decode_address p;
  '(rewardAddrs, p) ← decode_list decode_address p;
  '(kirAddr, p) ← decode_address p;
  '(pocAddr, p) ← decode_address p;
  '(useGini, p) ← decode_bool p;
  '(gini, p) ← decode_uint64 p;
  '(amounts, p) ← decode_list decode_uint64 p;
  match p with
  | [] =>
      Some {| Wire.BlockNum := blockNum;
              Wire.CouncilNodeAddrs := nodeAddrs;
              Wire.CouncilStakingAddrs := stakingAddrs;
              Wire.CouncilRewardAddrs := rewardAddrs;
              Wire.KIRAddr := kirAddr;
              Wire.PoCAddr := pocAddr;
              Wire.UseGini := useGini;
              Wire.Gini := Z.of_N gini;
              Wire.CouncilStakingAmounts := amounts |}
  | _ => None
  end.

Definition decode_stakingInfoRLP (l : list N) : Wire.stakingInfoRLP + error :=
  match decode_item l with
  | Some (List, p, _) =>
      match decode_fields p with
      | Some r => inl r
      | None => inr (ErrExternal "rlp: input does not fit stakingInfoRLP")
      end
  | _ => inr (ErrExternal "rlp: expected a list")
  end.

(** The kind a header of base 128 or 192 announces. *)
Definition kind_of (base : N) : kind := if (base =? 128)%N then String else List.

(** A codec of values of one type: what is encoded is read back, and
    leaves what follows; an encoding has between 1 and [size] bytes. *)
Definition codec {A : Type} (ok : A -> Prop) (size : N) (enc : A -> list N)
    (dec : list N -> option (A * list N)) : Prop :=
  forall x, ok x ->
    (1 <= N.of_nat (length (enc x)) <= size)%N
    /\ forall rest, dec (enc x ++ rest) = Some (x, rest).

End RLP.

(** ** An instance of the collaborators, for the examples *)

(** A cache and a database kept in memory, a database that can be down, a
    chain whose state gives the account [a] a balance of [a] KLAY, a
    governance with the Gini option on and no minimum staking, and the
    address book of [example_info]. The staking update interval is 86400
    blocks. *)
Record MemExt := {
  mem_cache : list (uint64 * nat);
  mem_db : list (uint64 * StakingInfo);
  mem_db_down : bool
}.

Fixpoint assoc {A : Type} (k : N) (l : list (N * A)) : option A :=
  match l with
  | [] => None
  | (k', v) :: l' => if (k' =? k)%N then Some v else assoc k l'
  end.

Definition example_info : StakingInfo :=
  {| BlockNum := 86400%N;
     CouncilNodeAddrs := [1; 2; 3]%N;
     CouncilStakingAddrs := [5; 7; 3]%N;
     CouncilRewardAddrs := [21; 21; 23]%N;
     KIRAddr := 31%N;
     PoCAddr := 32%N;
     UseGini := true;
     Gini := DefaultGiniCoefficient;
     CouncilStakingAmounts := [5; 7; 3]%N |}.

Definition mem_env : Collaborators MemExt :=
  {| StakingUpdateInterval := 86400%N;
     IsStakingUpdateInterval := fun n => (n mod 86400 =? 0)%N;
     CalcStakingBlockNumber := fun n => (n / 86400 * 86400)%N;
     KLAY := 10 ^ 18;
     cache_get := fun n e => (assoc n (mem_cache e), e);
     cache_add := fun p s e =>
       {| mem_cache := (BlockNum s, p) :: mem_cache e;
          mem_db := mem_db e; mem_db_down := mem_db_down e |};
     db_read := fun n e =>
       match assoc n (mem_db e) with
       | Some s => (Some s, None, e)
       | None => (None, Some (ErrExternal "not found"), e)
       end;
     db_write := fun s e =>
       if mem_db_down e then (Some (ErrExternal "database is down"), e)
       else (None, {| mem_cache := mem_cache e;
                      mem_db := (BlockNum s, s) :: mem_db e;
                      mem_db_down := false |});
     GetBlockByNumber := fun n e => (Some n, e);
     StateAt := fun root e => (inl (fun a => Z.of_N a * 10 ^ 18), e);
     GetUseGiniCoeff := fun n e => (inl (ItemBool true), e);
     GetMinimumStakingAtNumber := fun n e => (inl 0%N, e);
     callAddressBook := fun n e =>
       (inl {| ab_nodeAddrs := CouncilNodeAddrs example_info;
               ab_stakingAddrs := CouncilStakingAddrs example_info;
               ab_rewardAddrs := CouncilRewardAddrs example_info;
               ab_KIRAddr := KIRAddr example_info;
               ab_PoCAddr := PoCAddr example_info |}, e) |}.

(** A world with a manager, an empty cache and an empty database, and
    the same with the database down. *)
Definition mem_world (down : bool) (h : list StakingInfo) : World MemExt :=
  {| heap := h; stakingManager := true; once := true; prerequisites := 1;
     ext := {| mem_cache := []; mem_db := []; mem_db_down := down |};
     trace := [] |}.

(** The coefficient 0.3 of [example_info]. *)
Definition three_tenths : float64 := Eval vm_compute in div (of_Z 30) hundred.

Definition wrapping_info : StakingInfo :=
  {| BlockNum := 0%N;
     CouncilNodeAddrs := [1; 2; 3]%N;
     CouncilStakingAddrs := [11; 12; 13]%N;
     CouncilRewardAddrs := [21; 22; 21]%N;
     KIRAddr := 0%N;
     PoCAddr := 0%N;
     UseGini := false;
     Gini := DefaultGiniCoefficient;
     CouncilStakingAmounts := [18446744073709551615; 4; 2]%N |}.

(** What the in-memory database answers to a read. *)
Definition mem_view (e : MemExt) (n : uint64) : option StakingInfo * option error :=
  fst (db_read mem_env n e).

(** The same collaborators on a chain whose accounts hold less than one
    KLAY: the account [a] has a balance of [a] peb. Every staking amount is
    then 0. *)
Definition poor_env : Collaborators MemExt :=
  {| StakingUpdateInterval := StakingUpdateInterval mem_env;
     IsStakingUpdateInterval := IsStakingUpdateInterval mem_env;
     CalcStakingBlockNumber := CalcStakingBlockNumber mem_env;
     KLAY := KLAY mem_env;
     cache_get := cache_get mem_env;
     cache_add := cache_add mem_env;
     db_read := db_read mem_env;
     db_write := db_write mem_env;
     GetBlockByNumber := GetBlockByNumber mem_env;
     StateAt := fun root e => (inl (fun a => Z.of_N a), e);
     GetUseGiniCoeff := GetUseGiniCoeff mem_env;
     GetMinimumStakingAtNumber := GetMinimumStakingAtNumber mem_env;
     callAddressBook := callAddressBook mem_env |}.

(** The snapshot of that chain: [example_info] with no stake. *)
Definition zero_info : StakingInfo :=
  {| BlockNum := 86400%N;
     CouncilNodeAddrs := [1; 2; 3]%N;
     CouncilStakingAddrs := [5; 7; 3]%N;
     CouncilRewardAddrs := [21; 21; 23]%N;
     KIRAddr := 31%N;
     PoCAddr := 32%N;
     UseGini := true;
     Gini := DefaultGiniCoefficient;
     CouncilStakingAmounts := [0; 0; 0]%N |}.

(** ** More on the consolidation *)

(** The [nodeIndex] after the registrations [regs]: it holds exactly the
    node addresses registered, and sends each to the position of an entry
    that lists it and has the reward address of its last registration. *)
Definition node_indexed (regs : list registration) (c : ConsolidatedStakingInfo) : Prop :=
  (forall a, nodeIndex c !! a = None <-> a ∉ map reg_node regs)
  /\ forall a idx, nodeIndex c !! a = Some idx ->
       exists n pre r post,
         nodes c !! idx = Some n /\ (a ∈ NodeAddrs n)
         /\ regs = pre ++ r :: post /\ reg_node r = a
         /\ (a ∉ map reg_node post) /\ RewardAddr n = reg_reward r.

(** The entry a registration starts when its reward address is new. *)
Definition entry_of (r : registration) : consolidatedNode :=
  new_node (reg_node r) (reg_staking r) (reg_reward r) (reg_amount r).

(** ** More on the staking manager *)

Section ManagerTools.

Context {Ext : Type}.

(** [GetStakingManager] and [SetTestStakingManager], from whether the
    manager read or assigned is not nil: the package variable is assigned,
    and [once] is left as it is. *)
Definition GetStakingManager : World Ext -> option (bool * World Ext) :=
  fun w => Some (stakingManager w, w).

Definition SetTestStakingManager (sm : bool) : World Ext -> option (unit * World Ext) :=
  fun w => Some (tt, {| heap := heap w; stakingManager := sm; once := once w;
                        prerequisites := prerequisites w; ext := ext w;
                        trace := trace w |}).

(** The package variables a call leaves as they are. *)
Definition same_control (w w' : World Ext) : Prop :=
  stakingManager w' = stakingManager w /\ once w' = once w
  /\ prerequisites w' = prerequisites w.

(** What a call may do to the snapshots allocated before it: keep them, or
    assign their gini. *)
Definition gini_only (h h' : list StakingInfo) : Prop :=
  forall q s, h !! q = Some s -> exists g, h' !! q = Some (set_Gini s g).

(** A world reached from [w] by a call of the manager. *)
Definition reached_from (w w' : World Ext) : Prop :=
  same_control w w'
  /\ gini_only (heap w) (heap w')
  /\ (length (heap w) <= length (heap w'))%nat
  /\ exists t, trace w' = trace w ++ t.

(** A call that sets the manager up: [NewStakingManager] with or without
    its blockchain and governance, or a [SetTestStakingManager]; and a
    sequence of such calls, results dropped. *)
Inductive setup_call :=
| CallNew (bc gh : bool)
| CallSetTest (sm : bool).

Definition run_setup_call (c : setup_call) (w : World Ext) : option (World Ext) :=
  match c with
  | CallNew bc gh => snd <$> NewStakingManager bc gh w
  | CallSetTest sm => snd <$> SetTestStakingManager sm w
  end.

Fixpoint run_setup_calls (cs : list setup_call) (w : World Ext) : option (World Ext) :=
  match cs with
  | [] => Some w
  | c :: cs' => w' ← run_setup_call c w; run_setup_calls cs' w'
  end.

(** A call that fires [once] when it has not fired. *)
Definition fires_once (c : setup_call) : bool :=
  match c with
  | CallNew bc gh => bc && gh
  | CallSetTest _ => false
  end.

Definition is_set_test (c : setup_call) : bool :=
  match c with
  | CallNew _ _ => false
  | CallSetTest _ => true
  end.

End ManagerTools.

(** An access that shows the database has a snapshot for [blockNum]: a read
    that returned no error, or a write with no error of a snapshot of that
    block. *)
Definition stored_evidence (blockNum : uint64) (a : Access) : bool :=
  match a with
  | DBRead n _ None => (n =? blockNum)%N
  | DBWrite s None => (BlockNum s =? blockNum)%N
  | _ => false
  end.

(** ** The stake behind a reward address *)

(** The total staked by the registrations with a reward address, as
    additions on uint64 leave it. *)
Definition reward_total (regs : list registration) (rewardAddr : Address) : uint64 :=
  (N_sum (map reg_amount (List.filter (fun r => (reg_reward r =? rewardAddr)%N) regs))
   mod two64)%N.

(** The reward address and the stake of each entry. *)
Definition reward_amounts (entries : list consolidatedNode) : list (Address * uint64) :=
  map (fun n => (RewardAddr n, StakingAmount n)) entries.

(** [example_info] with the registrations in another order. *)
Definition reordered_info : StakingInfo :=
  {| BlockNum := 86400%N;
     CouncilNodeAddrs := [3; 1; 2]%N;
     CouncilStakingAddrs := [3; 5; 7]%N;
     CouncilRewardAddrs := [23; 21; 21]%N;
     KIRAddr := 31%N;
     PoCAddr := 32%N;
     UseGini := true;
     Gini := DefaultGiniCoefficient;
     CouncilStakingAmounts := [3; 5; 7]%N |}.

(** ** More worlds on the in-memory collaborators *)

(** No manager; a database that holds [example_info]; and the world
    after a first [GetStakingInfoOnStakingBlock] of block 86400 on an empty
    cache and an empty database. *)
Definition mem_world_unset : World MemExt :=
  {| heap := []; stakingManager := false; once := false; prerequisites := 0;
     ext := {| mem_cache := []; mem_db := []; mem_db_down := false |};
     trace := [] |}.

Definition mem_world_stored : World MemExt :=
  {| heap := []; stakingManager := true; once := true; prerequisites := 1;
     ext := {| mem_cache := []; mem_db := [(86400%N, example_info)];
               mem_db_down := false |};
     trace := [] |}.

Definition mem_world_cached : World MemExt :=
  {| heap := [set_Gini example_info three_tenths];
     stakingManager := true; once := true; prerequisites := 1;
     ext := {| mem_cache := [(86400%N, 0%nat)]; mem_db := [(86400%N, example_info)];
               mem_db_down := false |};
     trace := [CacheGet 86400; DBRead 86400 None (Some (ErrExternal "not found"));
               AddressBookRead 86400; ChainGetBlock 86400; ChainStateAt 86400;
               GovUseGini 86400; DBWrite example_info None;
               GovMinimumStaking 86400; CacheAdd 0]%N |}.

(** A snapshot that lacks the staking amount of its third node. *)
Definition short_info : StakingInfo :=
  {| BlockNum := 86400%N;
     CouncilNodeAddrs := [1; 2; 3]%N;
     CouncilStakingAddrs := [5; 7; 3]%N;
     CouncilRewardAddrs := [21; 21; 23]%N;
     KIRAddr := 31%N;
     PoCAddr := 32%N;
     UseGini := true;
     Gini := DefaultGiniCoefficient;
     CouncilStakingAmounts := [5; 7]%N |}.

(** ** The slice handed to CalcGiniCoefficient *)

(** What the caller's slice holds after [CalcGiniCoefficient]:
    [sort.Sort] sorts it in place. *)
Definition CalcGiniCoefficient_argument (stakingAmount : list float64) : list float64 :=
  sort_float64s stakingAmount.

(** The registrations with a reward address, in their order. *)
Definition registered_with (rewardAddr : Address) (regs : list registration)
  : list registration :=
  List.filter (fun r => (reg_reward r =? rewardAddr)%N) regs.

(** * Properties *)

(** *** Rounding *)

(** The integer part of [m / 2^k] plus one when bit [k - 1] of [m] is set
    is [m / 2^k + 1/2] rounded down: the nearest integer, halves up. *)
Lemma nearest_half_up_succ (m j : Z) :
  0 <= j ->
  (if Z.testbit m j then Z.shiftr m (j + 1) + 1 else Z.shiftr m (j + 1))
  = (2 * m + 2 ^ (j + 1)) / 2 ^ (j + 2).
Proof.
  intros Hj.
  rewrite Z.shiftr_div_pow2, Z.testbit_eqb by lia.
  replace (j + 2) with (Z.succ (Z.succ j)) by lia.
  replace (j + 1) with (Z.succ j) by lia.
  rewrite !Z.pow_succ_r by lia.
  set (P := 2 ^ j).
  assert (HP : 0 < P) by (apply Z.pow_pos_nonneg; lia).
  replace (2 * m + 2 * P) with (2 * (m + P)) by lia.
  rewrite Z.div_mul_cancel_l by lia.
  rewrite (Z.mul_comm 2 P), <- !Z.div_div by lia.
  replace (m + P) with (m + 1 * P) by lia. rewrite Z.div_add by lia.
  generalize (m / P). intros a.
  destruct (Z.eqb_spec (a mod 2) 1); Z.div_mod_to_equations; lia.
Qed.

Lemma nearest_half_up (m k : Z) :
  0 < k ->
  (if Z.testbit m (k - 1) then Z.shiftr m k + 1 else Z.shiftr m k)
  = (2 * m + 2 ^ k) / 2 ^ (k + 1).
Proof.
  intros Hk. pose proof (nearest_half_up_succ m (k - 1)) as H.
  replace (k - 1 + 1) with k in H by lia.
  replace (k - 1 + 2) with (k + 1) in H by lia.
  apply H. lia.
Qed.

(** [Round] rounds the magnitude to the nearest integer, halves up, and
    keeps the sign: halves go away from zero. *)
Lemma Round_half_away_from_zero (s : bool) (m : positive) (e : Z) :
  Round (S754_finite s m e)
  = if 0 <=? e then S754_finite s m e
    else binary_normalize prec emax
           (cond_Zopp s ((2 * Z.pos m + 2 ^ (- e)) / 2 ^ (- e + 1))) 0 s.
Proof.
  unfold Round. destruct (Z.leb_spec 0 e) as [|He]; [reflexivity|].
  now rewrite nearest_half_up by lia.
Qed.

(** ** The Gini coefficient *)

Lemma float_sum_snoc (l : list float64) (x : float64) :
  float_sum (l ++ [x]) = add (float_sum l) x.
Proof. unfold float_sum. now rewrite fold_left_app. Qed.

Lemma gini_term_middle (pre xs : list float64) (x : float64) :
  gini_term (pre ++ x :: xs) (length pre)
  = sub (mul x (of_Z (Z.of_nat (length pre)))) (float_sum pre).
Proof.
  unfold gini_term.
  rewrite app_nth2 by lia. rewrite Nat.sub_diag. simpl nth.
  rewrite firstn_app, Nat.sub_diag, firstn_all. simpl. now rewrite app_nil_r.
Qed.

(** The loop, started after the elements [pre], adds the terms of the
    remaining positions and ends with the sum of everything. *)
Lemma gini_loop_terms (xs pre : list float64) (acc : float64) :
  gini_loop xs (Z.of_nat (length pre)) acc (float_sum pre)
  = (fold_left (fun a i => add a (gini_term (pre ++ xs) i))
       (seq (length pre) (length xs)) acc,
     float_sum (pre ++ xs)).
Proof.
  revert pre acc. induction xs as [|x xs IH]; intros pre acc.
  - simpl. now rewrite app_nil_r.
  - cbn [gini_loop length seq fold_left].
    rewrite gini_term_middle.
    specialize (IH (pre ++ [x])).
    rewrite length_app in IH. cbn [length] in IH.
    replace (Z.of_nat (length pre + 1)) with (Z.of_nat (length pre) + 1) in IH by lia.
    rewrite float_sum_snoc in IH. rewrite IH.
    rewrite <- app_assoc. cbn [app].
    now replace (length pre + 1)%nat with (S (length pre)) by lia.
Qed.

(** The loop of [CalcGiniCoefficient] computes the specification's value
    on the slice as the sort left it. *)
Lemma CalcGiniCoefficient_after_sort (stakingAmount : list float64) :
  CalcGiniCoefficient stakingAmount = spec_Gini (sort_float64s stakingAmount).
Proof.
  unfold CalcGiniCoefficient, spec_Gini, round_2_decimals.
  pose proof (gini_loop_terms (sort_float64s stakingAmount) [] zero) as H.
  cbn [length app] in H. change (float_sum []) with zero in H.
  change (Z.of_nat 0) with 0 in H.
  now rewrite H.
Qed.

(** *** The order of stake amounts and the sort *)

Lemma ltb_finite (m1 m2 : positive) (e1 e2 : Z) :
  ltb (S754_finite false m1 e1) (S754_finite false m2 e2)
  = (e1 <? e2) || ((e1 =? e2) && (Z.pos m1 <? Z.pos m2)).
Proof.
  unfold ltb, SFltb, SFcompare.
  change (Pos.compare_cont Eq m1 m2) with (Pos.compare m1 m2).
  destruct (Z.compare_spec e1 e2); destruct (Pos.compare_spec m1 m2);
    simpl; lia.
Qed.

Ltac stake_cases :=
  repeat match goal with
         | x : float64 |- _ => destruct x as [[]|[]| |[] ? ?]
         | H : stake_value _ = true |- _ => simpl in H; try discriminate H; clear H
         end.

Lemma stake_ltb_asym (x y : float64) :
  stake_value x = true -> stake_value y = true ->
  ltb x y = true -> ltb y x = false.
Proof.
  intros Hx Hy. stake_cases; try (cbn; congruence).
  rewrite !ltb_finite. lia.
Qed.

#[local] Instance stake_le_trans : Transitive stake_le.
Proof.
  intros x y z (Hx & Hy & Hxy) (_ & Hz & Hyz). repeat split; try assumption.
  revert Hxy Hyz. stake_cases; try (cbn; congruence).
  rewrite !ltb_finite. lia.
Qed.

#[local] Instance stake_le_antisym : AntiSymm eq stake_le.
Proof.
  intros x y (Hx & Hy & Hxy) (_ & _ & Hyx).
  revert Hxy Hyx. stake_cases; try (cbn; congruence).
  rewrite !ltb_finite. intros H1 H2.
  assert (e = e0 /\ m = m0) as [-> ->] by lia. reflexivity.
Qed.

Lemma insert_float64_perm (x : float64) (l : list float64) :
  Permutation (insert_float64 x l) (x :: l).
Proof.
  induction l as [|y l IH]; simpl; [reflexivity|].
  destruct (ltb y x); [|reflexivity].
  rewrite IH. apply perm_swap.
Qed.

Lemma sort_float64s_perm (l : list float64) :
  Permutation (sort_float64s l) l.
Proof.
  induction l as [|x l IH]; simpl; [reflexivity|].
  rewrite insert_float64_perm. now rewrite IH.
Qed.

Lemma insert_float64_head (R : relation float64) (a x : float64) (l : list float64) :
  R a x -> HdRel R a l -> HdRel R a (insert_float64 x l).
Proof.
  intros Hax Hl. destruct l as [|y l]; simpl; [now constructor|].
  destruct (ltb y x); constructor; [now inversion Hl | assumption].
Qed.

Lemma insert_float64_sorted (x : float64) (l : list float64) :
  stake_value x = true -> Forall (fun y => stake_value y = true) l ->
  Sorted stake_le l -> Sorted stake_le (insert_float64 x l).
Proof.
  intros Hx Hl Hs. induction l as [|y l IH]; simpl.
  - repeat constructor.
  - inversion Hl as [|? ? Hy Hl']; subst. inversion Hs as [|? ? Hs' Hhd]; subst.
    destruct (ltb y x) eqn:E.
    + constructor; [now apply IH|].
      apply insert_float64_head; [|assumption].
      repeat split; try assumption. now apply stake_ltb_asym.
    + constructor; [assumption|]. constructor. now repeat split.
Qed.

Lemma sort_float64s_sorted (l : list float64) :
  Forall (fun y => stake_value y = true) l -> Sorted stake_le (sort_float64s l).
Proof.
  induction l as [|x l IH]; intros Hl; simpl; [constructor|].
  inversion Hl; subst.
  apply insert_float64_sorted; [assumption| |now apply IH].
  eapply Permutation_Forall; [symmetry; apply sort_float64s_perm | assumption].
Qed.

(** On stake amounts the result of the sort does not depend on the sorting
    algorithm: it is the only ascending permutation of the input. *)
Lemma sorted_perm_is_sort (l sorted : list float64) :
  Forall (fun y => stake_value y = true) l ->
  Sorted stake_le sorted -> Permutation sorted l ->
  sorted = sort_float64s l.
Proof.
  intros Hl Hs Hp. apply (Sorted_unique stake_le); [assumption| |].
  - now apply sort_float64s_sorted.
  - now rewrite sort_float64s_perm.
Qed.

(** The slice after the sort does not depend on the order of the stake
    amounts before it. *)
Lemma sort_float64s_permutation (l l' : list float64) :
  Forall (fun y => stake_value y = true) l -> Permutation l l' ->
  sort_float64s l = sort_float64s l'.
Proof.
  intros Hl Hp. symmetry. apply sorted_perm_is_sort.
  - assumption.
  - apply sort_float64s_sorted. eapply Permutation_Forall; eassumption.
  - rewrite sort_float64s_perm. now symmetry.
Qed.

(** The coefficient does not depend on the order of the stake amounts. *)
Theorem CalcGiniCoefficient_permutation (l l' : list float64) :
  Forall (fun y => stake_value y = true) l -> Permutation l l' ->
  CalcGiniCoefficient l = CalcGiniCoefficient l'.
Proof.
  intros Hl Hp. unfold CalcGiniCoefficient.
  now rewrite (sort_float64s_permutation l l' Hl Hp).
Qed.

Lemma CalcGiniCoefficient_permutation_example :
  CalcGiniCoefficient (map of_Z [3; 0; 7; 1]) = CalcGiniCoefficient (map of_Z [7; 1; 3; 0]).
Proof.
  apply CalcGiniCoefficient_permutation.
  - repeat constructor.
  - change (map of_Z [3; 0; 7; 1]) with ([of_Z 3; of_Z 0] ++ [of_Z 7; of_Z 1]).
    change (map of_Z [7; 1; 3; 0]) with ([of_Z 7; of_Z 1] ++ [of_Z 3; of_Z 0]).
    apply Permutation_app_comm.
Defined.

(** Equal stakes give 0, and [0,0,0,10] gives 0.75 (bits
    0x3FE8000000000000). *)
Lemma CalcGiniCoefficient_examples :
  CalcGiniCoefficient (map of_Z [1; 1; 1; 1]) = zero
  /\ CalcGiniCoefficient (map of_Z [0; 0; 0; 10]) = div (of_Z 75) hundred
  /\ Float64bits (CalcGiniCoefficient (map of_Z [0; 0; 0; 10])) = 0x3FE8000000000000.
Proof. repeat split; vm_compute; reflexivity. Qed.

(** A NaN among the amounts makes the result NaN, wherever the sort puts
    it. *)
Lemma gini_loop_nan_state (xs : list float64) (i : Z) :
  gini_loop xs i nan nan = (nan, nan).
Proof.
  revert i. induction xs as [|x xs IH]; intros i; [reflexivity|].
  cbn [gini_loop]. replace (add nan x) with nan by now destruct x.
  replace (add nan (sub (mul x (of_Z i)) nan)) with nan
    by now destruct (sub (mul x (of_Z i)) nan).
  apply IH.
Qed.

Lemma gini_loop_nan (xs : list float64) (i : Z) (a s : float64) :
  nan ∈ xs -> gini_loop xs i a s = (nan, nan).
Proof.
  revert i a s. induction xs as [|x xs IH]; intros i a s Hin.
  - inversion Hin.
  - cbn [gini_loop]. apply elem_of_cons in Hin as [<-|Hin]; [|now apply IH].
    replace (add s nan) with nan by now destruct s.
    replace (add a (sub (mul nan (of_Z i)) s)) with nan by now destruct a.
    apply gini_loop_nan_state.
Qed.

Lemma CalcGiniCoefficient_nan (l : list float64) :
  nan ∈ l -> CalcGiniCoefficient l = nan.
Proof.
  intros Hin. unfold CalcGiniCoefficient.
  rewrite gini_loop_nan; [reflexivity|].
  now rewrite sort_float64s_perm.
Qed.

(** C2. On stakes that are all zero the sum of the stakes is zero and the
    two divisions give NaN, which is in no interval: the coefficient of
    [0,0,0,0] is NaN, neither at least 0 nor at most 1. *)
Theorem CalcGiniCoefficient_all_zero :
  Forall (fun y => stake_value y = true) (map of_Z [0; 0; 0; 0])
  /\ CalcGiniCoefficient (map of_Z [0; 0; 0; 0]) = nan
  /\ geb (CalcGiniCoefficient (map of_Z [0; 0; 0; 0])) zero = false
  /\ geb (of_Z 1) (CalcGiniCoefficient (map of_Z [0; 0; 0; 0])) = false.
Proof. split; [repeat constructor | vm_compute; auto]. Qed.

(** *** The coefficient as the specification words it *)

Lemma leb_finite (m1 m2 : positive) (e1 e2 : Z) :
  SFleb (S754_finite false m1 e1) (S754_finite false m2 e2)
  = (e1 <? e2) || ((e1 =? e2) && (Z.pos m1 <=? Z.pos m2)).
Proof.
  unfold SFleb, SFcompare.
  change (Pos.compare_cont Eq m1 m2) with (Pos.compare m1 m2).
  destruct (Z.compare_spec e1 e2); destruct (Pos.compare_spec m1 m2);
    simpl; lia.
Qed.

(** Between stake amounts, [x <= y] is that [y < x] does not hold. *)
Lemma stake_leb_not_ltb (x y : float64) :
  stake_value x = true -> stake_value y = true ->
  SFleb x y = true <-> ltb y x = false.
Proof.
  intros Hx Hy. stake_cases; try (cbn; intuition congruence).
  rewrite leb_finite, ltb_finite. lia.
Qed.

Lemma ascending_stake_le (l : list float64) :
  Forall (fun y => stake_value y = true) l ->
  ascending l <-> Sorted stake_le l.
Proof.
  unfold ascending. induction l as [|x l IH]; intros Hl.
  - split; constructor.
  - inversion Hl as [|? ? Hx Hl']; subst. specialize (IH Hl').
    assert (Hhd : HdRel (fun a b => SFleb a b = true) x l <-> HdRel stake_le x l).
    { destruct l as [|y l]; [split; constructor|].
      inversion Hl' as [|? ? Hy _]; subst.
      split; intros H; inversion H as [|? ? Hxy]; subst; constructor.
      - repeat split; try assumption. now apply stake_leb_not_ltb.
      - destruct Hxy as (_ & _ & Hxy). now apply stake_leb_not_ltb. }
    split; intros H; inversion H; subst; constructor; tauto.
Qed.

(** C1. For every sequence of stake amounts, [CalcGiniCoefficient]
    returns the value the specification words: arrange the amounts in
    ascending order; add, for the element at position [i], its value times
    [i] minus the sum of the earlier elements; divide by the sum of all
    elements, then by the count; round to 2 decimals, halves away from zero
    (the nearest integer to 100 times the quotient, a half rounded up in
    magnitude, divided by 100). Whatever ascending arrangement of the
    amounts is taken, its value is the one returned. *)
Theorem CalcGiniCoefficient_is_spec_Gini (stakingAmount : list float64) :
  Forall (fun y => stake_value y = true) stakingAmount ->
  is_spec_Gini stakingAmount (CalcGiniCoefficient stakingAmount)
  /\ (forall sorted,
        Permutation sorted stakingAmount -> ascending sorted ->
        CalcGiniCoefficient stakingAmount = spec_Gini sorted)
  /\ (forall q, round_2_decimals q = div (Round (mul q hundred)) hundred)
  /\ (forall (s : bool) (m : positive) (e : Z),
        Round (S754_finite s m e)
        = if 0 <=? e then S754_finite s m e
          else binary_normalize prec emax
                 (cond_Zopp s ((2 * Z.pos m + 2 ^ (- e)) / 2 ^ (- e + 1))) 0 s).
Proof.
  intros Hl.
  assert (Hany : forall sorted,
            Permutation sorted stakingAmount -> ascending sorted ->
            CalcGiniCoefficient stakingAmount = spec_Gini sorted).
  { intros sorted Hp Hs. rewrite CalcGiniCoefficient_after_sort. f_equal. symmetry.
    apply sorted_perm_is_sort; [assumption| |assumption].
    apply ascending_stake_le; [|assumption].
    eapply Permutation_Forall; [symmetry; exact Hp | exact Hl]. }
  split; [|split; [exact Hany | split; [reflexivity | apply Round_half_away_from_zero]]].
  exists (sort_float64s stakingAmount).
  assert (Hp : Permutation (sort_float64s stakingAmount) stakingAmount)
    by apply sort_float64s_perm.
  assert (Hs : ascending (sort_float64s stakingAmount)).
  { apply ascending_stake_le; [|now apply sort_float64s_sorted].
    eapply Permutation_Forall; [symmetry; exact Hp | exact Hl]. }
  split; [exact Hp|]. split; [exact Hs|]. now apply Hany.
Qed.

(** The stakes 12 and 3: the value is that of the arrangement 3, 12. *)
Lemma CalcGiniCoefficient_is_spec_Gini_witness :
  CalcGiniCoefficient [of_uint64 12; of_uint64 3]%N
  = spec_Gini [of_uint64 3; of_uint64 12]%N.
Proof.
  apply (proj1 (proj2 (CalcGiniCoefficient_is_spec_Gini [of_uint64 12; of_uint64 3]%N
                         ltac:(repeat constructor)))).
  - apply perm_swap.
  - repeat constructor.
Defined.

(** *** The conversion of a uint64 *)

Lemma iter_pos_keeps {A : Type} (P : A -> Prop) (f : A -> A) (p : positive) (x : A) :
  (forall y, P y -> P (f y)) -> P x -> P (SpecFloat.iter_pos f p x).
Proof.
  intros Hf. revert x. induction p as [p IH|p IH|]; intros x Hx; simpl; auto.
Qed.

Lemma shr_1_nonneg (mrs : shr_record) : 0 <= shr_m mrs -> 0 <= shr_m (shr_1 mrs).
Proof.
  destruct mrs as [m r s]. simpl. intros Hm.
  destruct m as [|[p|p|]|p]; simpl; lia.
Qed.

Lemma shr_fexp_nonneg (m e : Z) (l : location) :
  0 <= m -> 0 <= shr_m (fst (shr_fexp prec emax m e l)).
Proof.
  intros Hm. unfold shr_fexp, shr.
  assert (H0 : 0 <= shr_m (shr_record_of_loc m l))
    by (destruct l as [|[]]; exact Hm).
  destruct (fexp prec emax (Zdigits2 m + e) - e); simpl; try assumption.
  apply (iter_pos_keeps (fun mrs => 0 <= shr_m mrs)); [apply shr_1_nonneg | assumption].
Qed.

Lemma round_nearest_even_nonneg (m : Z) (l : location) :
  0 <= m -> 0 <= round_nearest_even m l.
Proof.
  intros Hm. unfold round_nearest_even.
  destruct l as [|[]]; try destruct (Z.even m); lia.
Qed.

(** Rounding a magnitude gives a zero, a finite number or an infinity of
    the sign asked for. *)
Lemma binary_round_aux_sign (sx : bool) (mx ex : Z) (lx : location) :
  0 <= mx ->
  match binary_round_aux prec emax sx mx ex lx with
  | S754_zero s | S754_infinity s | S754_finite s _ _ => s = sx
  | S754_nan => False
  end.
Proof.
  intros Hm. unfold binary_round_aux.
  pose proof (shr_fexp_nonneg mx ex lx Hm) as H1.
  destruct (shr_fexp prec emax mx ex lx) as [mrs' e']. simpl in H1.
  pose proof (shr_fexp_nonneg _ e' loc_Exact
                (round_nearest_even_nonneg _ (loc_of_shr_record mrs') H1)) as H2.
  destruct (shr_fexp prec emax _ e' loc_Exact) as [mrs'' e'']. simpl in H2.
  destruct (shr_m mrs'') as [|p|p]; [reflexivity | | lia].
  now destruct (e'' <=? emax - prec).
Qed.

(** [float64] of a uint64 is a stake amount. *)
Lemma of_uint64_stake_value (n : uint64) : stake_value (of_uint64 n) = true.
Proof.
  unfold of_uint64, of_Z, binary_normalize.
  destruct (Z.of_N n) as [|p|p] eqn:E; [reflexivity | | lia].
  unfold binary_round.
  destruct (shl_align p 0 (fexp prec emax (Z.pos (digits2_pos p) + 0))) as [mz ez].
  pose proof (binary_round_aux_sign false (Z.pos mz) ez loc_Exact) as H.
  destruct (binary_round_aux prec emax false (Z.pos mz) ez loc_Exact) as [s|s| |s m e];
    simpl; try (rewrite H by lia; reflexivity).
  exfalso. apply H. lia.
Qed.

(** ** The minimum-stake floor *)

Lemma eligible_amounts_from (ns : list consolidatedNode) (minStake : uint64)
    (acc : list float64) :
  fold_left
    (fun amounts node =>
       if (minStake <=? StakingAmount node)%N
       then amounts ++ [of_uint64 (StakingAmount node)]
       else amounts)
    ns acc
  = acc ++ map (fun n => of_uint64 (StakingAmount n))
             (List.filter (fun n => (minStake <=? StakingAmount n)%N) ns).
Proof.
  revert acc. induction ns as [|n ns IH]; intros acc; simpl.
  - now rewrite app_nil_r.
  - rewrite IH. destruct (minStake <=? StakingAmount n)%N; simpl;
      [now rewrite <- app_assoc | reflexivity].
Qed.

Lemma eligible_amounts_filter (ns : list consolidatedNode) (minStake : uint64) :
  eligible_amounts ns minStake
  = map (fun n => of_uint64 (StakingAmount n))
      (List.filter (fun n => (minStake <=? StakingAmount n)%N) ns).
Proof. unfold eligible_amounts. now rewrite eligible_amounts_from. Qed.

Lemma no_floor (ns : list consolidatedNode) :
  List.filter (fun n => (0 <=? StakingAmount n)%N) ns = ns.
Proof.
  induction ns as [|n ns IH]; simpl; [reflexivity|].
  replace (0 <=? StakingAmount n)%N with true by (symmetry; apply N.leb_le; lia).
  now rewrite IH.
Qed.

(** The amounts collected are stake amounts, on which the sort is
    determined; so the coefficient does not depend on the order of the
    consolidated nodes. *)
Lemma eligible_amounts_stake_values (ns : list consolidatedNode) (minStake : uint64) :
  Forall (fun y => stake_value y = true) (eligible_amounts ns minStake).
Proof.
  rewrite eligible_amounts_filter. apply Forall_forall. intros y Hy.
  apply list_elem_of_In, in_map_iff in Hy as (n & <- & _).
  apply of_uint64_stake_value.
Qed.

(** [CalcGiniCoefficientMinStake] gives the same coefficient whatever the
    order of the consolidated nodes. *)
Lemma CalcGiniCoefficientMinStake_permutation (c c' : ConsolidatedStakingInfo)
    (minStake : uint64) :
  Permutation (nodes c) (nodes c') ->
  CalcGiniCoefficientMinStake c minStake = CalcGiniCoefficientMinStake c' minStake.
Proof.
  intros Hp. unfold CalcGiniCoefficientMinStake.
  assert (Hperm : Permutation (eligible_amounts (nodes c) minStake)
                    (eligible_amounts (nodes c') minStake)).
  { rewrite !eligible_amounts_filter. apply Permutation_map.
    clear -Hp. induction Hp; simpl.
    - reflexivity.
    - destruct (minStake <=? StakingAmount x)%N; [now constructor | assumption].
    - destruct (minStake <=? StakingAmount x)%N, (minStake <=? StakingAmount y)%N;
        try reflexivity. apply perm_swap.
    - etransitivity; eassumption. }
  rewrite (Permutation_length Hperm).
  destruct (length (eligible_amounts (nodes c') minStake) =? 0)%nat; [reflexivity|].
  unfold CalcGiniCoefficient.
  now rewrite (sort_float64s_permutation _ _ (eligible_amounts_stake_values _ _) Hperm).
Qed.

(** C3. [CalcGiniCoefficientMinStake] computes on the consolidated nodes
    whose StakingAmount is at least [minStake]: with no such node it returns
    the sentinel, exactly -1.0 (bits 0xBFF0000000000000); otherwise it
    returns [CalcGiniCoefficient] of exactly their amounts, in the order of
    the nodes; and with [minStake = 0] every node is kept. *)
Theorem CalcGiniCoefficientMinStake_floor (c : ConsolidatedStakingInfo)
    (minStake : uint64) :
  CalcGiniCoefficientMinStake c minStake
  = match List.filter (fun n => (minStake <=? StakingAmount n)%N) (nodes c) with
    | [] => DefaultGiniCoefficient
    | eligible => CalcGiniCoefficient (map (fun n => of_uint64 (StakingAmount n)) eligible)
    end
  /\ DefaultGiniCoefficient = SFopp (of_Z 1)
  /\ Float64bits DefaultGiniCoefficient = 0xBFF0000000000000
  /\ List.filter (fun n => (0 <=? StakingAmount n)%N) (nodes c) = nodes c
  /\ CalcGiniCoefficientMinStake c 0%N
     = match nodes c with
       | [] => DefaultGiniCoefficient
       | all => CalcGiniCoefficient (map (fun n => of_uint64 (StakingAmount n)) all)
       end.
Proof.
  assert (Hgen : forall m,
    CalcGiniCoefficientMinStake c m
    = match List.filter (fun n => (m <=? StakingAmount n)%N) (nodes c) with
      | [] => DefaultGiniCoefficient
      | eligible => CalcGiniCoefficient (map (fun n => of_uint64 (StakingAmount n)) eligible)
      end).
  { intros m. unfold CalcGiniCoefficientMinStake.
    rewrite eligible_amounts_filter.
    destruct (List.filter _ (nodes c)); reflexivity. }
  split; [apply Hgen|]. split; [reflexivity|]. split; [reflexivity|].
  split; [apply no_floor|].
  rewrite Hgen, no_floor. reflexivity.
Qed.

(** ** The consolidation *)

Lemma registrations_of_lookup (ns ss rs : list Address) (ams : list uint64) (j : nat) :
  registrations_of ns ss rs ams !! j
  = (n ← ns !! j; s ← ss !! j; r ← rs !! j; a ← ams !! j;
     Some {| reg_node := n; reg_staking := s; reg_reward := r; reg_amount := a |}).
Proof.
  revert ss rs ams j. induction ns as [|n ns IH]; intros ss rs ams j.
  - destruct j; reflexivity.
  - destruct ss as [|s ss]; [simpl; destruct j; simpl; [|destruct (ns !! j)]; reflexivity|].
    destruct rs as [|r rs].
    { simpl. destruct j; simpl; [reflexivity|].
      destruct (ns !! j); simpl; [|reflexivity]. destruct (ss !! j); reflexivity. }
    destruct ams as [|a ams].
    { simpl. destruct j; simpl; [reflexivity|].
      destruct (ns !! j); simpl; [|reflexivity].
      destruct (ss !! j); simpl; [|reflexivity]. destruct (rs !! j); reflexivity. }
    destruct j; simpl; [reflexivity|]. apply IH.
Qed.

Lemma registrations_of_length (ns ss rs : list Address) (ams : list uint64) :
  length ss = length ns -> length rs = length ns -> length ams = length ns ->
  length (registrations_of ns ss rs ams) = length ns.
Proof.
  revert ss rs ams. induction ns as [|n ns IH]; intros [|s ss] [|r rs] [|a ams];
    simpl; intros; try lia.
  rewrite IH; lia.
Qed.

Lemma registrations_of_rewards (ns ss rs : list Address) (ams : list uint64) :
  length ss = length ns -> length rs = length ns -> length ams = length ns ->
  map reg_reward (registrations_of ns ss rs ams) = rs.
Proof.
  revert ss rs ams. induction ns as [|n ns IH]; intros [|s ss] [|r rs] [|a ams];
    simpl; intros; try lia; try reflexivity.
  rewrite IH; [reflexivity|lia..].
Qed.

Lemma registrations_of_amounts (ns ss rs : list Address) (ams : list uint64) :
  length ss = length ns -> length rs = length ns -> length ams = length ns ->
  map reg_amount (registrations_of ns ss rs ams) = ams.
Proof.
  revert ss rs ams. induction ns as [|n ns IH]; intros [|s ss] [|r rs] [|a ams];
    simpl; intros; try lia; try reflexivity.
  rewrite IH; [reflexivity|lia..].
Qed.

(** An iteration at index [j] is the loop body on registration [j]. *)
Lemma consolidate_step_reg (s : StakingInfo)
    (st : ConsolidatedStakingInfo * gmap N nat) (j : nat) :
  consolidate_step s st j = (r ← registrations s !! j; reg_step st r).
Proof.
  unfold registrations. rewrite registrations_of_lookup.
  unfold consolidate_step. destruct st as [c rewardIndex].
  destruct (CouncilNodeAddrs s !! j); simpl; [|reflexivity].
  destruct (CouncilStakingAddrs s !! j); simpl; [|reflexivity].
  destruct (CouncilRewardAddrs s !! j); simpl; [|reflexivity].
  destruct (CouncilStakingAmounts s !! j); reflexivity.
Qed.

Lemma consolidate_loop_regs (s : StakingInfo) (m k : nat)
    (st : ConsolidatedStakingInfo * gmap N nat) :
  (k + m <= length (registrations s))%nat ->
  consolidate_loop s (seq k m) st = reg_loop (take m (drop k (registrations s))) st.
Proof.
  revert k st. induction m as [|m IH]; intros k st Hk; [reflexivity|].
  cbn [seq consolidate_loop]. rewrite consolidate_step_reg.
  destruct (lookup_lt_is_Some_2 (registrations s) k) as [r Hr]; [lia|].
  rewrite Hr. rewrite (drop_S _ _ _ Hr). cbn [take reg_loop].
  simpl. destruct (reg_step st r) as [st'|]; simpl; [|reflexivity].
  apply IH. lia.
Qed.

Lemma absorb_rewards (r : registration) (entries : list consolidatedNode) :
  map RewardAddr (absorb r entries)
  = if decide (reg_reward r ∈ map RewardAddr entries)
    then map RewardAddr entries
    else map RewardAddr entries ++ [reg_reward r].
Proof.
  induction entries as [|n entries IH]; simpl.
  - destruct (decide (reg_reward r ∈ [])) as [H|_]; [inversion H | reflexivity].
  - destruct (N.eqb_spec (RewardAddr n) (reg_reward r)) as [E|E]; simpl.
    + rewrite decide_True; [reflexivity|]. rewrite E. constructor.
    + rewrite IH. destruct (decide (reg_reward r ∈ map RewardAddr entries)) as [H|H].
      * rewrite decide_True; [reflexivity | now constructor].
      * rewrite decide_False; [reflexivity|].
        intros H'. apply elem_of_cons in H' as [H'|H']; congruence.
Qed.

Lemma absorb_fresh (r : registration) (entries : list consolidatedNode) :
  reg_reward r ∉ map RewardAddr entries ->
  absorb r entries
  = entries ++ [new_node (reg_node r) (reg_staking r) (reg_reward r) (reg_amount r)].
Proof.
  induction entries as [|n entries IH]; simpl; intros H; [reflexivity|].
  destruct (N.eqb_spec (RewardAddr n) (reg_reward r)) as [E|E].
  - exfalso. apply H. rewrite E. constructor.
  - rewrite IH; [reflexivity|]. intros H'. apply H. now constructor.
Qed.

Lemma absorb_seen (r : registration) (entries : list consolidatedNode)
    (idx : nat) (n : consolidatedNode) :
  NoDup (map RewardAddr entries) ->
  entries !! idx = Some n -> RewardAddr n = reg_reward r ->
  absorb r entries
  = <[idx := extend_node n (reg_node r) (reg_staking r) (reg_amount r)]> entries.
Proof.
  revert idx. induction entries as [|n0 entries IH]; intros idx Hnd Hidx Hn;
    [discriminate|].
  apply NoDup_cons in Hnd as [Hnotin Hnd].
  destruct idx as [|idx]; simpl in *.
  - injection Hidx as ->. rewrite Hn, N.eqb_refl. reflexivity.
  - destruct (N.eqb_spec (RewardAddr n0) (reg_reward r)) as [E|E].
    + exfalso. apply Hnotin. rewrite E, <- Hn.
      apply list_elem_of_fmap_2. eapply list_elem_of_lookup_2; eassumption.
    + f_equal. now apply IH.
Qed.

Lemma lookup_map_Some (entries : list consolidatedNode) (i : nat) (r : N) :
  map RewardAddr entries !! i = Some r ->
  exists n, entries !! i = Some n /\ RewardAddr n = r.
Proof.
  revert i. induction entries as [|n entries IH]; intros [|i] H; try discriminate.
  - injection H as <-. now exists n.
  - now apply IH.
Qed.

(** One iteration of the loop absorbs one registration and keeps the
    reward index right. *)
Lemma reg_step_absorbs (c : ConsolidatedStakingInfo) (rewardIndex : gmap N nat)
    (r : registration) :
  indexes rewardIndex (nodes c) ->
  exists c' rewardIndex',
    reg_step (c, rewardIndex) r = Some (c', rewardIndex')
    /\ nodes c' = absorb r (nodes c)
    /\ indexes rewardIndex' (nodes c').
Proof.
  intros [Hnd Hidx]. unfold reg_step.
  destruct (rewardIndex !! reg_reward r) as [idx|] eqn:E.
  - apply Hidx in E. destruct (lookup_map_Some _ _ _ E) as (n & Hn & Hr).
    rewrite Hn. simpl. eexists _, _. split; [reflexivity|]. simpl.
    assert (Habs := absorb_seen r _ _ _ Hnd Hn Hr).
    split; [now rewrite Habs|].
    assert (Hsame : map RewardAddr
              (<[idx := extend_node n (reg_node r) (reg_staking r) (reg_amount r)]> (nodes c))
            = map RewardAddr (nodes c)).
    { rewrite <- Habs, absorb_rewards. rewrite decide_True; [reflexivity|].
      eapply list_elem_of_lookup_2; eassumption. }
    split; rewrite Hsame; assumption.
  - assert (Hfresh : reg_reward r ∉ map RewardAddr (nodes c)).
    { intros H. apply list_elem_of_lookup_1 in H as [i Hi].
      apply Hidx in Hi. congruence. }
    eexists _, _. split; [reflexivity|]. simpl.
    split; [now rewrite absorb_fresh|].
    rewrite length_app. cbn [length].
    replace (length (nodes c) + 1 - 1)%nat with (length (map RewardAddr (nodes c)))
      by (rewrite length_map; lia).
    unfold indexes. rewrite map_app. cbn [map new_node RewardAddr]. split.
    + apply NoDup_app. split; [assumption|]. split; [|apply NoDup_singleton].
      intros x Hx Hx'. apply list_elem_of_singleton in Hx'. congruence.
    + intros r' i. destruct (decide (reg_reward r = r')) as [<-|Hne].
      * rewrite lookup_insert_eq. split.
        -- intros [= <-]. apply list_lookup_middle. reflexivity.
        -- intros H. f_equal.
           destruct (decide (i < length (map RewardAddr (nodes c)))%nat) as [Hlt|Hge].
           ++ rewrite lookup_app_l in H by assumption.
              exfalso. apply Hfresh. eapply list_elem_of_lookup_2; eassumption.
           ++ rewrite lookup_app_r in H by lia.
              destruct (i - length (map RewardAddr (nodes c)))%nat eqn:D;
                [lia | discriminate].
      * rewrite lookup_insert_ne by assumption. rewrite Hidx. split.
        -- intros H. now apply lookup_app_l_Some.
        -- intros H.
           destruct (decide (i < length (map RewardAddr (nodes c)))%nat) as [Hlt|Hge].
           ++ now rewrite lookup_app_l in H.
           ++ rewrite lookup_app_r in H by lia.
              destruct (i - length (map RewardAddr (nodes c)))%nat; simpl in H;
                [congruence | discriminate].
Qed.

Lemma reg_loop_absorbs (regs : list registration) (c : ConsolidatedStakingInfo)
    (rewardIndex : gmap N nat) :
  indexes rewardIndex (nodes c) ->
  exists c' rewardIndex',
    reg_loop regs (c, rewardIndex) = Some (c', rewardIndex')
    /\ nodes c' = fold_left (fun entries r => absorb r entries) regs (nodes c).
Proof.
  revert c rewardIndex. induction regs as [|r regs IH]; intros c rewardIndex Hinv.
  - now exists c, rewardIndex.
  - destruct (reg_step_absorbs c rewardIndex r Hinv) as (c1 & ri1 & Hstep & Hnodes & Hinv1).
    destruct (IH c1 ri1 Hinv1) as (c' & ri' & Hloop & Hnodes').
    exists c', ri'. cbn [reg_loop]. rewrite Hstep. simpl. split; [assumption|].
    now rewrite Hnodes', Hnodes.
Qed.

(** On sequences of one length the loop does not panic, and its nodes are
    the specification's entries. *)
Lemma GetConsolidatedStakingInfo_refines (s : StakingInfo) :
  length (CouncilStakingAddrs s) = length (CouncilNodeAddrs s) ->
  length (CouncilRewardAddrs s) = length (CouncilNodeAddrs s) ->
  length (CouncilStakingAmounts s) = length (CouncilNodeAddrs s) ->
  exists c, GetConsolidatedStakingInfo s = Some c
            /\ nodes c = spec_consolidate (registrations s).
Proof.
  intros H1 H2 H3. unfold GetConsolidatedStakingInfo.
  assert (Hlen : length (registrations s) = length (CouncilNodeAddrs s))
    by now apply registrations_of_length.
  rewrite consolidate_loop_regs by lia.
  rewrite drop_0, <- Hlen, firstn_all.
  destruct (reg_loop_absorbs (registrations s) {| nodes := []; nodeIndex := ∅ |} ∅)
    as (c & ri & Hloop & Hnodes).
  { split; [constructor|]. intros r i. simpl. rewrite lookup_empty.
    split; [discriminate | destruct i; discriminate]. }
  exists c. rewrite Hloop. split; [reflexivity | exact Hnodes].
Qed.

Lemma first_seen_from (regs : list registration) (entries : list consolidatedNode) :
  map RewardAddr (fold_left (fun entries r => absorb r entries) regs entries)
  = fold_left (fun seen r => if decide (r ∈ seen) then seen else seen ++ [r])
      (map reg_reward regs) (map RewardAddr entries).
Proof.
  revert entries. induction regs as [|r regs IH]; intros entries; [reflexivity|].
  simpl. rewrite IH, absorb_rewards. reflexivity.
Qed.

(** The grouping of the specification's example, for any addresses with
    [R1 <> R3]. *)
Lemma consolidation_example (N1 N2 N3 S1 S2 S3 R1 R3 : N) :
  R1 <> R3 ->
  spec_consolidate
    (registrations_of [N1; N2; N3] [S1; S2; S3] [R1; R1; R3] [5; 7; 3]%N)
  = [ {| NodeAddrs := [N1; N2]; StakingAddrs := [S1; S2]; RewardAddr := R1;
         StakingAmount := 12%N |};
      {| NodeAddrs := [N3]; StakingAddrs := [S3]; RewardAddr := R3;
         StakingAmount := 3%N |} ].
Proof.
  intros Hne. unfold spec_consolidate. simpl.
  rewrite N.eqb_refl. simpl.
  destruct (N.eqb_spec R1 R3) as [E|_]; [contradiction|]. reflexivity.
Qed.

(** The same on a StakingInfo. *)
Lemma GetConsolidatedStakingInfo_example (s : StakingInfo) (N1 N2 N3 S1 S2 S3 R1 R3 : N) :
  CouncilNodeAddrs s = [N1; N2; N3] ->
  CouncilStakingAddrs s = [S1; S2; S3] ->
  CouncilRewardAddrs s = [R1; R1; R3] ->
  CouncilStakingAmounts s = [5; 7; 3]%N ->
  R1 <> R3 ->
  nodes <$> GetConsolidatedStakingInfo s
  = Some [ {| NodeAddrs := [N1; N2]; StakingAddrs := [S1; S2]; RewardAddr := R1;
              StakingAmount := 12%N |};
           {| NodeAddrs := [N3]; StakingAddrs := [S3]; RewardAddr := R3;
              StakingAmount := 3%N |} ].
Proof.
  intros Hn Hs Hr Ha Hne.
  destruct (GetConsolidatedStakingInfo_refines s) as (c & Hc & Hnodes);
    [rewrite ?Hn, ?Hs, ?Hr, ?Ha; reflexivity..|].
  rewrite Hc. simpl. rewrite Hnodes. unfold registrations.
  rewrite Hn, Hs, Hr, Ha. now rewrite consolidation_example.
Qed.

(** C4. [GetConsolidatedStakingInfo] goes through the registrations in
    index order: a registration whose reward address was not seen starts a
    new entry after the existing ones (one node address, one staking address,
    its amount), one whose reward address was seen is appended to that entry
    and its amount added; so the entries are in the order of first appearance
    of their reward addresses. For [(N1,S1,R1), (N2,S2,R1), (N3,S3,R3)] with
    amounts [5,7,3] the result is R1 with nodes [N1,N2] and stake 12, then R3
    with nodes [N3] and stake 3. *)
Theorem GetConsolidatedStakingInfo_groups (s : StakingInfo) :
  length (CouncilStakingAddrs s) = length (CouncilNodeAddrs s) ->
  length (CouncilRewardAddrs s) = length (CouncilNodeAddrs s) ->
  length (CouncilStakingAmounts s) = length (CouncilNodeAddrs s) ->
  (exists c, GetConsolidatedStakingInfo s = Some c
             /\ nodes c = spec_consolidate (registrations s)
             /\ map RewardAddr (nodes c) = first_seen (CouncilRewardAddrs s))
  /\ (forall (r : registration) (entries : list consolidatedNode),
        NoDup (map RewardAddr entries) ->
        (reg_reward r ∉ map RewardAddr entries ->
         absorb r entries
         = entries ++ [ {| NodeAddrs := [reg_node r]; StakingAddrs := [reg_staking r];
                           RewardAddr := reg_reward r; StakingAmount := reg_amount r |} ])
        /\ (forall i n, entries !! i = Some n -> RewardAddr n = reg_reward r ->
            absorb r entries
            = <[i := {| NodeAddrs := NodeAddrs n ++ [reg_node r];
                        StakingAddrs := StakingAddrs n ++ [reg_staking r];
                        RewardAddr := RewardAddr n;
                        StakingAmount := add64 (StakingAmount n) (reg_amount r) |}]> entries))
  /\ (forall N1 N2 N3 S1 S2 S3 R1 R3 : N,
        CouncilNodeAddrs s = [N1; N2; N3] ->
        CouncilStakingAddrs s = [S1; S2; S3] ->
        CouncilRewardAddrs s = [R1; R1; R3] ->
        CouncilStakingAmounts s = [5; 7; 3]%N ->
        R1 <> R3 ->
        nodes <$> GetConsolidatedStakingInfo s
        = Some [ {| NodeAddrs := [N1; N2]; StakingAddrs := [S1; S2]; RewardAddr := R1;
                    StakingAmount := 12%N |};
                 {| NodeAddrs := [N3]; StakingAddrs := [S3]; RewardAddr := R3;
                    StakingAmount := 3%N |} ]).
Proof.
  intros H1 H2 H3. split; [|split].
  - destruct (GetConsolidatedStakingInfo_refines s H1 H2 H3) as (c & Hc & Hnodes).
    exists c. split; [assumption|]. split; [assumption|].
    rewrite Hnodes. unfold spec_consolidate, first_seen.
    rewrite first_seen_from. unfold registrations.
    now rewrite registrations_of_rewards.
  - intros r entries Hnd. split.
    + apply absorb_fresh.
    + intros i n Hi Hn. now apply absorb_seen.
  - apply GetConsolidatedStakingInfo_example.
Qed.

Lemma GetConsolidatedStakingInfo_groups_witness :
  nodes <$> GetConsolidatedStakingInfo example_info
  = Some [ {| NodeAddrs := [1; 2]%N; StakingAddrs := [5; 7]%N; RewardAddr := 21%N;
              StakingAmount := 12%N |};
           {| NodeAddrs := [3]%N; StakingAddrs := [3]%N; RewardAddr := 23%N;
              StakingAmount := 3%N |} ].
Proof.
  apply (proj2 (proj2 (GetConsolidatedStakingInfo_groups example_info
                         eq_refl eq_refl eq_refl)));
    try reflexivity.
  discriminate.
Defined.

(** *** Totals and alignment *)

Lemma two64_pos : two64 <> 0%N.
Proof. discriminate. Qed.

Lemma fold_add64_mod (l : list uint64) (a : uint64) :
  (fold_left add64 l a mod two64 = (a + N_sum l) mod two64)%N.
Proof.
  revert a. induction l as [|x l IH]; intros a; simpl.
  - now rewrite N.add_0_r.
  - rewrite IH. unfold add64.
    rewrite N.Div0.add_mod_idemp_l. f_equal. lia.
Qed.

Lemma sum64_reduced (l : list uint64) : (sum64 l mod two64 = sum64 l)%N.
Proof.
  unfold sum64. destruct l as [|x l] using rev_ind; [reflexivity|].
  rewrite fold_left_app. simpl. unfold add64. now rewrite N.Div0.mod_mod.
Qed.

(** A loop of [+=] on a uint64 computes the sum modulo [2^64]. *)
Lemma sum64_mod (l : list uint64) : sum64 l = (N_sum l mod two64)%N.
Proof. rewrite <- sum64_reduced. unfold sum64. now rewrite fold_add64_mod. Qed.

Lemma absorb_amount (r : registration) (entries : list consolidatedNode) :
  (N_sum (map StakingAmount (absorb r entries)) mod two64
   = (N_sum (map StakingAmount entries) + reg_amount r) mod two64)%N.
Proof.
  induction entries as [|n entries IH]; simpl.
  - f_equal. lia.
  - destruct (RewardAddr n =? reg_reward r)%N; simpl.
    + unfold add64.
      rewrite N.Div0.add_mod_idemp_l. f_equal. lia.
    + rewrite <- N.Div0.add_mod_idemp_r, IH, N.Div0.add_mod_idemp_r. f_equal. lia.
Qed.

Lemma spec_consolidate_amount (regs : list registration) (entries : list consolidatedNode) :
  (N_sum (map StakingAmount (fold_left (fun es r => absorb r es) regs entries)) mod two64
   = (N_sum (map StakingAmount entries) + N_sum (map reg_amount regs)) mod two64)%N.
Proof.
  revert entries. induction regs as [|r regs IH]; intros entries; simpl.
  - now rewrite N.add_0_r.
  - rewrite IH. rewrite <- N.Div0.add_mod_idemp_l, absorb_amount, N.Div0.add_mod_idemp_l.
    f_equal. lia.
Qed.

Lemma absorb_aligned (r : registration) (entries : list consolidatedNode) :
  Forall aligned entries -> Forall aligned (absorb r entries).
Proof.
  induction 1 as [|n entries Hn Hes IH]; simpl.
  - repeat constructor.
  - destruct (RewardAddr n =? reg_reward r)%N; constructor; try assumption.
    unfold aligned in *. simpl. rewrite !length_app. simpl. lia.
Qed.

Lemma spec_consolidate_aligned (regs : list registration) (entries : list consolidatedNode) :
  Forall aligned entries ->
  Forall aligned (fold_left (fun es r => absorb r es) regs entries).
Proof.
  revert entries. induction regs as [|r regs IH]; intros entries H; simpl;
    [assumption|]. apply IH. now apply absorb_aligned.
Qed.

Lemma absorb_count (r : registration) (entries : list consolidatedNode) :
  node_count (absorb r entries) = S (node_count entries).
Proof.
  unfold node_count. induction entries as [|n entries IH]; simpl; [reflexivity|].
  destruct (RewardAddr n =? reg_reward r)%N; simpl.
  - rewrite length_app. simpl. lia.
  - rewrite IH. lia.
Qed.

Lemma spec_consolidate_count (regs : list registration) (entries : list consolidatedNode) :
  node_count (fold_left (fun es r => absorb r es) regs entries)
  = (node_count entries + length regs)%nat.
Proof.
  revert entries. induction regs as [|r regs IH]; intros entries; simpl; [lia|].
  rewrite IH, absorb_count. lia.
Qed.

(** C10. On sequences of one length the consolidation keeps the totals
    and the alignment: the StakingAmounts of the entries add up (on uint64)
    to the sum of the CouncilStakingAmounts, each entry has as many staking
    addresses as node addresses, and the entries hold as many node addresses
    as there are registrations. *)
Theorem GetConsolidatedStakingInfo_totals (s : StakingInfo) :
  length (CouncilStakingAddrs s) = length (CouncilNodeAddrs s) ->
  length (CouncilRewardAddrs s) = length (CouncilNodeAddrs s) ->
  length (CouncilStakingAmounts s) = length (CouncilNodeAddrs s) ->
  exists c, GetConsolidatedStakingInfo s = Some c
    /\ sum64 (map StakingAmount (nodes c)) = sum64 (CouncilStakingAmounts s)
    /\ Forall (fun n => length (NodeAddrs n) = length (StakingAddrs n)) (nodes c)
    /\ list_sum (map (fun n => length (NodeAddrs n)) (nodes c))
       = length (CouncilNodeAddrs s).
Proof.
  intros H1 H2 H3.
  destruct (GetConsolidatedStakingInfo_refines s H1 H2 H3) as (c & Hc & Hnodes).
  exists c. split; [assumption|]. rewrite Hnodes. unfold spec_consolidate.
  split; [|split].
  - rewrite !sum64_mod, spec_consolidate_amount. simpl. unfold registrations.
    now rewrite registrations_of_amounts.
  - apply (spec_consolidate_aligned (registrations s) []). constructor.
  - change (node_count (fold_left (fun es r => absorb r es) (registrations s) [])
            = length (CouncilNodeAddrs s)).
    rewrite spec_consolidate_count. unfold registrations.
    now rewrite registrations_of_length.
Qed.

Lemma GetConsolidatedStakingInfo_totals_witness :
  exists c, GetConsolidatedStakingInfo wrapping_info = Some c
    /\ sum64 (map StakingAmount (nodes c)) = 5%N
    /\ Forall (fun n => length (NodeAddrs n) = length (StakingAddrs n)) (nodes c)
    /\ list_sum (map (fun n => length (NodeAddrs n)) (nodes c)) = 3%nat.
Proof.
  exact (GetConsolidatedStakingInfo_totals wrapping_info eq_refl eq_refl eq_refl).
Defined.

(** ** The bits of a float64 *)

Lemma land_shifted_small (hi lo n : Z) :
  0 <= n -> 0 <= lo < 2 ^ n -> Z.land (hi * 2 ^ n) lo = 0.
Proof.
  intros Hn Hlo. apply Z.bits_inj'. intros i Hi.
  rewrite Z.land_spec, Z.bits_0.
  destruct (Z.lt_ge_cases i n) as [Hlt|Hge].
  - now rewrite Z.mul_pow2_bits_low.
  - rewrite <- (Z.mod_small lo (2 ^ n)) by assumption.
    rewrite Z.mod_pow2_bits_high by lia. apply andb_false_r.
Qed.

Lemma lor_shifted_small (hi lo n : Z) :
  0 <= n -> 0 <= lo < 2 ^ n -> Z.lor (hi * 2 ^ n) lo = hi * 2 ^ n + lo.
Proof.
  intros Hn Hlo. pose proof (Z.add_lor_land (hi * 2 ^ n) lo) as H.
  rewrite land_shifted_small in H by assumption. lia.
Qed.

Lemma digits2_pos_bounds (m : positive) :
  2 ^ (Z.pos (digits2_pos m) - 1) <= Z.pos m < 2 ^ Z.pos (digits2_pos m).
Proof.
  induction m as [m IH|m IH|]; cbn [digits2_pos].
  - rewrite Pos2Z.inj_succ.
    replace (Z.succ (Z.pos (digits2_pos m)) - 1) with (Z.succ (Z.pos (digits2_pos m) - 1)) by lia.
    rewrite !Z.pow_succ_r by lia. lia.
  - rewrite Pos2Z.inj_succ.
    replace (Z.succ (Z.pos (digits2_pos m)) - 1) with (Z.succ (Z.pos (digits2_pos m) - 1)) by lia.
    rewrite !Z.pow_succ_r by lia. lia.
  - simpl. lia.
Qed.

(** A finite float64 the format holds is subnormal, with exponent -1074
    and a mantissa under [2^52], or normal, with a mantissa of 53 bits. *)
Lemma valid_finite (s : bool) (m : positive) (e : Z) :
  valid (S754_finite s m e) = true ->
  (Z.pos m < 2 ^ 52 /\ e = -1074)
  \/ (2 ^ 52 <= Z.pos m < 2 ^ 53 /\ -1074 <= e <= 971).
Proof.
  unfold valid, valid_binary, bounded, canonical_mantissa, fexp, SpecFloat.emin, prec, emax.
  intros H. apply andb_true_iff in H as [Hc He].
  apply Z.eqb_eq in Hc. apply Z.leb_le in He.
  pose proof (digits2_pos_bounds m) as [Hlo Hhi].
  destruct (Z.lt_ge_cases (Z.pos m) (2 ^ 52)) as [Hsmall|Hbig].
  - left. split; [assumption|].
    assert (Z.pos (digits2_pos m) <= 52).
    { destruct (Z.le_gt_cases (Z.pos (digits2_pos m)) 52) as [|Hgt]; [assumption|].
      exfalso. assert (2 ^ 52 <= 2 ^ (Z.pos (digits2_pos m) - 1))
        by (apply Z.pow_le_mono_r; lia). lia. }
    lia.
  - right.
    assert (53 <= Z.pos (digits2_pos m)).
    { destruct (Z.le_gt_cases 53 (Z.pos (digits2_pos m))) as [|Hlt]; [assumption|].
      exfalso. assert (2 ^ Z.pos (digits2_pos m) <= 2 ^ 52)
        by (apply Z.pow_le_mono_r; lia). lia. }
    assert (Z.pos (digits2_pos m) = 53) as Hd by lia.
    rewrite Hd in Hhi. lia.
Qed.

Lemma sign_bit_cases (s : bool) : sign_bit s = if s then 2 ^ 63 else 0.
Proof. destruct s; reflexivity. Qed.

(** The fields of a pattern given as sign, biased exponent and fraction. *)
Lemma Float64frombits_fields (s : bool) (E f : Z) :
  0 <= E < 2 ^ 11 -> 0 <= f < 2 ^ 52 ->
  let b := (if s then 2 ^ 63 else 0) + E * 2 ^ 52 + f in
  Z.testbit b 63 = s
  /\ Z.land (Z.shiftr b 52) (Z.ones 11) = E
  /\ Z.land b (Z.ones 52) = f.
Proof.
  intros HE Hf b. split; [|split].
  - rewrite Z.testbit_eqb by lia. subst b.
    change (2 ^ 63) with 9223372036854775808 in *.
    change (2 ^ 52) with 4503599627370496 in *.
    change (2 ^ 11) with 2048 in *.
    destruct s; [apply Z.eqb_eq | apply Z.eqb_neq];
      Z.div_mod_to_equations; lia.
  - rewrite Z.shiftr_div_pow2, Z.land_ones by lia. subst b.
    change (2 ^ 63) with 9223372036854775808 in *.
    change (2 ^ 52) with 4503599627370496 in *.
    change (2 ^ 11) with 2048 in *.
    destruct s; Z.div_mod_to_equations; lia.
  - rewrite Z.land_ones by lia. subst b.
    change (2 ^ 63) with 9223372036854775808 in *.
    change (2 ^ 52) with 4503599627370496 in *.
    change (2 ^ 11) with 2048 in *.
    destruct s; Z.div_mod_to_equations; lia.
Qed.

(** [Float64bits] of a finite float64, as a sum of its three fields. *)
Lemma Float64bits_subnormal (s : bool) (m : positive) (e : Z) :
  Z.pos m < 2 ^ 52 ->
  Float64bits (S754_finite s m e) = (if s then 2 ^ 63 else 0) + 0 * 2 ^ 52 + Z.pos m.
Proof.
  intros Hm. unfold Float64bits.
  change (Z.shiftl 1 52) with (2 ^ 52).
  destruct (Z.ltb_spec (Z.pos m) (2 ^ 52)) as [_|]; [|lia].
  rewrite sign_bit_cases. destruct s; [|reflexivity].
  change (2 ^ 63) with (2 ^ 11 * 2 ^ 52).
  rewrite lor_shifted_small; lia.
Qed.

Lemma Float64bits_normal (s : bool) (m : positive) (e : Z) :
  2 ^ 52 <= Z.pos m < 2 ^ 53 -> -1074 <= e <= 971 ->
  Float64bits (S754_finite s m e)
  = (if s then 2 ^ 63 else 0) + (e + 1075) * 2 ^ 52 + (Z.pos m - 2 ^ 52).
Proof.
  intros Hm He. unfold Float64bits.
  change (Z.shiftl 1 52) with (2 ^ 52).
  destruct (Z.ltb_spec (Z.pos m) (2 ^ 52)) as [|_]; [lia|].
  rewrite Z.shiftl_mul_pow2, Z.land_ones by lia.
  assert (Hfrac : Z.pos m mod 2 ^ 52 = Z.pos m - 2 ^ 52).
  { change (2 ^ 52) with 4503599627370496 in *.
    change (2 ^ 53) with 9007199254740992 in *.
    Z.div_mod_to_equations; lia. }
  rewrite Hfrac.
  rewrite (lor_shifted_small (e + 1075)) by lia.
  rewrite sign_bit_cases. destruct s; [|reflexivity].
  change (2 ^ 63) with (1 * 2 ^ 63) at 1.
  rewrite lor_shifted_small; [lia | lia |].
  change (2 ^ 63) with 9223372036854775808.
  change (2 ^ 52) with 4503599627370496 in *.
  change (2 ^ 53) with 9007199254740992 in *.
  lia.
Qed.

(** Reinterpreting the bits of a float64 gives the float64 back. *)
Lemma Float64frombits_Float64bits (x : float64) :
  valid x = true -> Float64frombits (Float64bits x) = x.
Proof.
  destruct x as [s|s| |s m e]; intros Hv.
  - destruct s; reflexivity.
  - destruct s; reflexivity.
  - reflexivity.
  - destruct (valid_finite s m e Hv) as [[Hm He]|[Hm He]].
    + rewrite Float64bits_subnormal by assumption.
      destruct (Float64frombits_fields s 0 (Z.pos m)) as (Hs & HE & Hf); [lia..|].
      unfold Float64frombits. cbv zeta in *. rewrite Hs, HE, Hf. simpl. now subst e.
    + rewrite Float64bits_normal by assumption.
      destruct (Float64frombits_fields s (e + 1075) (Z.pos m - 2 ^ 52))
        as (Hs & HE & Hf); [lia..|].
      unfold Float64frombits. cbv zeta in *. rewrite Hs, HE, Hf.
      destruct (Z.eqb_spec (e + 1075) 0) as [|_]; [lia|].
      destruct (Z.eqb_spec (e + 1075) 2047) as [|_]; [lia|].
      change (Z.shiftl 1 52) with (1 * 2 ^ 52). rewrite Z.lor_comm.
      rewrite lor_shifted_small by lia.
      replace (1 * 2 ^ 52 + (Z.pos m - 2 ^ 52)) with (Z.pos m) by lia.
      f_equal. lia.
Qed.

(** The bits of a float64 fit a uint64. *)
Lemma Float64bits_range (x : float64) :
  valid x = true -> 0 <= Float64bits x < 2 ^ 64.
Proof.
  destruct x as [s|s| |s m e]; intros Hv.
  - destruct s; vm_compute; split; congruence.
  - destruct s; vm_compute; split; congruence.
  - vm_compute; split; congruence.
  - destruct (valid_finite s m e Hv) as [[Hm He]|[Hm He]].
    + rewrite Float64bits_subnormal by assumption. destruct s; lia.
    + rewrite Float64bits_normal by assumption.
      change (2 ^ 64) with 18446744073709551616.
      change (2 ^ 63) with 9223372036854775808.
      change (2 ^ 52) with 4503599627370496 in *.
      change (2 ^ 53) with 9007199254740992 in *.
      destruct s; lia.
Qed.

(** ** The RLP round trip *)

Lemma of_to_stakingInfoRLP (s : StakingInfo) :
  valid (Gini s) = true -> of_stakingInfoRLP (to_stakingInfoRLP s) = s.
Proof.
  intros Hv. destruct s as [b ns ss rs k p u g ams]. unfold of_stakingInfoRLP. simpl in *.
  now rewrite Float64frombits_Float64bits.
Qed.

Lemma to_stakingInfoRLP_ok (s : StakingInfo) :
  info_ok s = true -> wire_ok (to_stakingInfoRLP s) = true.
Proof.
  unfold info_ok, wire_ok. cbn [to_stakingInfoRLP Wire.BlockNum Wire.CouncilNodeAddrs
    Wire.CouncilStakingAddrs Wire.CouncilRewardAddrs Wire.KIRAddr Wire.PoCAddr
    Wire.Gini Wire.CouncilStakingAmounts].
  intros H.
  apply andb_true_iff in H as [H H8]. apply andb_true_iff in H as [H H7].
  apply andb_true_iff in H as [H H6]. apply andb_true_iff in H as [H H5].
  apply andb_true_iff in H as [H H4]. apply andb_true_iff in H as [H H3].
  apply andb_true_iff in H as [H1 H2].
  pose proof (Float64bits_range (Gini s) H7) as [Hlo Hhi].
  apply Z.leb_le in Hlo. apply Z.ltb_lt in Hhi.
  rewrite H1, H2, H3, H4, H5, H6, H8, Hlo, Hhi. reflexivity.
Qed.

(** C5. With an RLP encoder and decoder that are inverse on the structs
    they can carry (as the codec [RLP] is), decoding the encoding of a StakingInfo gives every field
    back, whatever the receiver held before. The Gini coefficient travels as
    the uint64 of its bits, and reinterpreting those bits gives the float64
    back, for every float64: the sentinel -1 (bits 0xBFF0000000000000), any
    other negative value, zeros, infinities and NaN. *)
Theorem EncodeRLP_DecodeRLP_roundtrip {bytes : Type}
    (rlp_Encode : Wire.stakingInfoRLP -> bytes)
    (rlp_Decode : bytes -> Wire.stakingInfoRLP + error)
    (s receiver : StakingInfo) :
  (forall r, wire_ok r = true -> rlp_Decode (rlp_Encode r) = inl r) ->
  info_ok s = true ->
  DecodeRLP rlp_Decode receiver (EncodeRLP rlp_Encode s) = (s, None)
  /\ Wire.Gini (to_stakingInfoRLP s) = Float64bits (Gini s)
  /\ 0 <= Float64bits (Gini s) < 2 ^ 64
  /\ Float64frombits (Float64bits (Gini s)) = Gini s
  /\ (forall x : float64, valid x = true -> Float64frombits (Float64bits x) = x)
  /\ Float64bits DefaultGiniCoefficient = 0xBFF0000000000000.
Proof.
  intros Hcodec Hok.
  assert (Hv : valid (Gini s) = true).
  { unfold info_ok in Hok. apply andb_true_iff in Hok as [Hok _].
    apply andb_true_iff in Hok as [_ Hv]. exact Hv. }
  split; [|split; [|split; [|split; [|split]]]].
  - unfold DecodeRLP, EncodeRLP.
    rewrite Hcodec by now apply to_stakingInfoRLP_ok.
    now rewrite of_to_stakingInfoRLP.
  - reflexivity.
  - now apply Float64bits_range.
  - now apply Float64frombits_Float64bits.
  - apply Float64frombits_Float64bits.
  - reflexivity.
Qed.

(** ** The RLP codec *)

Module RLPFacts.

Import RLP.

Lemma be_value_snoc (l : list N) (b : N) :
  be_value (l ++ [b]) = (be_value l * 256 + b)%N.
Proof. unfold be_value. now rewrite fold_left_app. Qed.

Lemma le_bytes_value (fuel : nat) (n : N) :
  (n < 2 ^ N.of_nat fuel)%N -> be_value (rev (le_bytes fuel n)) = n.
Proof.
  revert n. induction fuel as [|fuel IH]; intros n Hn.
  - assert (n = 0%N) as -> by (change (2 ^ N.of_nat 0)%N with 1%N in Hn; lia).
    reflexivity.
  - cbn [le_bytes]. destruct (N.eqb_spec n 0) as [->|Hne]; [reflexivity|].
    cbn [rev]. rewrite be_value_snoc, IH.
    + pose proof (N.div_mod n 256). lia.
    + apply N.Div0.div_lt_upper_bound.
      rewrite Nat2N.inj_succ, N.pow_succ_r' in Hn. lia.
Qed.

Lemma be_bytes_value (n : N) : be_value (be_bytes n) = n.
Proof.
  unfold be_bytes. apply le_bytes_value. rewrite N2Nat.id. apply N.size_gt.
Qed.

Lemma le_bytes_length (fuel k : nat) (n : N) :
  (n < 256 ^ N.of_nat k)%N -> (length (le_bytes fuel n) <= k)%nat.
Proof.
  revert n k. induction fuel as [|fuel IH]; intros n k Hn; simpl; [lia|].
  destruct (N.eqb_spec n 0) as [->|Hne]; simpl; [lia|].
  destruct k as [|k]; [change (256 ^ N.of_nat 0)%N with 1%N in Hn; lia|].
  apply le_n_S, IH. apply N.Div0.div_lt_upper_bound.
  now rewrite Nat2N.inj_succ, N.pow_succ_r' in Hn.
Qed.

Lemma be_bytes_length (k : nat) (n : N) :
  (n < 256 ^ N.of_nat k)%N -> (length (be_bytes n) <= k)%nat.
Proof. intros Hn. unfold be_bytes. rewrite length_rev. now apply le_bytes_length. Qed.

Lemma be_bytes_nonempty (n : N) : (0 < n)%N -> (1 <= length (be_bytes n))%nat.
Proof.
  intros Hn. unfold be_bytes. rewrite length_rev.
  destruct (N.to_nat (N.size n)) as [|fuel] eqn:E.
  - destruct n; [lia|]. simpl in E. lia.
  - simpl. destruct (N.eqb_spec n 0); [lia|]. simpl. lia.
Qed.

Lemma le_fixed_length (k : nat) (n : N) : length (le_fixed k n) = k.
Proof. revert n. induction k as [|k IH]; intros n; simpl; [reflexivity | now rewrite IH]. Qed.

Lemma le_fixed_value (k : nat) (n : N) :
  (n < 256 ^ N.of_nat k)%N -> be_value (rev (le_fixed k n)) = n.
Proof.
  revert n. induction k as [|k IH]; intros n Hn.
  - assert (n = 0%N) as -> by (change (256 ^ N.of_nat 0)%N with 1%N in Hn; lia).
    reflexivity.
  - cbn [le_fixed rev]. rewrite be_value_snoc, IH.
    + pose proof (N.div_mod n 256). lia.
    + apply N.Div0.div_lt_upper_bound.
      now rewrite Nat2N.inj_succ, N.pow_succ_r' in Hn.
Qed.

Lemma split_at_app (p rest : list N) :
  split_at (N.of_nat (length p)) (p ++ rest) = Some (p, rest).
Proof.
  unfold split_at. rewrite length_app, Nat2N.id.
  destruct (N.leb_spec (N.of_nat (length p)) (N.of_nat (length p + length rest)));
    [|lia].
  now rewrite take_app_length, drop_app_length.
Qed.

(** A header is read back, with its payload, for a payload whose length
    fits 8 bytes. *)
Lemma decode_item_header (base : N) (p rest : list N) :
  base = 128%N \/ base = 192%N ->
  (N.of_nat (length p) < 256 ^ 8)%N ->
  decode_item (header base p ++ p ++ rest) = Some (kind_of base, p, rest).
Proof.
  intros Hbase Hlen. unfold header.
  destruct (N.leb_spec (N.of_nat (length p)) 55) as [Hshort|Hlong].
  - cbn [app decode_item].
    destruct Hbase as [-> | ->]; unfold kind_of; simpl N.eqb; cbv iota.
    + destruct (N.ltb_spec (128 + N.of_nat (length p)) 128); [lia|].
      destruct (N.leb_spec (128 + N.of_nat (length p)) 183); [|lia].
      replace (128 + N.of_nat (length p) - 128)%N with (N.of_nat (length p)) by lia.
      now rewrite split_at_app.
    + destruct (N.ltb_spec (192 + N.of_nat (length p)) 128); [lia|].
      destruct (N.leb_spec (192 + N.of_nat (length p)) 183); [lia|].
      destruct (N.leb_spec (192 + N.of_nat (length p)) 191); [lia|].
      destruct (N.leb_spec (192 + N.of_nat (length p)) 247); [|lia].
      replace (192 + N.of_nat (length p) - 192)%N with (N.of_nat (length p)) by lia.
      now rewrite split_at_app.
  - set (lb := be_bytes (N.of_nat (length p))).
    assert (Hlb1 : (1 <= length lb)%nat) by (apply be_bytes_nonempty; lia).
    assert (Hlb8 : (length lb <= 8)%nat) by (apply (be_bytes_length 8); exact Hlen).
    assert (Hval : be_value lb = N.of_nat (length p)) by apply be_bytes_value.
    cbn [app decode_item].
    destruct Hbase as [-> | ->]; unfold kind_of; simpl N.eqb; cbv iota.
    + destruct (N.ltb_spec (128 + 55 + N.of_nat (length lb)) 128); [lia|].
      destruct (N.leb_spec (128 + 55 + N.of_nat (length lb)) 183); [lia|].
      destruct (N.leb_spec (128 + 55 + N.of_nat (length lb)) 191); [|lia].
      replace (128 + 55 + N.of_nat (length lb) - 183)%N with (N.of_nat (length lb)) by lia.
      rewrite split_at_app. simpl. rewrite Hval, split_at_app. reflexivity.
    + destruct (N.ltb_spec (192 + 55 + N.of_nat (length lb)) 128); [lia|].
      destruct (N.leb_spec (192 + 55 + N.of_nat (length lb)) 183); [lia|].
      destruct (N.leb_spec (192 + 55 + N.of_nat (length lb)) 191); [lia|].
      destruct (N.leb_spec (192 + 55 + N.of_nat (length lb)) 247); [lia|].
      destruct (N.leb_spec (192 + 55 + N.of_nat (length lb)) 255); [|lia].
      replace (192 + 55 + N.of_nat (length lb) - 247)%N with (N.of_nat (length lb)) by lia.
      rewrite split_at_app. simpl. rewrite Hval, split_at_app. reflexivity.
Qed.

Lemma header_length (base : N) (p : list N) :
  (N.of_nat (length p) < 256 ^ 8)%N -> (1 <= length (header base p) <= 9)%nat.
Proof.
  intros Hlen. unfold header.
  destruct (N.leb_spec (N.of_nat (length p)) 55); simpl; [lia|].
  pose proof (be_bytes_length 8 _ Hlen). lia.
Qed.

Lemma decode_string_encode (b rest : list N) :
  (N.of_nat (length b) < 256 ^ 8)%N ->
  decode_string (encode_string b ++ rest) = Some (b, rest).
Proof.
  intros Hlen. unfold decode_string.
  assert (Hgen : decode_item ((header 128 b ++ b) ++ rest) = Some (String, b, rest))
    by (rewrite <- app_assoc; now apply decode_item_header; [left|]).
  unfold encode_string. destruct b as [|x [|y b]]; try (now rewrite Hgen).
  destruct (N.ltb_spec x 128) as [Hx|Hx]; [|now rewrite Hgen].
  simpl. destruct (N.ltb_spec x 128); [reflexivity | lia].
Qed.

Lemma encode_string_length (b : list N) :
  (length b <= 55)%nat -> (1 <= length (encode_string b) <= 1 + length b)%nat.
Proof.
  intros Hlen.
  assert (Hh : length (header 128 b) = 1%nat).
  { unfold header. destruct (N.leb_spec (N.of_nat (length b)) 55); [reflexivity | lia]. }
  unfold encode_string. destruct b as [|x [|y b]]; rewrite ?length_app, ?Hh; try lia.
  destruct (x <? 128)%N; rewrite ?length_app, ?Hh; simpl; lia.
Qed.

Lemma codec_uint64 : codec (fun n => (n < 2 ^ 64)%N) 9 encode_uint decode_uint64.
Proof.
  intros n Hn.
  assert (Hl : (length (be_bytes n) <= 8)%nat) by (apply (be_bytes_length 8); exact Hn).
  assert (Hl' : (N.of_nat (length (be_bytes n)) < 256 ^ 8)%N)
    by (change (256 ^ 8)%N with 18446744073709551616%N; lia).
  split.
  - pose proof (encode_string_length (be_bytes n)). unfold encode_uint. lia.
  - intros rest. unfold decode_uint64, encode_uint.
    rewrite decode_string_encode by assumption. cbn -[be_bytes be_value].
    destruct (Nat.leb_spec (length (be_bytes n)) 8); [|lia].
    now rewrite be_bytes_value.
Qed.

Lemma codec_bool : codec (fun _ => True) 9 encode_bool decode_bool.
Proof.
  intros b _. unfold encode_bool, decode_bool.
  destruct (codec_uint64 (if b then 1 else 0)%N) as [Hlen Hdec]; [now destruct b|].
  split; [assumption|]. intros rest. rewrite Hdec. now destruct b.
Qed.

Lemma codec_address : codec (fun a => (a < 256 ^ 20)%N) 21 encode_address decode_address.
Proof.
  intros a Ha.
  assert (Hl : length (be_fixed 20 a) = 20%nat)
    by (unfold be_fixed; now rewrite length_rev, le_fixed_length).
  assert (Hl' : (N.of_nat (length (be_fixed 20 a)) < 256 ^ 8)%N) by now rewrite Hl.
  split.
  - pose proof (encode_string_length (be_fixed 20 a)). unfold encode_address. lia.
  - intros rest. unfold decode_address, encode_address.
    rewrite decode_string_encode by assumption. cbn -[be_fixed be_value].
    rewrite Hl. cbn -[be_fixed be_value].
    unfold be_fixed. now rewrite (le_fixed_value 20).
Qed.

Section Lists.

Context {A : Type} (ok : A -> Prop) (size : N) (enc : A -> list N)
  (dec : list N -> option (A * list N)).
Hypothesis Hcodec : codec ok size enc dec.

Lemma concat_length (xs : list A) :
  Forall ok xs ->
  (N.of_nat (length xs) <= N.of_nat (length (concat (map enc xs)))
   <= size * N.of_nat (length xs))%N.
Proof.
  induction 1 as [|x xs Hx Hxs IH]; simpl; [lia|].
  rewrite length_app. destruct (Hcodec x Hx) as [Hlen _]. lia.
Qed.

Lemma decode_all_concat (xs : list A) (fuel : nat) :
  Forall ok xs -> (length xs <= fuel)%nat ->
  decode_all dec fuel (concat (map enc xs)) = Some xs.
Proof.
  intros Hxs. revert fuel. induction Hxs as [|x xs Hx Hxs IH]; intros fuel Hfuel.
  - now destruct fuel.
  - destruct (Hcodec x Hx) as [Hlen Hdec].
    cbn [map concat]. destruct fuel as [|fuel]; [simpl in Hfuel; lia|].
    destruct (enc x ++ concat (map enc xs)) as [|b l] eqn:E.
    { apply (f_equal length) in E. rewrite length_app in E. simpl in E. lia. }
    cbn [decode_all]. rewrite <- E, Hdec. simpl.
    rewrite IH by (simpl in Hfuel; lia). reflexivity.
Qed.

(** A slice of at most [bound] elements. *)
Lemma codec_list (bound : N) :
  (size * bound < 256 ^ 8)%N ->
  codec (fun xs => Forall ok xs /\ (N.of_nat (length xs) <= bound)%N) (9 + size * bound)
    (fun xs => encode_list (concat (map enc xs))) (decode_list dec).
Proof.
  intros Hbound xs [Hxs Hlen].
  pose proof (concat_length xs Hxs) as Hpl.
  assert (Hp : (N.of_nat (length (concat (map enc xs))) < 256 ^ 8)%N) by nia.
  split.
  - unfold encode_list. rewrite length_app.
    pose proof (header_length 192 _ Hp). nia.
  - intros rest. unfold decode_list, encode_list. rewrite <- app_assoc.
    rewrite decode_item_header by (auto). simpl.
    rewrite decode_all_concat by (auto; lia). reflexivity.
Qed.

End Lists.

#[local] Arguments encode_uint : simpl never.
#[local] Arguments encode_bool : simpl never.
#[local] Arguments encode_address : simpl never.
#[local] Arguments encode_list : simpl never.
#[local] Arguments decode_uint64 : simpl never.
#[local] Arguments decode_bool : simpl never.
#[local] Arguments decode_address : simpl never.
#[local] Arguments decode_list : simpl never.

Lemma is_uint64_lt (n : N) : is_uint64 n = true -> (n < 2 ^ 64)%N.
Proof. unfold is_uint64. intros H. apply N.ltb_lt in H. exact H. Qed.

Lemma is_address_lt (n : N) : is_address n = true -> (n < 256 ^ 20)%N.
Proof. unfold is_address. intros H. apply N.ltb_lt in H. exact H. Qed.

Lemma addresses_ok (l : list N) :
  is_slice l && forallb is_address l = true ->
  Forall (fun a => (a < 256 ^ 20)%N) l /\ (N.of_nat (length l) <= 4294967295)%N.
Proof.
  intros H. apply andb_true_iff in H as [Hs Hf]. split.
  - apply Forall_forall. intros a Ha. rewrite forallb_forall in Hf.
    apply list_elem_of_In, Hf, N.ltb_lt in Ha. exact Ha.
  - apply N.ltb_lt in Hs. lia.
Qed.

Lemma amounts_ok (l : list N) :
  is_slice l && forallb is_uint64 l = true ->
  Forall (fun a => (a < 2 ^ 64)%N) l /\ (N.of_nat (length l) <= 4294967295)%N.
Proof.
  intros H. apply andb_true_iff in H as [Hs Hf]. split.
  - apply Forall_forall. intros a Ha. rewrite forallb_forall in Hf.
    apply list_elem_of_In, Hf, N.ltb_lt in Ha. exact Ha.
  - apply N.ltb_lt in Hs. lia.
Qed.

(** The codec reads back every struct it can carry. *)
Lemma decode_encode_stakingInfoRLP (r : Wire.stakingInfoRLP) :
  wire_ok r = true -> decode_stakingInfoRLP (encode_stakingInfoRLP r) = inl r.
Proof.
  unfold wire_ok. intros H.
  apply andb_true_iff in H as [H H9]. apply andb_true_iff in H as [H H8].
  apply andb_true_iff in H as [H H6]. apply andb_true_iff in H as [H H5].
  apply andb_true_iff in H as [H H4]. apply andb_true_iff in H as [H H3].
  apply andb_true_iff in H as [H1 H2].
  apply andb_true_iff in H8 as [Hg0 Hg1].
  apply Z.leb_le in Hg0. apply Z.ltb_lt in Hg1.
  assert (Hgini : (Z.to_N (Wire.Gini r) < 2 ^ 64)%N).
  { change (2 ^ 64)%N with (Z.to_N 18446744073709551616).
    change (2 ^ 64) with 18446744073709551616 in Hg1. lia. }
  pose proof (codec_list _ _ _ _ codec_address 4294967295 eq_refl) as Haddrs.
  pose proof (codec_list _ _ _ _ codec_uint64 4294967295 eq_refl) as Hamounts.
  destruct (codec_uint64 (Wire.BlockNum r) (is_uint64_lt _ H1)) as [L1 D1].
  destruct (Haddrs (Wire.CouncilNodeAddrs r) (addresses_ok _ H2)) as [L2 D2].
  destruct (Haddrs (Wire.CouncilStakingAddrs r) (addresses_ok _ H3)) as [L3 D3].
  destruct (Haddrs (Wire.CouncilRewardAddrs r) (addresses_ok _ H4)) as [L4 D4].
  destruct (codec_address (Wire.KIRAddr r) (is_address_lt _ H5)) as [L5 D5].
  destruct (codec_address (Wire.PoCAddr r) (is_address_lt _ H6)) as [L6 D6].
  destruct (codec_bool (Wire.UseGini r) I) as [L7 D7].
  destruct (codec_uint64 (Z.to_N (Wire.Gini r)) Hgini) as [L8 D8].
  destruct (Hamounts (Wire.CouncilStakingAmounts r) (amounts_ok _ H9)) as [L9 D9].
  clear Haddrs Hamounts H1 H2 H3 H4 H5 H6 H9 Hgini Hg1.
  unfold decode_stakingInfoRLP, encode_stakingInfoRLP.
  set (e1 := encode_uint (Wire.BlockNum r)) in *.
  set (e2 := encode_list (concat (map encode_address (Wire.CouncilNodeAddrs r)))) in *.
  set (e3 := encode_list (concat (map encode_address (Wire.CouncilStakingAddrs r)))) in *.
  set (e4 := encode_list (concat (map encode_address (Wire.CouncilRewardAddrs r)))) in *.
  set (e5 := encode_address (Wire.KIRAddr r)) in *.
  set (e6 := encode_address (Wire.PoCAddr r)) in *.
  set (e7 := encode_bool (Wire.UseGini r)) in *.
  set (e8 := encode_uint (Z.to_N (Wire.Gini r))) in *.
  set (e9 := encode_list (concat (map encode_uint (Wire.CouncilStakingAmounts r)))) in *.
  assert (Hp : (N.of_nat (length (e1 ++ e2 ++ e3 ++ e4 ++ e5 ++ e6 ++ e7 ++ e8 ++ e9))
                < 256 ^ 8)%N).
  { rewrite !length_app. change (256 ^ 8)%N with 18446744073709551616%N.
    change (9 + 21 * 4294967295)%N with 90194313204%N in *.
    change (9 + 9 * 4294967295)%N with 38654705664%N in *. lia. }
  assert (Hitem : decode_item (encode_list (e1 ++ e2 ++ e3 ++ e4 ++ e5 ++ e6 ++ e7 ++ e8 ++ e9))
                  = Some (List, e1 ++ e2 ++ e3 ++ e4 ++ e5 ++ e6 ++ e7 ++ e8 ++ e9, [])).
  { unfold encode_list.
    rewrite <- (app_nil_r (e1 ++ e2 ++ e3 ++ e4 ++ e5 ++ e6 ++ e7 ++ e8 ++ e9)) at 2.
    apply (decode_item_header 192); [now right | exact Hp]. }
  rewrite Hitem. unfold decode_fields.
  rewrite <- (app_nil_r e9).
  rewrite D1. cbn [mbind option_bind]. rewrite D2. cbn [mbind option_bind].
  rewrite D3. cbn [mbind option_bind]. rewrite D4. cbn [mbind option_bind].
  rewrite D5. cbn [mbind option_bind]. rewrite D6. cbn [mbind option_bind].
  rewrite D7. cbn [mbind option_bind]. rewrite D8. cbn [mbind option_bind].
  rewrite D9. cbn [mbind option_bind].
  rewrite Z2N.id by assumption. now destruct r.
Qed.

End RLPFacts.

(** ** The staking manager *)

Section ManagerProperties.

Context {Ext : Type} (env : Collaborators Ext).

#[local] Arguments newStakingInfo : simpl never.
#[local] Arguments getStakingInfoFromAddressBook : simpl never.
#[local] Arguments getStakingInfoFromDB : simpl never.
#[local] Arguments AddStakingInfoToDB : simpl never.
#[local] Arguments fillMissingGiniCoefficient : simpl never.
#[local] Arguments stakingInfoCache_add : simpl never.
#[local] Arguments updateStakingInfo : simpl never.
#[local] Arguments CheckStakingInfoStored : simpl never.
#[local] Arguments CalcGiniCoefficientMinStake : simpl never.
#[local] Arguments GetConsolidatedStakingInfo : simpl never.

Ltac run := unfold mbind, M_bind, mret, M_ret, managerIsSet, record, call, load,
  store, alloc, panic; simpl.

Ltac done_run H :=
  injection H as <- <-; simpl; rewrite <- ?app_assoc; simpl.

(** C6. A staking block number that is not on the staking update interval
    gets nil at once: the world is the one before the call, so neither the
    cache nor the database nor the chain was accessed. The same holds for
    [GetStakingInfo] on a block mapped to such a number. *)
Theorem GetStakingInfoOnStakingBlock_shortcut (stakingBlockNumber : uint64)
    (w : World Ext) :
  IsStakingUpdateInterval env stakingBlockNumber = false ->
  GetStakingInfoOnStakingBlock env stakingBlockNumber w = Some (None, w)
  /\ (forall blockNum, CalcStakingBlockNumber env blockNum = stakingBlockNumber ->
      GetStakingInfo env blockNum w = Some (None, w)).
Proof.
  intros H.
  assert (Hget : GetStakingInfoOnStakingBlock env stakingBlockNumber w = Some (None, w)).
  { unfold GetStakingInfoOnStakingBlock. run.
    destruct (stakingManager w); simpl; [|reflexivity].
    rewrite H. reflexivity. }
  split; [exact Hget|].
  intros blockNum <-. exact Hget.
Qed.

(** *** The address book reader *)

Lemma newStakingInfo_inv (blockNum : uint64) (ns ss rs : list Address) (k p : Address)
    (w w' : World Ext) (r : option nat * option error) :
  newStakingInfo env blockNum ns ss rs k p w = Some (r, w') ->
  exists tA, trace w' = trace w ++ tA /\ forallb reader_access tA = true
    /\ stakingManager w' = stakingManager w
    /\ ((exists e, r = (None, Some e) /\ heap w' = heap w)
        \/ (exists s, r = (Some (length (heap w)), None)
                      /\ heap w' = heap w ++ [s]
                      /\ Gini s = DefaultGiniCoefficient
                      /\ BlockNum s = blockNum)).
Proof.
  unfold newStakingInfo. run. intros H.
  destruct (GetBlockByNumber env blockNum (ext w)) as [[root|] e1]; simpl in H.
  2:{ done_run H. eexists. split; [reflexivity|]. do 2 (split; [reflexivity|]). left. eauto. }
  destruct (StateAt env root e1) as [[statedb|err] e2]; simpl in H.
  2:{ done_run H. eexists. split; [reflexivity|]. do 2 (split; [reflexivity|]). left. eauto. }
  destruct (staking_amounts (KLAY env) statedb ss) as [amounts|]; [|discriminate].
  simpl in H.
  destruct (GetUseGiniCoeff env blockNum e2) as [[[useGini|]|err] e3]; simpl in H.
  - done_run H. eexists. split; [reflexivity|]. do 2 (split; [reflexivity|]). right.
    eexists. repeat split.
  - discriminate.
  - done_run H. eexists. split; [reflexivity|]. do 2 (split; [reflexivity|]). left. eauto.
Qed.

Lemma getStakingInfoFromAddressBook_inv (blockNum : uint64) (w w' : World Ext)
    (r : option nat * option error) :
  getStakingInfoFromAddressBook env blockNum w = Some (r, w') ->
  exists tA, trace w' = trace w ++ tA /\ forallb reader_access tA = true
    /\ stakingManager w' = stakingManager w
    /\ ((exists e, r = (None, Some e) /\ heap w' = heap w)
        \/ (exists s, r = (Some (length (heap w)), None)
                      /\ heap w' = heap w ++ [s]
                      /\ Gini s = DefaultGiniCoefficient
                      /\ BlockNum s = blockNum)).
Proof.
  unfold getStakingInfoFromAddressBook. run. intros H.
  destruct (callAddressBook env blockNum (ext w)) as [[ab|err] e1]; simpl in H.
  - apply newStakingInfo_inv in H as (tA & Ht & HtA & Hm & Hr).
    simpl in *. exists (AddressBookRead blockNum :: tA).
    rewrite Ht, <- app_assoc. repeat split; assumption.
  - done_run H. eexists. split; [reflexivity|]. do 2 (split; [reflexivity|]). left. eauto.
Qed.

(** The reader begins by reading the address book at the block asked. *)
Lemma reader_starts (blockNum : uint64) (w w' : World Ext)
    (r : option nat * option error) (tA : list Access) :
  getStakingInfoFromAddressBook env blockNum w = Some (r, w') ->
  trace w' = trace w ++ tA ->
  hd_error tA = Some (AddressBookRead blockNum).
Proof.
  unfold getStakingInfoFromAddressBook. run. intros H Ht.
  destruct (callAddressBook env blockNum (ext w)) as [[ab|err] e1]; simpl in H.
  - apply newStakingInfo_inv in H as (tA' & Ht' & _). simpl in Ht'.
    rewrite Ht', <- app_assoc in Ht. apply app_inv_head in Ht. now subst tA.
  - done_run H. simpl in Ht. apply app_inv_head in Ht. now subst tA.
Qed.

(** *** The Gini fixup *)

Lemma fill_noop (p : nat) (number : uint64) (w : World Ext) (s : StakingInfo) :
  heap w !! p = Some s ->
  UseGini s = false \/ geb (Gini s) zero = true ->
  fillMissingGiniCoefficient env p number w = Some (None, w).
Proof.
  intros Hp H. unfold fillMissingGiniCoefficient. run. rewrite Hp. simpl.
  destruct (UseGini s); simpl; [|reflexivity].
  destruct H as [H|H]; [discriminate|]. now rewrite H.
Qed.

(** What a fixup that is not a no-op does: one governance query, then
    either its error or the assignment of the recomputed coefficient. *)
Lemma fill_recomputes (p : nat) (number : uint64) (w : World Ext) (s : StakingInfo) :
  heap w !! p = Some s -> stakingManager w = true ->
  UseGini s = true -> geb (Gini s) zero = false ->
  fillMissingGiniCoefficient env p number w
  = let '(res, e) := GetMinimumStakingAtNumber env number (ext w) in
    let w1 := set_ext e (log_access (GovMinimumStaking number) w) in
    match res with
    | inr err => Some (Some err, w1)
    | inl minStaking =>
        match GetConsolidatedStakingInfo s with
        | None => None
        | Some c =>
            Some (None,
                  set_heap (<[p := set_Gini s (CalcGiniCoefficientMinStake c minStaking)]> (heap w)) w1)
        end
    end.
Proof.
  intros Hp Hset Hu Hg. unfold fillMissingGiniCoefficient. run.
  rewrite Hp. simpl. rewrite Hu, Hg. simpl. rewrite Hset. simpl.
  destruct (GetMinimumStakingAtNumber env number (ext w)) as [[minStaking|err] e]; simpl;
    [|reflexivity].
  rewrite Hp. simpl.
  destruct (GetConsolidatedStakingInfo s); simpl; [|reflexivity].
  rewrite Hp. reflexivity.
Qed.

(** Without a manager a fixup that has to recompute is a nil dereference. *)
Lemma fill_unset (p : nat) (number : uint64) (w : World Ext) (s : StakingInfo) :
  heap w !! p = Some s -> stakingManager w = false ->
  UseGini s = true -> geb (Gini s) zero = false ->
  fillMissingGiniCoefficient env p number w = None.
Proof.
  intros Hp Hset Hu Hg. unfold fillMissingGiniCoefficient. run.
  rewrite Hp. simpl. rewrite Hu, Hg. simpl. now rewrite Hset.
Qed.

Lemma fill_inv (p : nat) (number : uint64) (w w' : World Ext) (r : option error)
    (s : StakingInfo) :
  heap w !! p = Some s ->
  fillMissingGiniCoefficient env p number w = Some (r, w') ->
  exists tC, trace w' = trace w ++ tC /\ forallb fixup_access tC = true
    /\ (tC = [] \/ tC = [GovMinimumStaking number])
    /\ stakingManager w' = stakingManager w
    /\ (ext w' = ext w \/ ext w' = snd (GetMinimumStakingAtNumber env number (ext w)))
    /\ exists g, heap w' = <[p := set_Gini s g]> (heap w).
Proof.
  intros Hp H.
  assert (Hid : heap w = <[p := set_Gini s (Gini s)]> (heap w)).
  { symmetry. apply list_insert_id. rewrite Hp. now destruct s. }
  assert (Hnoop : fillMissingGiniCoefficient env p number w = Some (None, w) ->
            exists tC, trace w' = trace w ++ tC /\ forallb fixup_access tC = true
              /\ (tC = [] \/ tC = [GovMinimumStaking number])
              /\ stakingManager w' = stakingManager w
              /\ (ext w' = ext w
                  \/ ext w' = snd (GetMinimumStakingAtNumber env number (ext w)))
              /\ exists g, heap w' = <[p := set_Gini s g]> (heap w)).
  { intros E. rewrite E in H. injection H as <- <-. exists []. rewrite app_nil_r.
    eauto 10. }
  destruct (UseGini s) eqn:Hu; [destruct (geb (Gini s) zero) eqn:Hg|].
  - apply Hnoop. apply (fill_noop p number w s Hp). auto.
  - destruct (stakingManager w) eqn:Hset.
    2:{ rewrite (fill_unset p number w s Hp Hset Hu Hg) in H. discriminate. }
    rewrite (fill_recomputes p number w s Hp Hset Hu Hg) in H.
    destruct (GetMinimumStakingAtNumber env number (ext w)) as [[minStaking|err] e].
    + destruct (GetConsolidatedStakingInfo s); [|discriminate].
      injection H as <- <-. simpl. eexists. rewrite Hset. repeat split; eauto.
    + injection H as <- <-. simpl. eexists. rewrite Hset. repeat split; eauto.
  - apply Hnoop. apply (fill_noop p number w s Hp). auto.
Qed.

(** *** What the database holds after a call *)

Section View.

Context (view : Ext -> uint64 -> option StakingInfo * option error).
Context (Hview : database_view env view).

Lemma newStakingInfo_view (blockNum : uint64) (ns ss rs : list Address) (k p : Address)
    (w w' : World Ext) (r : option nat * option error) (n : uint64) :
  newStakingInfo env blockNum ns ss rs k p w = Some (r, w') ->
  view (ext w') n = view (ext w) n.
Proof.
  unfold newStakingInfo. run. intros H.
  pose proof (view_block env view Hview n blockNum (ext w)) as Hb.
  destruct (GetBlockByNumber env blockNum (ext w)) as [[root|] e1]; simpl in H, Hb.
  2:{ done_run H. exact Hb. }
  pose proof (view_state env view Hview n root e1) as Hs.
  destruct (StateAt env root e1) as [[statedb|err] e2]; simpl in H, Hs.
  2:{ done_run H. congruence. }
  destruct (staking_amounts (KLAY env) statedb ss) as [amounts|]; [|discriminate].
  simpl in H.
  pose proof (view_use_gini env view Hview n blockNum e2) as Hg.
  destruct (GetUseGiniCoeff env blockNum e2) as [[[useGini|]|err] e3]; simpl in H, Hg;
    [|discriminate|]; done_run H; congruence.
Qed.

Lemma reader_view (blockNum : uint64) (w w' : World Ext)
    (r : option nat * option error) (n : uint64) :
  getStakingInfoFromAddressBook env blockNum w = Some (r, w') ->
  view (ext w') n = view (ext w) n.
Proof.
  unfold getStakingInfoFromAddressBook. run. intros H.
  pose proof (view_address_book env view Hview n blockNum (ext w)) as Ha.
  destruct (callAddressBook env blockNum (ext w)) as [[ab|err] e1]; simpl in H, Ha.
  - apply (newStakingInfo_view _ _ _ _ _ _ _ _ _ n) in H. simpl in H. congruence.
  - done_run H. exact Ha.
Qed.

End View.

(** *** Recomputing a snapshot *)

Lemma insert_last (l : list StakingInfo) (x y : StakingInfo) :
  <[length l := y]> (l ++ [x]) = l ++ [y].
Proof. induction l as [|a l IH]; simpl; [reflexivity | now rewrite IH]. Qed.

Lemma set_Gini_same (s : StakingInfo) : set_Gini s (Gini s) = s.
Proof. now destruct s. Qed.

Lemma AddStakingInfoToDB_eq (p : nat) (w : World Ext) (s : StakingInfo) :
  heap w !! p = Some s ->
  AddStakingInfoToDB env p w
  = let '(err, e) := db_write env s (ext w) in
    Some (err, log_access (DBWrite s err) (set_ext e w)).
Proof.
  intros Hp. unfold AddStakingInfoToDB. run. rewrite Hp. simpl.
  now destruct (db_write env s (ext w)).
Qed.

Lemma stakingInfoCache_add_eq (p : nat) (w : World Ext) (s : StakingInfo) :
  heap w !! p = Some s ->
  stakingInfoCache_add env p w
  = Some (tt, set_ext (cache_add env p s (ext w)) (log_access (CacheAdd p) w)).
Proof. intros Hp. unfold stakingInfoCache_add. run. now rewrite Hp. Qed.

(** What a call of [updateStakingInfo] with a manager has done: the reader,
    then, on the snapshot it made, the write, the fixup and the insertion
    into the cache, each on the state the one before left. *)
Lemma update_outcomes (blockNum : uint64) (w w' : World Ext)
    (r : option nat * option error) :
  stakingManager w = true ->
  updateStakingInfo env blockNum w = Some (r, w') ->
  exists rd w1 tA,
    getStakingInfoFromAddressBook env blockNum w = Some (rd, w1)
    /\ trace w1 = trace w ++ tA /\ forallb reader_access tA = true
    /\ hd_error tA = Some (AddressBookRead blockNum)
    /\ ((exists e, rd = (None, Some e) /\ r = (None, Some e) /\ w' = w1
                   /\ heap w1 = heap w)
        \/ (exists s werr e1 tC g,
              rd = (Some (length (heap w)), None)
              /\ heap w1 = heap w ++ [s]
              /\ Gini s = DefaultGiniCoefficient /\ BlockNum s = blockNum
              /\ db_write env s (ext w1) = (werr, e1)
              /\ r = (Some (length (heap w)), werr)
              /\ trace w' = trace w1 ++ DBWrite s werr :: tC
              /\ forallb fixup_access tC = true
              /\ heap w' = heap w ++ [set_Gini s g]
              /\ (werr <> None -> tC = [] /\ g = DefaultGiniCoefficient /\ ext w' = e1)
              /\ (werr = None ->
                  exists tG e2,
                    tC = tG ++ [CacheAdd (length (heap w))]
                    /\ (tG = [] \/ tG = [GovMinimumStaking blockNum])
                    /\ (e2 = e1 \/ e2 = snd (GetMinimumStakingAtNumber env blockNum e1))
                    /\ ext w' = cache_add env (length (heap w)) (set_Gini s g) e2))).
Proof.
  intros Hset H. unfold updateStakingInfo in H.
  unfold mbind, M_bind, mret, M_ret, managerIsSet, panic in H. simpl in H.
  rewrite Hset in H. simpl in H.
  destruct (getStakingInfoFromAddressBook env blockNum w) as [[[sp err] w1]|] eqn:Hrd;
    [|discriminate].
  destruct (getStakingInfoFromAddressBook_inv _ _ _ _ Hrd)
    as (tA & Ht & HtA & Hm & [(e & Hr & Hh) | (s & Hr & Hh & Hg & Hb)]).
  - injection Hr as -> ->. injection H as <- <-.
    exists (None, Some e), w1, tA. split; [reflexivity|]. split; [exact Ht|].
    split; [exact HtA|]. split; [exact (reader_starts _ _ _ _ _ Hrd Ht)|].
    left. eauto.
  - injection Hr as -> ->.
    exists (Some (length (heap w)), None), w1, tA. split; [reflexivity|].
    split; [exact Ht|]. split; [exact HtA|].
    split; [exact (reader_starts _ _ _ _ _ Hrd Ht)|]. right.
    assert (Hp : heap w1 !! length (heap w) = Some s)
      by (rewrite Hh; now apply list_lookup_middle).
    rewrite (AddStakingInfoToDB_eq _ _ _ Hp) in H.
    destruct (db_write env s (ext w1)) as [[e|] e1] eqn:Hw.
    + injection H as <- <-. exists s, (Some e), e1, [], (Gini s).
      simpl. rewrite set_Gini_same.
      repeat (split; [solve [auto]|]). discriminate.
    + set (w2 := log_access (DBWrite s None) (set_ext e1 w1)) in H.
      assert (Hp2 : heap w2 !! length (heap w) = Some s) by exact Hp.
      destruct (fillMissingGiniCoefficient env (length (heap w)) blockNum w2)
        as [[rf w3]|] eqn:Hfill; [|discriminate].
      apply (fill_inv _ _ _ _ _ _ Hp2) in Hfill
        as (tC & Ht3 & HtC & HtG & Hm3 & He3 & g & Hh3).
      assert (Hp3 : heap w3 !! length (heap w) = Some (set_Gini s g)).
      { rewrite Hh3. apply list_lookup_insert_eq. now apply lookup_lt_Some in Hp2. }
      rewrite (stakingInfoCache_add_eq _ _ _ Hp3) in H.
      injection H as <- <-.
      exists s, None, e1, (tC ++ [CacheAdd (length (heap w))]), g.
      simpl. rewrite Ht3, Hh3. unfold w2. simpl. rewrite Hh.
      rewrite insert_last, forallb_app, HtC. simpl.
      rewrite <- !app_assoc. simpl.
      repeat (split; [solve [auto]|]). split; [intros Hc; now contradiction Hc|].
      intros _. exists tC, (ext w3). repeat (split; [solve [auto]|]). reflexivity.
Qed.

(** A call of [updateStakingInfo] that returns no error leaves in the
    database, for the block asked, a snapshot with the sentinel, and leaves
    the other blocks as they were. *)
Lemma update_view (view : Ext -> uint64 -> option StakingInfo * option error)
    (blockNum : uint64) (w w' : World Ext) (r : option nat * option error) :
  database_view env view ->
  stakingManager w = true ->
  updateStakingInfo env blockNum w = Some (r, w') ->
  snd r = None ->
  exists s g,
    r = (Some (length (heap w)), None)
    /\ Gini s = DefaultGiniCoefficient /\ BlockNum s = blockNum
    /\ heap w' = heap w ++ [set_Gini s g]
    /\ forall n, view (ext w') n
                 = if (n =? blockNum)%N then (Some s, None) else view (ext w) n.
Proof.
  intros Hview Hset H Hr.
  destruct (update_outcomes _ _ _ _ Hset H)
    as (rd & w1 & tA & Hrd & _ & _ & _ & [(e & _ & -> & _) |
         (s & werr & e1 & tC & g & _ & _ & Hg & Hb & Hw & -> & _ & _ & Hh & _ & Hok)]);
    [discriminate|].
  simpl in Hr. subst werr. destruct (Hok eq_refl) as (tG & e2 & _ & _ & He2 & He).
  exists s, g. repeat (split; [solve [auto]|]).
  intros n. rewrite He, (view_cache_add env view Hview).
  assert (H12 : view e2 n = view e1 n).
  { destruct He2 as [->| ->]; [reflexivity|].
    apply (view_minimum_staking env view Hview). }
  rewrite H12, (view_after_write env view Hview _ _ _ n Hw), Hb.
  destruct (n =? blockNum)%N; [reflexivity|].
  exact (reader_view view Hview _ _ _ _ n Hrd).
Qed.


(** *** The migration prerequisite *)

Lemma getStakingInfoFromDB_eq (blockNum : uint64) (w : World Ext) :
  getStakingInfoFromDB env blockNum w
  = let '(stored, err, e) := db_read env blockNum (ext w) in
    let w1 := log_access (DBRead blockNum stored err) (set_ext e w) in
    match stored with
    | Some s => Some (Some (length (heap w)), err, set_heap (heap w ++ [s]) w1)
    | None => Some (None, err, w1)
    end.
Proof.
  unfold getStakingInfoFromDB. run.
  destruct (db_read env blockNum (ext w)) as [[[s|] err] e]; reflexivity.
Qed.

(** [CheckStakingInfoStored] with a manager, from the answer of the
    database. *)
Lemma check_unfold (blockNum : uint64) (w : World Ext)
    (stored : option StakingInfo) (err : option error) (e1 : Ext) :
  stakingManager w = true ->
  db_read env (CalcStakingBlockNumber env blockNum) (ext w) = (stored, err, e1) ->
  exists w1,
    trace w1 = trace w ++ [DBRead (CalcStakingBlockNumber env blockNum) stored err]
    /\ ext w1 = e1 /\ stakingManager w1 = true
    /\ CheckStakingInfoStored env blockNum w
       = match err with
         | None => Some (None, w1)
         | Some _ =>
             match updateStakingInfo env (CalcStakingBlockNumber env blockNum) w1 with
             | Some (_, e, w2) => Some (e, w2)
             | None => None
             end
         end.
Proof.
  intros Hset Hrd. unfold CheckStakingInfoStored.
  unfold mbind, M_bind, mret, M_ret, managerIsSet. simpl. rewrite Hset. simpl.
  rewrite getStakingInfoFromDB_eq, Hrd.
  set (w0 := log_access (DBRead (CalcStakingBlockNumber env blockNum) stored err)
               (set_ext e1 w)).
  exists (match stored with
          | Some s => set_heap (heap w ++ [s]) w0
          | None => w0
          end).
  destruct stored as [s|]; simpl;
    (split; [reflexivity|]); (split; [reflexivity|]); (split; [exact Hset|]);
    (destruct err; [|reflexivity]);
    destruct (updateStakingInfo _ _ _) as [[[? ?] ?]|]; reflexivity.
Qed.

(** A check that returns nil leaves the database able to answer the read
    of its staking block without error, and does not take that away from any
    other block. *)
Lemma check_view (view : Ext -> uint64 -> option StakingInfo * option error)
    (blockNum : uint64) (w w' : World Ext) :
  database_view env view ->
  CheckStakingInfoStored env blockNum w = Some (None, w') ->
  snd (view (ext w') (CalcStakingBlockNumber env blockNum)) = None
  /\ forall n, snd (view (ext w) n) = None -> snd (view (ext w') n) = None.
Proof.
  intros Hview H.
  destruct (stakingManager w) eqn:Hset.
  2:{ unfold CheckStakingInfoStored in H. revert H. run. rewrite Hset. discriminate. }
  destruct (db_read env (CalcStakingBlockNumber env blockNum) (ext w))
    as [[stored err] e1] eqn:Hrd.
  destruct (check_unfold _ _ _ _ _ Hset Hrd) as (w1 & _ & He1 & Hset1 & Hc).
  rewrite Hc in H. clear Hc.
  assert (Hv1 : forall n, view (ext w1) n = view (ext w) n).
  { intros n. rewrite He1.
    pose proof (view_after_read env view Hview n (CalcStakingBlockNumber env blockNum) (ext w))
      as Hv.
    now rewrite Hrd in Hv. }
  destruct err as [e0|].
  - destruct (updateStakingInfo env (CalcStakingBlockNumber env blockNum) w1)
      as [[[p err'] w2]|] eqn:Hu; [|discriminate].
    injection H as -> ->.
    destruct (update_view view _ _ _ _ Hview Hset1 Hu eq_refl) as (s & g & _ & _ & _ & _ & Hv).
    split.
    + now rewrite Hv, N.eqb_refl.
    + intros n Hn. rewrite Hv. destruct (n =? CalcStakingBlockNumber env blockNum)%N;
        [reflexivity|]. now rewrite Hv1.
  - injection H as <-. split.
    + rewrite Hv1, <- (view_read env view Hview), Hrd. reflexivity.
    + intros n Hn. now rewrite Hv1.
Qed.


(** The part of the fixup's contract that holds for every snapshot: with
    [UseGini] off or a gini of at least 0 the fixup is a no-op; a fixup that
    changes the world had [UseGini] on and a gini that is not at least 0, it
    made one governance query and changed at most the gini. *)
Lemma fixup_guards (p : nat) (number : uint64) (w : World Ext) (s : StakingInfo) :
  heap w !! p = Some s ->
  (UseGini s = false \/ geb (Gini s) zero = true ->
   fillMissingGiniCoefficient env p number w = Some (None, w))
  /\ (forall r w', fillMissingGiniCoefficient env p number w = Some (r, w') ->
        w' <> w ->
        UseGini s = true /\ geb (Gini s) zero = false
        /\ trace w' = trace w ++ [GovMinimumStaking number]
        /\ exists g, heap w' = <[p := set_Gini s g]> (heap w)).
Proof.
  intros Hp. split; [now apply fill_noop|].
  intros r w' H Hne.
  destruct (UseGini s) eqn:Hu; [destruct (geb (Gini s) zero) eqn:Hg|].
  - rewrite (fill_noop p number w s Hp) in H by auto. congruence.
  - split; [reflexivity|]. split; [reflexivity|].
    destruct (stakingManager w) eqn:Hset.
    2:{ rewrite (fill_unset p number w s Hp Hset Hu Hg) in H. discriminate. }
    rewrite (fill_recomputes p number w s Hp Hset Hu Hg) in H.
    destruct (GetMinimumStakingAtNumber env number (ext w)) as [[minStaking|err] e].
    + destruct (GetConsolidatedStakingInfo s); [|discriminate].
      injection H as <- <-. simpl. eauto.
    + injection H as <- <-. simpl. split; [reflexivity|].
      exists (Gini s). rewrite set_Gini_same. symmetry. now apply list_insert_id.
  - rewrite (fill_noop p number w s Hp) in H by auto. congruence.
Qed.

(** A gini that is NaN is not at least 0: with [UseGini] on, the fixup
    asks the governance and recomputes, though the gini is not the sentinel. *)
Lemma fixup_on_nan (p : nat) (number : uint64) (w w' : World Ext) (s : StakingInfo)
    (r : option error) :
  stakingManager w = true -> heap w !! p = Some s ->
  UseGini s = true -> Gini s = nan ->
  fillMissingGiniCoefficient env p number w = Some (r, w') ->
  trace w' = trace w ++ [GovMinimumStaking number].
Proof.
  intros Hset Hp Hu Hnan H.
  assert (Hg : geb (Gini s) zero = false) by (now rewrite Hnan).
  rewrite (fill_recomputes p number w s Hp Hset Hu Hg) in H.
  destruct (GetMinimumStakingAtNumber env number (ext w)) as [[minStaking|err] e].
  - destruct (GetConsolidatedStakingInfo s); [|discriminate].
    now injection H as <- <-.
  - now injection H as <- <-.
Qed.

(** *** A hit in the cache *)

(** When the cache holds the staking block, the snapshot returned is the
    cached object; the accesses are the lookup in the cache and at most the
    governance query of the fixup, which changes at most the gini of the
    cached object: neither the database nor the chain is accessed. *)
Theorem GetStakingInfoOnStakingBlock_cache_hit (stakingBlockNumber : uint64)
    (w w' : World Ext) (p : nat) (s : StakingInfo) (e : Ext) (r : option nat) :
  stakingManager w = true ->
  IsStakingUpdateInterval env stakingBlockNumber = true ->
  cache_get env stakingBlockNumber (ext w) = (Some p, e) ->
  heap w !! p = Some s ->
  GetStakingInfoOnStakingBlock env stakingBlockNumber w = Some (r, w') ->
  r = Some p
  /\ exists tC g,
       trace w' = trace w ++ CacheGet stakingBlockNumber :: tC
       /\ (tC = [] \/ tC = [GovMinimumStaking stakingBlockNumber])
       /\ heap w' = <[p := set_Gini s g]> (heap w).
Proof.
  intros Hset Hint Hc Hp H.
  unfold GetStakingInfoOnStakingBlock, stakingInfoCache_get in H.
  unfold mbind, M_bind, mret, M_ret, managerIsSet, record, call in H.
  simpl in H. rewrite Hset, Hint in H. simpl in H. rewrite Hc in H.
  set (w1 := set_ext e (log_access (CacheGet stakingBlockNumber) w)) in H.
  assert (Hp1 : heap w1 !! p = Some s) by exact Hp.
  destruct (fillMissingGiniCoefficient env p stakingBlockNumber w1) as [[rf w2]|] eqn:Hfill;
    [|discriminate].
  injection H as <- <-. split; [reflexivity|].
  destruct (UseGini s) eqn:Hu; [destruct (geb (Gini s) zero) eqn:Hg|].
  - rewrite (fill_noop p _ w1 s Hp1) in Hfill by auto. injection Hfill as <- <-.
    exists [], (Gini s). simpl. split; [reflexivity|]. split; [now left|].
    rewrite set_Gini_same. symmetry. now apply list_insert_id.
  - rewrite (fill_recomputes p _ w1 s Hp1 Hset Hu Hg) in Hfill.
    destruct (GetMinimumStakingAtNumber env stakingBlockNumber (ext w1))
      as [[minStaking|err] e1].
    + destruct (GetConsolidatedStakingInfo s) as [c|]; [|discriminate].
      injection Hfill as <- <-. eexists _, _. simpl. rewrite <- app_assoc.
      split; [reflexivity|]. split; [now right | reflexivity].
    + injection Hfill as <- <-. exists [GovMinimumStaking stakingBlockNumber], (Gini s).
      simpl. rewrite <- app_assoc. split; [reflexivity|]. split; [now right|].
      rewrite set_Gini_same. symmetry. now apply list_insert_id.
  - rewrite (fill_noop p _ w1 s Hp1) in Hfill by auto. injection Hfill as <- <-.
    exists [], (Gini s). simpl. split; [reflexivity|]. split; [now left|].
    rewrite set_Gini_same. symmetry. now apply list_insert_id.
Qed.

End ManagerProperties.

(** ** Examples on the in-memory collaborators *)

Lemma GetStakingInfoOnStakingBlock_shortcut_witness :
  GetStakingInfoOnStakingBlock mem_env 5%N (mem_world false [])
  = Some (None, mem_world false []).
Proof.
  apply (proj1 (GetStakingInfoOnStakingBlock_shortcut mem_env 5%N (mem_world false [])
                  eq_refl)).
Defined.

Lemma mem_env_database_view : database_view mem_env mem_view.
Proof.
  split; try reflexivity.
  - intros n m e. unfold mem_view. simpl. now destruct (assoc m (mem_db e)).
  - intros s e e' n. unfold mem_view. simpl.
    destruct (mem_db_down e); [discriminate|]. intros [= <-]. simpl.
    rewrite (N.eqb_sym n). destruct (BlockNum s =? n)%N; [reflexivity|].
    now destruct (assoc n (mem_db e)).
  - intros n p s e. unfold mem_view. simpl. now destruct (assoc n (mem_db e)).
Qed.


(** The database is down: the snapshot is returned with the error, it
    carries the sentinel, and it is not cached. *)
Lemma updateStakingInfo_database_down :
  exists w',
    updateStakingInfo mem_env 86400%N (mem_world true [])
    = Some (Some 0%nat, Some (ErrExternal "database is down"), w')
    /\ heap w' = [example_info]
    /\ ext w' = ext (mem_world true [])
    /\ trace w' = [AddressBookRead 86400; ChainGetBlock 86400; ChainStateAt 86400;
                   GovUseGini 86400;
                   DBWrite example_info (Some (ErrExternal "database is down"))]%N.
Proof. eexists. split; [vm_compute; reflexivity|]. repeat split. Qed.

(** The database is up: the snapshot written has the sentinel, the one
    cached and returned has the coefficient 0.3. *)
Lemma updateStakingInfo_example :
  exists w',
    updateStakingInfo mem_env 86400%N (mem_world false []) = Some (Some 0%nat, None, w')
    /\ heap w' = [set_Gini example_info three_tenths]
    /\ mem_db (ext w') = [(86400%N, example_info)]
    /\ mem_cache (ext w') = [(86400%N, 0%nat)]
    /\ trace w' = [AddressBookRead 86400; ChainGetBlock 86400; ChainStateAt 86400;
                   GovUseGini 86400; DBWrite example_info None;
                   GovMinimumStaking 86400; CacheAdd 0]%N.
Proof. eexists. split; [vm_compute; reflexivity|]. repeat split. Qed.

(** C8. With [UseGini] off or a gini of at least 0 the fixup is a no-op,
    as the claim says, and a fixup that changes anything made one governance
    query and changed the gini only. But the fixup does not recompute on the
    sentinel only, and a gini it has set is not left alone: on a council
    whose accounts hold less than one KLAY every stake is 0, the coefficient
    stored by the first fixup is NaN, which is not the sentinel and is not at
    least 0, and each later call asks the governance and recomputes again. *)
Theorem fillMissingGiniCoefficient_recomputes_on_nan :
  (forall (Ext : Type) (env : Collaborators Ext) (p : nat) (number : uint64)
          (w : World Ext) (s : StakingInfo),
      heap w !! p = Some s ->
      (UseGini s = false \/ geb (Gini s) zero = true ->
       fillMissingGiniCoefficient env p number w = Some (None, w))
      /\ (forall r w', fillMissingGiniCoefficient env p number w = Some (r, w') ->
            w' <> w ->
            UseGini s = true /\ geb (Gini s) zero = false
            /\ trace w' = trace w ++ [GovMinimumStaking number]
            /\ exists g, heap w' = <[p := set_Gini s g]> (heap w)))
  /\ (forall (Ext : Type) (env : Collaborators Ext) (p : nat) (number : uint64)
             (w w' : World Ext) (s : StakingInfo) (r : option error),
        stakingManager w = true -> heap w !! p = Some s ->
        UseGini s = true -> Gini s = nan ->
        fillMissingGiniCoefficient env p number w = Some (r, w') ->
        trace w' = trace w ++ [GovMinimumStaking number])
  /\ nan <> DefaultGiniCoefficient
  /\ geb nan zero = false
  /\ exists w1 w2 w3,
       GetStakingInfoOnStakingBlock poor_env 86400%N (mem_world false [])
       = Some (Some 0%nat, w1)
       /\ heap w1 = [set_Gini zero_info nan]
       /\ mem_db (ext w1) = [(86400%N, zero_info)]
       /\ GetStakingInfoOnStakingBlock poor_env 86400%N w1 = Some (Some 0%nat, w2)
       /\ trace w2 = trace w1 ++ [CacheGet 86400%N; GovMinimumStaking 86400%N]
       /\ heap w2 = [set_Gini zero_info nan]
       /\ GetStakingInfoOnStakingBlock poor_env 86400%N w2 = Some (Some 0%nat, w3)
       /\ trace w3 = trace w2 ++ [CacheGet 86400%N; GovMinimumStaking 86400%N]
       /\ heap w3 = [set_Gini zero_info nan].
Proof.
  split; [intros Ext env p number w s; apply fixup_guards|].
  split; [intros Ext env p number w w' s r; apply fixup_on_nan|].
  split; [discriminate|]. split; [reflexivity|].
  eexists _, _, _. split; [vm_compute; reflexivity|]. split; [reflexivity|].
  split; [reflexivity|]. split; [vm_compute; reflexivity|]. split; [reflexivity|].
  split; [reflexivity|]. split; [vm_compute; reflexivity|]. split; reflexivity.
Qed.


(** The prerequisite on an empty database stores the snapshots of both
    staking blocks. *)
Lemma migrationPrerequisite_example :
  exists w2,
    migrationPrerequisite mem_env 100000%N (mem_world false []) = Some (None, w2)
    /\ map fst (mem_db (ext w2)) = [172800; 86400]%N.
Proof. eexists. split; [vm_compute; reflexivity|]. reflexivity. Qed.

(** The round trip through the RLP encoding of the example: 92 bytes. *)
Lemma EncodeRLP_DecodeRLP_roundtrip_witness :
  DecodeRLP RLP.decode_stakingInfoRLP (newEmptyStakingInfo 0)
    (EncodeRLP RLP.encode_stakingInfoRLP example_info)
  = (example_info, None).
Proof.
  apply (proj1 (EncodeRLP_DecodeRLP_roundtrip RLP.encode_stakingInfoRLP
                  RLP.decode_stakingInfoRLP example_info (newEmptyStakingInfo 0)
                  RLPFacts.decode_encode_stakingInfoRLP eq_refl)).
Defined.

(** A first call on an empty cache and an empty database derives the
    snapshot from the chain, writes it and caches it; a second call is
    served by the cache alone. *)
Lemma tiered_resolution_example :
  exists w1 w2,
    GetStakingInfoOnStakingBlock mem_env 86400%N (mem_world false []) = Some (Some 0%nat, w1)
    /\ trace w1 = [CacheGet 86400;
                   DBRead 86400 None (Some (ErrExternal "not found"));
                   AddressBookRead 86400; ChainGetBlock 86400; ChainStateAt 86400;
                   GovUseGini 86400; DBWrite example_info None;
                   GovMinimumStaking 86400; CacheAdd 0]%N
    /\ GetStakingInfoOnStakingBlock mem_env 86400%N w1 = Some (Some 0%nat, w2)
    /\ trace w2 = trace w1 ++ [CacheGet 86400%N]
    /\ heap w2 = [set_Gini example_info three_tenths].
Proof.
  eexists _, _. split; [vm_compute; reflexivity|]. split; [reflexivity|].
  split; [vm_compute; reflexivity|]. split; reflexivity.
Qed.

Lemma GetStakingInfoOnStakingBlock_cache_hit_witness :
  Some 0%nat = Some 0%nat
  /\ exists tC g,
       [CacheGet 86400%N; GovMinimumStaking 86400%N] = [] ++ CacheGet 86400%N :: tC
       /\ (tC = [] \/ tC = [GovMinimumStaking 86400%N])
       /\ [set_Gini example_info three_tenths]
          = <[0%nat := set_Gini example_info g]> [example_info].
Proof.
  exact (GetStakingInfoOnStakingBlock_cache_hit mem_env 86400%N
           {| heap := [example_info]; stakingManager := true; once := true;
              prerequisites := 1;
              ext := {| mem_cache := [(86400%N, 0%nat)]; mem_db := [];
                        mem_db_down := false |};
              trace := [] |}
           _ 0%nat example_info _ (Some 0%nat)
           eq_refl eq_refl eq_refl eq_refl eq_refl).
Defined.

(** ** Looking a node address up in a StakingInfo *)

Lemma index_of_first (a : Address) (l : list Address) (k : nat) :
  match index_of a l k with
  | Some i =>
      exists j, i = (k + j)%nat /\ l !! j = Some a
                /\ forall j', (j' < j)%nat -> l !! j' <> Some a
  | None => a ∉ l
  end.
Proof.
  revert k. induction l as [|x l IH]; intros k; simpl.
  - apply not_elem_of_nil.
  - destruct (N.eqb_spec x a) as [->|Hne].
    + exists 0%nat. split; [lia|]. split; [reflexivity|]. intros j' Hj. lia.
    + specialize (IH (S k)). destruct (index_of a l (S k)) as [i|].
      * destruct IH as (j & -> & Hj & Hfirst). exists (S j).
        split; [lia|]. split; [exact Hj|].
        intros [|j'] Hlt; simpl; [congruence|]. apply Hfirst. lia.
      * intros H. apply elem_of_cons in H as [H|H]; [congruence | contradiction].
Qed.

(** [GetIndexByNodeAddress] returns the first index that holds the
    address, with no error; for an address that is not a node of the council
    it returns -1 and [ErrAddrNotInStakingInfo]. *)
Theorem GetIndexByNodeAddress_first (s : StakingInfo) (nodeAddress : Address) :
  ((nodeAddress ∉ CouncilNodeAddrs s)
   /\ GetIndexByNodeAddress s nodeAddress = (-1, Some ErrAddrNotInStakingInfo))
  \/ (exists i : nat,
        GetIndexByNodeAddress s nodeAddress = (Z.of_nat i, None)
        /\ CouncilNodeAddrs s !! i = Some nodeAddress
        /\ forall j, (j < i)%nat -> CouncilNodeAddrs s !! j <> Some nodeAddress).
Proof.
  unfold GetIndexByNodeAddress.
  pose proof (index_of_first nodeAddress (CouncilNodeAddrs s) 0) as H.
  destruct (index_of nodeAddress (CouncilNodeAddrs s) 0) as [i|].
  - right. destruct H as (j & -> & Hj & Hfirst). exists j. auto.
  - left. auto.
Qed.

Lemma first_index_unique (l : list Address) (a : Address) (i j : nat) :
  l !! i = Some a -> (forall k, (k < i)%nat -> l !! k <> Some a) ->
  l !! j = Some a -> (forall k, (k < j)%nat -> l !! k <> Some a) ->
  i = j.
Proof.
  intros Hi Hfi Hj Hfj.
  destruct (Nat.lt_trichotomy i j) as [H|[H|H]]; [|assumption|].
  - now apply Hfj in H.
  - now apply Hfi in H.
Qed.

(** [GetStakingAmountByNodeId] returns the staking amount at the first
    index that holds the address; for an address that is not a node of the
    council it returns 0 and [ErrAddrNotInStakingInfo]; it panics exactly
    when that first index is not an index of CouncilStakingAmounts, which
    cannot happen when there is an amount for each node address. *)
Theorem GetStakingAmountByNodeId_first (s : StakingInfo) (nodeAddress : Address) :
  (nodeAddress ∉ CouncilNodeAddrs s ->
   GetStakingAmountByNodeId s nodeAddress = Some (0%N, Some ErrAddrNotInStakingInfo))
  /\ (forall i : nat,
        CouncilNodeAddrs s !! i = Some nodeAddress ->
        (forall j, (j < i)%nat -> CouncilNodeAddrs s !! j <> Some nodeAddress) ->
        (forall amount, CouncilStakingAmounts s !! i = Some amount ->
           GetStakingAmountByNodeId s nodeAddress = Some (amount, None))
        /\ ((length (CouncilStakingAmounts s) <= i)%nat ->
            GetStakingAmountByNodeId s nodeAddress = None))
  /\ ((length (CouncilNodeAddrs s) <= length (CouncilStakingAmounts s))%nat ->
      GetStakingAmountByNodeId s nodeAddress <> None).
Proof.
  unfold GetStakingAmountByNodeId, GetIndexByNodeAddress.
  pose proof (index_of_first nodeAddress (CouncilNodeAddrs s) 0) as H.
  destruct (index_of nodeAddress (CouncilNodeAddrs s) 0) as [i0|].
  - destruct H as (j & -> & Hj & Hfirst). simpl. rewrite Nat2Z.id.
    split; [|split].
    + intros Hnot. exfalso. apply Hnot. eapply list_elem_of_lookup_2. eassumption.
    + intros i Hi Hfi.
      assert (i = j) as -> by (eapply first_index_unique; eassumption).
      split.
      * intros amount Ha. now rewrite Ha.
      * intros Hlen. now rewrite (lookup_ge_None_2 _ _ Hlen).
    + intros Hlen.
      destruct (lookup_lt_is_Some_2 (CouncilStakingAmounts s) j) as [amount Ha].
      { apply lookup_lt_Some in Hj. lia. }
      now rewrite Ha.
  - split; [reflexivity|]. split.
    + intros i Hi _. exfalso. apply H. eapply list_elem_of_lookup_2. eassumption.
    + discriminate.
Qed.

(** ** Slices of different lengths *)

Lemma consolidate_step_agree (s s' : StakingInfo)
    (st : ConsolidatedStakingInfo * gmap N nat) (j : nat) :
  CouncilNodeAddrs s' !! j = CouncilNodeAddrs s !! j ->
  CouncilStakingAddrs s' !! j = CouncilStakingAddrs s !! j ->
  CouncilRewardAddrs s' !! j = CouncilRewardAddrs s !! j ->
  CouncilStakingAmounts s' !! j = CouncilStakingAmounts s !! j ->
  consolidate_step s' st j = consolidate_step s st j.
Proof.
  intros H1 H2 H3 H4. unfold consolidate_step. destruct st as [c rewardIndex].
  now rewrite H1, H2, H3, H4.
Qed.

Lemma consolidate_loop_agree (s s' : StakingInfo) (js : list nat)
    (st : ConsolidatedStakingInfo * gmap N nat) :
  (forall j, j ∈ js ->
     CouncilNodeAddrs s' !! j = CouncilNodeAddrs s !! j
     /\ CouncilStakingAddrs s' !! j = CouncilStakingAddrs s !! j
     /\ CouncilRewardAddrs s' !! j = CouncilRewardAddrs s !! j
     /\ CouncilStakingAmounts s' !! j = CouncilStakingAmounts s !! j) ->
  consolidate_loop s' js st = consolidate_loop s js st.
Proof.
  revert st. induction js as [|j js IH]; intros st H; [reflexivity|].
  cbn [consolidate_loop].
  destruct (H j) as (H1 & H2 & H3 & H4); [now left|].
  rewrite (consolidate_step_agree s s' st j H1 H2 H3 H4).
  destruct (consolidate_step s st j) as [st'|]; simpl; [|reflexivity].
  apply IH. intros j' Hj'. apply H. now right.
Qed.

Lemma consolidate_loop_panics (s : StakingInfo) (js : list nat) (j : nat)
    (st : ConsolidatedStakingInfo * gmap N nat) :
  (forall st', consolidate_step s st' j = None) -> j ∈ js ->
  consolidate_loop s js st = None.
Proof.
  intros Hstep. revert st. induction js as [|j' js IH]; intros st Hin.
  - now apply elem_of_nil in Hin.
  - cbn [consolidate_loop]. apply elem_of_cons in Hin as [<-|Hin].
    + now rewrite Hstep.
    + destruct (consolidate_step s st j') as [st'|]; simpl; [|reflexivity].
      now apply IH.
Qed.

Lemma consolidate_total (s : StakingInfo) :
  (length (CouncilNodeAddrs s) <= length (CouncilStakingAddrs s))%nat ->
  (length (CouncilNodeAddrs s) <= length (CouncilRewardAddrs s))%nat ->
  (length (CouncilNodeAddrs s) <= length (CouncilStakingAmounts s))%nat ->
  GetConsolidatedStakingInfo s <> None.
Proof.
  intros H1 H2 H3.
  set (n := length (CouncilNodeAddrs s)) in *.
  set (s' := {| BlockNum := BlockNum s;
                CouncilNodeAddrs := CouncilNodeAddrs s;
                CouncilStakingAddrs := take n (CouncilStakingAddrs s);
                CouncilRewardAddrs := take n (CouncilRewardAddrs s);
                KIRAddr := KIRAddr s; PoCAddr := PoCAddr s;
                UseGini := UseGini s; Gini := Gini s;
                CouncilStakingAmounts := take n (CouncilStakingAmounts s) |}).
  assert (Heq : GetConsolidatedStakingInfo s = GetConsolidatedStakingInfo s').
  { unfold GetConsolidatedStakingInfo. f_equal. simpl. fold n.
    apply consolidate_loop_agree. intros j Hj.
    apply elem_of_seq in Hj. simpl.
    rewrite !lookup_take_lt by lia. auto. }
  rewrite Heq.
  destruct (GetConsolidatedStakingInfo_refines s') as (c & -> & _);
    simpl; rewrite ?length_take; fold n; try lia.
  discriminate.
Qed.

Lemma consolidate_short (s : StakingInfo) :
  (length (CouncilStakingAddrs s) < length (CouncilNodeAddrs s)
   \/ length (CouncilRewardAddrs s) < length (CouncilNodeAddrs s)
   \/ length (CouncilStakingAmounts s) < length (CouncilNodeAddrs s))%nat ->
  GetConsolidatedStakingInfo s = None.
Proof.
  intros H. unfold GetConsolidatedStakingInfo.
  assert (Hj : exists j, (j < length (CouncilNodeAddrs s))%nat
                /\ (CouncilStakingAddrs s !! j = None
                    \/ CouncilRewardAddrs s !! j = None
                    \/ CouncilStakingAmounts s !! j = None)).
  { destruct H as [H|[H|H]]; eexists; (split; [exact H|]);
      rewrite !lookup_ge_None; lia. }
  destruct Hj as (j & Hlt & Hj).
  rewrite (consolidate_loop_panics s _ j); [reflexivity| |apply elem_of_seq; lia].
  intros [c rewardIndex]. unfold consolidate_step.
  destruct (CouncilNodeAddrs s !! j); simpl; [|reflexivity].
  destruct (CouncilStakingAddrs s !! j); simpl; [|reflexivity].
  destruct (CouncilRewardAddrs s !! j); simpl; [|reflexivity].
  destruct (CouncilStakingAmounts s !! j); simpl; [|reflexivity].
  destruct Hj as [Hj|[Hj|Hj]]; discriminate.
Qed.

Lemma consolidate_panics_iff (s : StakingInfo) :
  GetConsolidatedStakingInfo s = None
  <-> (length (CouncilStakingAddrs s) < length (CouncilNodeAddrs s)
       \/ length (CouncilRewardAddrs s) < length (CouncilNodeAddrs s)
       \/ length (CouncilStakingAmounts s) < length (CouncilNodeAddrs s))%nat.
Proof.
  split; [|apply consolidate_short].
  intros Hnone.
  destruct (Nat.lt_ge_cases (length (CouncilStakingAddrs s)) (length (CouncilNodeAddrs s)))
    as [H1|H1]; [now left|].
  destruct (Nat.lt_ge_cases (length (CouncilRewardAddrs s)) (length (CouncilNodeAddrs s)))
    as [H2|H2]; [right; now left|].
  destruct (Nat.lt_ge_cases (length (CouncilStakingAmounts s)) (length (CouncilNodeAddrs s)))
    as [H3|H3]; [right; now right|].
  now destruct (consolidate_total s H1 H2 H3).
Qed.

(** [GetConsolidatedStakingInfo] panics (an index out of range) exactly
    when there are fewer staking addresses, reward addresses or staking
    amounts than node addresses; what these slices hold beyond the number of
    node addresses is never read. *)
Theorem GetConsolidatedStakingInfo_panics (s : StakingInfo) :
  (GetConsolidatedStakingInfo s = None
   <-> (length (CouncilStakingAddrs s) < length (CouncilNodeAddrs s)
        \/ length (CouncilRewardAddrs s) < length (CouncilNodeAddrs s)
        \/ length (CouncilStakingAmounts s) < length (CouncilNodeAddrs s))%nat)
  /\ (forall s' : StakingInfo,
        CouncilNodeAddrs s' = CouncilNodeAddrs s ->
        take (length (CouncilNodeAddrs s)) (CouncilStakingAddrs s')
        = take (length (CouncilNodeAddrs s)) (CouncilStakingAddrs s) ->
        take (length (CouncilNodeAddrs s)) (CouncilRewardAddrs s')
        = take (length (CouncilNodeAddrs s)) (CouncilRewardAddrs s) ->
        take (length (CouncilNodeAddrs s)) (CouncilStakingAmounts s')
        = take (length (CouncilNodeAddrs s)) (CouncilStakingAmounts s) ->
        GetConsolidatedStakingInfo s' = GetConsolidatedStakingInfo s).
Proof.
  split; [apply consolidate_panics_iff|].
  - intros s' Hn Hs Hr Ha. unfold GetConsolidatedStakingInfo. rewrite Hn. f_equal.
    apply consolidate_loop_agree. intros j Hj. apply elem_of_seq in Hj.
    rewrite Hn. split; [reflexivity|].
    rewrite <- (lookup_take_lt (CouncilStakingAddrs s') (length (CouncilNodeAddrs s)) j),
            <- (lookup_take_lt (CouncilRewardAddrs s') (length (CouncilNodeAddrs s)) j),
            <- (lookup_take_lt (CouncilStakingAmounts s') (length (CouncilNodeAddrs s)) j)
      by lia.
    rewrite Hs, Hr, Ha. rewrite !lookup_take_lt by lia. auto.
Qed.

(** ** The index of node addresses *)

Lemma registrations_of_nodes (ns ss rs : list Address) (ams : list uint64) :
  length ss = length ns -> length rs = length ns -> length ams = length ns ->
  map reg_node (registrations_of ns ss rs ams) = ns.
Proof.
  revert ss rs ams. induction ns as [|n ns IH]; intros [|s ss] [|r rs] [|a ams];
    simpl; intros; try lia; try reflexivity.
  rewrite IH; [reflexivity|lia..].
Qed.

Lemma reg_step_node_indexed (regs : list registration) (c c' : ConsolidatedStakingInfo)
    (rewardIndex rewardIndex' : gmap N nat) (r : registration) :
  indexes rewardIndex (nodes c) -> node_indexed regs c ->
  reg_step (c, rewardIndex) r = Some (c', rewardIndex') ->
  node_indexed (regs ++ [r]) c'.
Proof.
  intros [Hnd Hidx] [Hnone Hsome]. unfold reg_step.
  assert (Hold : forall a idx, a <> reg_node r -> nodeIndex c !! a = Some idx ->
            exists n pre r0 post,
              nodes c !! idx = Some n /\ (a ∈ NodeAddrs n)
              /\ regs ++ [r] = pre ++ r0 :: post /\ reg_node r0 = a
              /\ (a ∉ map reg_node post) /\ RewardAddr n = reg_reward r0).
  { intros a idx Hne Ha.
    destruct (Hsome a idx Ha) as (n & pre & r0 & post & Hn & Hin & -> & Hr0 & Hpost & Hrw).
    exists n, pre, r0, (post ++ [r]). rewrite <- app_assoc. simpl.
    repeat (split; [assumption || reflexivity|]). split; [|assumption].
    rewrite map_app. simpl. intros H. apply elem_of_app in H as [H|H]; [contradiction|].
    apply list_elem_of_singleton in H. congruence. }
  assert (Hdom : forall (m : gmap N nat) a idx0,
            (forall a', m !! a' = None <-> a' ∉ map reg_node regs) ->
            <[reg_node r := idx0]> m !! a = None <-> a ∉ map reg_node (regs ++ [r])).
  { intros m a idx0 Hm. rewrite map_app. simpl.
    destruct (decide (reg_node r = a)) as [<-|Hne].
    - rewrite lookup_insert_eq. split; [discriminate|].
      intros H. exfalso. apply H. apply elem_of_app. right. constructor.
    - rewrite lookup_insert_ne by assumption. rewrite Hm. split.
      + intros H H'. apply elem_of_app in H' as [H'|H']; [contradiction|].
        apply list_elem_of_singleton in H'. congruence.
      + intros H H'. apply H. apply elem_of_app. now left. }
  destruct (rewardIndex !! reg_reward r) as [idx0|] eqn:E.
  - apply Hidx in E. destruct (lookup_map_Some _ _ _ E) as (n0 & Hn0 & Hr0).
    rewrite Hn0. simpl. intros [= <- <-]. split; simpl.
    + intros a. now apply Hdom.
    + intros a idx. destruct (decide (reg_node r = a)) as [<-|Hne].
      * rewrite lookup_insert_eq. intros [= <-].
        exists (extend_node n0 (reg_node r) (reg_staking r) (reg_amount r)), regs, r, [].
        split; [apply list_lookup_insert_eq; now apply lookup_lt_Some in Hn0|].
        split; [simpl; apply elem_of_app; right; constructor|].
        repeat (split; [reflexivity|]). split; [apply not_elem_of_nil | exact Hr0].
      * rewrite lookup_insert_ne by assumption. intros Ha.
        destruct (Hold a idx (not_eq_sym Hne) Ha)
          as (n & pre & r0 & post & Hn & Hin & Hregs & Hnode & Hpost & Hrw).
        destruct (decide (idx = idx0)) as [->|Hi].
        -- assert (n = n0) as -> by congruence.
           exists (extend_node n0 (reg_node r) (reg_staking r) (reg_amount r)), pre, r0, post.
           split; [apply list_lookup_insert_eq; now apply lookup_lt_Some in Hn0|].
           split; [simpl; apply elem_of_app; now left|].
           repeat (split; [assumption|]). exact Hrw.
        -- exists n, pre, r0, post.
           split; [rewrite list_lookup_insert_ne by congruence; exact Hn|].
           repeat (split; [assumption|]). exact Hrw.
  - intros [= <- <-]. split; simpl.
    + intros a. now apply Hdom.
    + intros a idx. rewrite length_app. cbn [length].
      replace (length (nodes c) + 1 - 1)%nat with (length (nodes c)) by lia.
      destruct (decide (reg_node r = a)) as [<-|Hne].
      * rewrite lookup_insert_eq. intros [= <-].
        exists (entry_of r), regs, r, [].
        split; [now apply list_lookup_middle|].
        split; [simpl; constructor|].
        repeat (split; [reflexivity|]). split; [apply not_elem_of_nil | reflexivity].
      * rewrite lookup_insert_ne by assumption. intros Ha.
        destruct (Hold a idx (not_eq_sym Hne) Ha)
          as (n & pre & r0 & post & Hn & Hin & Hregs & Hnode & Hpost & Hrw).
        exists n, pre, r0, post.
        split; [now apply lookup_app_l_Some|].
        repeat (split; [assumption|]). exact Hrw.
Qed.

Lemma reg_loop_node_indexed (regs done : list registration)
    (c c' : ConsolidatedStakingInfo) (rewardIndex rewardIndex' : gmap N nat) :
  indexes rewardIndex (nodes c) -> node_indexed done c ->
  reg_loop regs (c, rewardIndex) = Some (c', rewardIndex') ->
  node_indexed (done ++ regs) c'.
Proof.
  revert done c rewardIndex. induction regs as [|r regs IH];
    intros done c rewardIndex Hinv Hnode H.
  - injection H as <- <-. now rewrite app_nil_r.
  - cbn [reg_loop] in H.
    destruct (reg_step_absorbs c rewardIndex r Hinv) as (c1 & ri1 & Hstep & _ & Hinv1).
    rewrite Hstep in H. simpl in H.
    replace (done ++ r :: regs) with ((done ++ [r]) ++ regs)
      by (now rewrite <- app_assoc).
    apply (IH (done ++ [r]) c1 ri1 Hinv1); [|exact H].
    exact (reg_step_node_indexed done c c1 rewardIndex ri1 r Hinv Hnode Hstep).
Qed.

Lemma GetConsolidatedStakingInfo_node_indexed (s : StakingInfo) :
  length (CouncilStakingAddrs s) = length (CouncilNodeAddrs s) ->
  length (CouncilRewardAddrs s) = length (CouncilNodeAddrs s) ->
  length (CouncilStakingAmounts s) = length (CouncilNodeAddrs s) ->
  exists c, GetConsolidatedStakingInfo s = Some c /\ node_indexed (registrations s) c.
Proof.
  intros H1 H2 H3. unfold GetConsolidatedStakingInfo.
  assert (Hlen : length (registrations s) = length (CouncilNodeAddrs s))
    by now apply registrations_of_length.
  rewrite consolidate_loop_regs by lia.
  rewrite drop_0, <- Hlen, firstn_all.
  assert (Hinv : indexes ∅ (nodes {| nodes := []; nodeIndex := ∅ |})).
  { split; [constructor|]. intros r i. simpl. rewrite lookup_empty.
    split; [discriminate | destruct i; discriminate]. }
  destruct (reg_loop_absorbs (registrations s) {| nodes := []; nodeIndex := ∅ |} ∅ Hinv)
    as (c & ri & Hloop & _).
  exists c. rewrite Hloop. split; [reflexivity|].
  apply (reg_loop_node_indexed (registrations s) [] _ c ∅ ri Hinv); [|exact Hloop].
  split.
  - intros a. simpl. rewrite lookup_empty. split; [intros _; apply not_elem_of_nil | reflexivity].
  - intros a idx. simpl. rewrite lookup_empty. discriminate.
Qed.

(** On sequences of one length, [GetConsolidatedNode] finds an entry for
    exactly the node addresses of the council; the entry is one of
    [GetAllNodes], it lists the node address, and its reward address is the
    one registered with the node address, at its last index when the node
    address is registered more than once. *)
Theorem GetConsolidatedNode_of_council (s : StakingInfo) :
  length (CouncilStakingAddrs s) = length (CouncilNodeAddrs s) ->
  length (CouncilRewardAddrs s) = length (CouncilNodeAddrs s) ->
  length (CouncilStakingAmounts s) = length (CouncilNodeAddrs s) ->
  exists c, GetConsolidatedStakingInfo s = Some c
    /\ forall nodeAddr : Address,
         (nodeAddr ∉ CouncilNodeAddrs s -> GetConsolidatedNode c nodeAddr = None)
         /\ (nodeAddr ∈ CouncilNodeAddrs s ->
             exists n, GetConsolidatedNode c nodeAddr = Some n
               /\ (n ∈ GetAllNodes c) /\ (nodeAddr ∈ NodeAddrs n)
               /\ forall j : nat,
                    CouncilNodeAddrs s !! j = Some nodeAddr ->
                    (forall j', (j < j')%nat -> CouncilNodeAddrs s !! j' <> Some nodeAddr) ->
                    CouncilRewardAddrs s !! j = Some (RewardAddr n)).
Proof.
  intros H1 H2 H3.
  destruct (GetConsolidatedStakingInfo_node_indexed s H1 H2 H3) as (c & Hc & Hnone & Hsome).
  exists c. split; [exact Hc|]. intros a.
  assert (Hnodes : map reg_node (registrations s) = CouncilNodeAddrs s)
    by now apply registrations_of_nodes.
  rewrite Hnodes in Hnone. unfold GetConsolidatedNode, GetAllNodes. split.
  - intros Ha. apply Hnone in Ha. now rewrite Ha.
  - intros Ha. destruct (nodeIndex c !! a) as [idx|] eqn:E.
    2:{ apply Hnone in E. contradiction. }
    destruct (Hsome a idx E) as (n & pre & r & post & Hn & Hin & Hregs & Hr & Hpost & Hrw).
    exists n. simpl. split; [exact Hn|].
    split; [eapply list_elem_of_lookup_2; eassumption|]. split; [exact Hin|].
    intros j Hj Hlast.
    assert (Hlook : forall i, CouncilNodeAddrs s !! i = reg_node <$> registrations s !! i).
    { intros i. rewrite <- Hnodes. apply list_lookup_fmap. }
    assert (Hpre : registrations s !! length pre = Some r)
      by (rewrite Hregs; now apply list_lookup_middle).
    assert (j = length pre) as ->.
    { destruct (Nat.lt_trichotomy j (length pre)) as [Hlt|[Heq|Hgt]]; [|exact Heq|].
      - exfalso. apply (Hlast (length pre) Hlt). rewrite Hlook, Hpre. simpl. now rewrite Hr.
      - exfalso. apply Hpost. rewrite Hlook, Hregs in Hj.
        rewrite lookup_app_r in Hj by lia.
        destruct (j - length pre)%nat as [|k] eqn:D; [lia|]. simpl in Hj.
        destruct (post !! k) as [r'|] eqn:Hk; [|discriminate].
        injection Hj as <-. apply list_elem_of_fmap_2.
        eapply list_elem_of_lookup_2; eassumption. }
    unfold registrations in Hpre. rewrite registrations_of_lookup in Hpre.
    destruct (CouncilNodeAddrs s !! length pre); simpl in Hpre; [|discriminate].
    destruct (CouncilStakingAddrs s !! length pre); simpl in Hpre; [|discriminate].
    destruct (CouncilRewardAddrs s !! length pre) as [rw|]; simpl in Hpre; [|discriminate].
    destruct (CouncilStakingAmounts s !! length pre); simpl in Hpre; [|discriminate].
    injection Hpre as <-. now rewrite Hrw.
Qed.

(** ** The entries of a consolidation *)

Lemma absorb_nodup (r : registration) (entries : list consolidatedNode) :
  NoDup (map RewardAddr entries) -> NoDup (map RewardAddr (absorb r entries)).
Proof.
  intros Hnd. rewrite absorb_rewards.
  destruct (decide (reg_reward r ∈ map RewardAddr entries)) as [H|H]; [assumption|].
  apply NoDup_app. split; [assumption|]. split; [|apply NoDup_singleton].
  intros x Hx Hx'. apply list_elem_of_singleton in Hx'. congruence.
Qed.

Lemma absorb_nonempty (r : registration) (entries : list consolidatedNode) :
  Forall (fun n => NodeAddrs n <> []) entries ->
  Forall (fun n => NodeAddrs n <> []) (absorb r entries).
Proof.
  induction 1 as [|n entries Hn Hes IH]; simpl.
  - constructor; [discriminate | constructor].
  - destruct (RewardAddr n =? reg_reward r)%N; constructor; try assumption.
    simpl. now destruct (NodeAddrs n).
Qed.

Lemma absorb_length (r : registration) (entries : list consolidatedNode) :
  (length (absorb r entries) <= S (length entries))%nat.
Proof.
  induction entries as [|n entries IH]; simpl; [lia|].
  destruct (RewardAddr n =? reg_reward r)%N; simpl; lia.
Qed.

Lemma spec_consolidate_entries (regs : list registration) (entries : list consolidatedNode) :
  NoDup (map RewardAddr entries) -> Forall (fun n => NodeAddrs n <> []) entries ->
  let entries' := fold_left (fun es r => absorb r es) regs entries in
  NoDup (map RewardAddr entries')
  /\ Forall (fun n => NodeAddrs n <> []) entries'
  /\ (length entries' <= length entries + length regs)%nat.
Proof.
  revert entries. induction regs as [|r regs IH]; intros entries Hnd Hne; simpl.
  - repeat split; [assumption..|lia].
  - destruct (IH (absorb r entries)) as (H1 & H2 & H3);
      [now apply absorb_nodup | now apply absorb_nonempty|].
    repeat split; [assumption..|]. pose proof (absorb_length r entries). simpl in H3. lia.
Qed.

Lemma spec_consolidate_distinct (regs : list registration) (entries : list consolidatedNode) :
  NoDup (map RewardAddr entries ++ map reg_reward regs) ->
  fold_left (fun es r => absorb r es) regs entries = entries ++ map entry_of regs.
Proof.
  revert entries. induction regs as [|r regs IH]; intros entries Hnd; simpl.
  - now rewrite app_nil_r.
  - assert (Hfresh : reg_reward r ∉ map RewardAddr entries).
    { intros H. apply NoDup_app in Hnd as (_ & Hdisj & _).
      apply (Hdisj _ H). simpl. constructor. }
    rewrite absorb_fresh by assumption. rewrite IH.
    + now rewrite <- app_assoc.
    + rewrite map_app. simpl. rewrite <- app_assoc. exact Hnd.
Qed.

(** On sequences of one length, the entries of the consolidation have
    pairwise different reward addresses, each lists at least one node
    address, and there are at most as many entries as registrations; when
    the reward addresses of the council are pairwise different nothing is
    merged: there is one entry for each registration, in their order, with
    its node address, its staking address and its amount. *)
Theorem GetConsolidatedStakingInfo_entries (s : StakingInfo) :
  length (CouncilStakingAddrs s) = length (CouncilNodeAddrs s) ->
  length (CouncilRewardAddrs s) = length (CouncilNodeAddrs s) ->
  length (CouncilStakingAmounts s) = length (CouncilNodeAddrs s) ->
  exists c, GetConsolidatedStakingInfo s = Some c
    /\ NoDup (map RewardAddr (GetAllNodes c))
    /\ Forall (fun n => NodeAddrs n <> []) (GetAllNodes c)
    /\ (length (GetAllNodes c) <= length (CouncilNodeAddrs s))%nat
    /\ (NoDup (CouncilRewardAddrs s) ->
        GetAllNodes c
        = map (fun r => {| NodeAddrs := [reg_node r]; StakingAddrs := [reg_staking r];
                           RewardAddr := reg_reward r; StakingAmount := reg_amount r |})
            (registrations s)).
Proof.
  intros H1 H2 H3.
  destruct (GetConsolidatedStakingInfo_refines s H1 H2 H3) as (c & Hc & Hnodes).
  exists c. split; [exact Hc|]. unfold GetAllNodes. rewrite Hnodes. unfold spec_consolidate.
  destruct (spec_consolidate_entries (registrations s) []) as (Hnd & Hne & Hlen);
    [constructor..|].
  split; [exact Hnd|]. split; [exact Hne|]. split.
  - simpl in Hlen. unfold registrations in Hlen at 2.
    now rewrite registrations_of_length in Hlen.
  - intros Hdistinct. rewrite spec_consolidate_distinct; [reflexivity|].
    simpl. unfold registrations. now rewrite registrations_of_rewards.
Qed.

(** ** The coefficient and the order of the council *)

(** A single stake: the differences and the sum are those of one element,
    so a positive finite stake gives 0, and a stake of zero gives 0/0. *)
Theorem CalcGiniCoefficient_single (x : float64) :
  stake_value x = true ->
  CalcGiniCoefficient [x]
  = match x with
    | S754_finite _ _ _ => zero
    | _ => nan
    end.
Proof. destruct x as [[|]|[|]| |[|] m e]; try discriminate; intros _; reflexivity. Qed.

Lemma N_sum_app (l l' : list N) : N_sum (l ++ l') = (N_sum l + N_sum l')%N.
Proof. induction l as [|x l IH]; simpl; [reflexivity|]. rewrite IH. lia. Qed.

Lemma N_sum_perm (l l' : list N) : Permutation l l' -> N_sum l = N_sum l'.
Proof. induction 1; simpl; lia. Qed.

Lemma filter_perm (A : Type) (f : A -> bool) (l l' : list A) :
  Permutation l l' -> Permutation (List.filter f l) (List.filter f l').
Proof.
  induction 1 as [|x l l' _ IH|x y l|l l' l'' _ IH1 _ IH2]; simpl.
  - reflexivity.
  - destruct (f x); [now constructor | assumption].
  - destruct (f x), (f y); try reflexivity. apply perm_swap.
  - etransitivity; eassumption.
Qed.

Lemma reward_total_perm (regs regs' : list registration) (rewardAddr : Address) :
  Permutation regs regs' -> reward_total regs rewardAddr = reward_total regs' rewardAddr.
Proof.
  intros Hp. unfold reward_total. f_equal. apply N_sum_perm.
  apply Permutation_map. now apply filter_perm.
Qed.

Lemma reward_total_snoc (regs : list registration) (r : registration) (rewardAddr : Address) :
  reward_total (regs ++ [r]) rewardAddr
  = if (reg_reward r =? rewardAddr)%N
    then add64 (reward_total regs rewardAddr) (reg_amount r)
    else reward_total regs rewardAddr.
Proof.
  unfold reward_total. rewrite List.filter_app. simpl.
  destruct (reg_reward r =? rewardAddr)%N.
  - rewrite map_app, N_sum_app. simpl. unfold add64.
    rewrite N.Div0.add_mod_idemp_l. f_equal. lia.
  - now rewrite app_nil_r.
Qed.

Lemma reward_total_unseen (regs : list registration) (rewardAddr : Address) :
  rewardAddr ∉ map reg_reward regs -> reward_total regs rewardAddr = 0%N.
Proof.
  intros H. unfold reward_total.
  replace (List.filter (fun r => (reg_reward r =? rewardAddr)%N) regs) with (@nil registration);
    [reflexivity|].
  induction regs as [|r regs IH]; simpl; [reflexivity|].
  destruct (N.eqb_spec (reg_reward r) rewardAddr) as [E|E].
  - exfalso. apply H. simpl. rewrite E. constructor.
  - apply IH. intros H'. apply H. simpl. now constructor.
Qed.

(** What [absorb] leaves in the entries. *)
Lemma absorb_elem (r : registration) (entries : list consolidatedNode) (n : consolidatedNode) :
  NoDup (map RewardAddr entries) -> n ∈ absorb r entries ->
  (n ∈ entries /\ RewardAddr n <> reg_reward r)
  \/ (RewardAddr n = reg_reward r
      /\ (((reg_reward r ∉ map RewardAddr entries) /\ StakingAmount n = reg_amount r)
          \/ exists n0, n0 ∈ entries /\ RewardAddr n0 = reg_reward r
                        /\ StakingAmount n = add64 (StakingAmount n0) (reg_amount r))).
Proof.
  induction entries as [|n0 es IH]; simpl; intros Hnd Hin.
  - apply list_elem_of_singleton in Hin as ->. right. split; [reflexivity|].
    left. split; [apply not_elem_of_nil | reflexivity].
  - apply NoDup_cons in Hnd as [Hnotin Hnd].
    destruct (N.eqb_spec (RewardAddr n0) (reg_reward r)) as [E|E].
    + apply elem_of_cons in Hin as [->|Hin].
      * right. split; [exact E|]. right. exists n0. split; [constructor|]. auto.
      * left. split; [now constructor|]. intros E'. apply Hnotin. rewrite E, <- E'.
        now apply list_elem_of_fmap_2.
    + apply elem_of_cons in Hin as [->|Hin].
      * left. split; [constructor | exact E].
      * destruct (IH Hnd Hin) as [[H1 H2]|[H1 [[H2 H3]|(n1 & H2 & H3 & H4)]]].
        -- left. split; [now constructor | exact H2].
        -- right. split; [exact H1|]. left. split; [|exact H3].
           intros H. apply elem_of_cons in H as [H|H]; [congruence | contradiction].
        -- right. split; [exact H1|]. right. exists n1. split; [now constructor | auto].
Qed.

Lemma absorb_reward_set (r : registration) (entries : list consolidatedNode) (rw : Address) :
  rw ∈ map RewardAddr (absorb r entries)
  <-> rw ∈ map RewardAddr entries \/ rw = reg_reward r.
Proof.
  rewrite absorb_rewards.
  destruct (decide (reg_reward r ∈ map RewardAddr entries)) as [H|H].
  - split; [now left | intros [H'| ->]; assumption].
  - rewrite elem_of_app, list_elem_of_singleton. reflexivity.
Qed.

(** After the registrations [regs], the entries are those of the reward
    addresses registered, each with the total staked with it. *)
Lemma consolidate_totals (regs done : list registration) (entries : list consolidatedNode) :
  Forall (fun r => (reg_amount r < two64)%N) regs ->
  NoDup (map RewardAddr entries) ->
  (forall rw, rw ∈ map RewardAddr entries <-> rw ∈ map reg_reward done) ->
  (forall n, n ∈ entries -> StakingAmount n = reward_total done (RewardAddr n)) ->
  let entries' := fold_left (fun es r => absorb r es) regs entries in
  NoDup (map RewardAddr entries')
  /\ (forall rw, rw ∈ map RewardAddr entries' <-> rw ∈ map reg_reward (done ++ regs))
  /\ (forall n, n ∈ entries' -> StakingAmount n = reward_total (done ++ regs) (RewardAddr n)).
Proof.
  revert done entries. induction regs as [|r regs IH]; intros done entries Hb Hnd Hset Htot.
  - simpl. rewrite app_nil_r. auto.
  - apply Forall_cons in Hb as [Hr Hb]. simpl.
    replace (done ++ r :: regs) with ((done ++ [r]) ++ regs) by (now rewrite <- app_assoc).
    apply IH; [exact Hb | | | ].
    + rewrite absorb_rewards.
      destruct (decide (reg_reward r ∈ map RewardAddr entries)) as [H|H]; [assumption|].
      apply NoDup_app. split; [assumption|]. split; [|apply NoDup_singleton].
      intros x Hx Hx'. apply list_elem_of_singleton in Hx'. congruence.
    + intros rw. rewrite absorb_reward_set, Hset, map_app, elem_of_app. simpl.
      rewrite list_elem_of_singleton. reflexivity.
    + intros n Hin. rewrite reward_total_snoc.
      destruct (absorb_elem r entries n Hnd Hin)
        as [[H1 H2]|[H1 [[H2 H3]|(n1 & H2 & H3 & H4)]]].
      * destruct (N.eqb_spec (reg_reward r) (RewardAddr n)) as [E|_]; [congruence|].
        now apply Htot.
      * rewrite H1, N.eqb_refl. rewrite reward_total_unseen by (now rewrite <- Hset).
        rewrite H3. unfold add64. simpl. symmetry. now apply N.mod_small.
      * rewrite H1, N.eqb_refl, H4. f_equal. rewrite <- H3. now apply Htot.
Qed.

Lemma reward_amounts_perm (regs regs' : list registration) :
  Forall (fun r => (reg_amount r < two64)%N) regs ->
  Permutation regs regs' ->
  Permutation (reward_amounts (spec_consolidate regs))
              (reward_amounts (spec_consolidate regs')).
Proof.
  intros Hb Hp.
  assert (Hb' : Forall (fun r => (reg_amount r < two64)%N) regs')
    by (eapply Permutation_Forall; eassumption).
  assert (Hinit : forall rw : Address,
            rw ∈ map RewardAddr [] <-> rw ∈ map reg_reward (@nil registration))
    by reflexivity.
  assert (Hinit' : forall n : consolidatedNode,
            n ∈ [] -> StakingAmount n = reward_total [] (RewardAddr n))
    by (intros n H; now apply elem_of_nil in H).
  destruct (consolidate_totals regs [] [] Hb (NoDup_nil_2) Hinit Hinit') as (Hnd & Hset & Htot).
  destruct (consolidate_totals regs' [] [] Hb' (NoDup_nil_2) Hinit Hinit')
    as (Hnd' & Hset' & Htot').
  simpl in *. fold (spec_consolidate regs) in *. fold (spec_consolidate regs') in *.
  assert (Hchar : forall rs es,
            (forall rw, rw ∈ map RewardAddr es <-> rw ∈ map reg_reward rs) ->
            (forall n, n ∈ es -> StakingAmount n = reward_total rs (RewardAddr n)) ->
            forall rw a, (rw, a) ∈ reward_amounts es
                         <-> rw ∈ map reg_reward rs /\ a = reward_total rs rw).
  { intros rs es Hs Ht rw a. unfold reward_amounts. split.
    - intros H. apply list_elem_of_fmap in H as (n & [= -> ->] & Hn).
      split; [|now apply Ht]. apply Hs. now apply list_elem_of_fmap_2.
    - intros [H ->]. apply Hs in H. apply list_elem_of_fmap in H as (n & -> & Hn).
      apply list_elem_of_fmap. exists n. split; [|exact Hn]. f_equal. symmetry. now apply Ht. }
  assert (Hnodup : forall es, NoDup (map RewardAddr es) -> NoDup (reward_amounts es)).
  { intros es H. apply (NoDup_fmap_1 fst). unfold reward_amounts.
    rewrite <- list_fmap_compose. exact H. }
  apply NoDup_Permutation; [now apply Hnodup | now apply Hnodup|].
  intros [rw a]. rewrite (Hchar regs _ Hset Htot), (Hchar regs' _ Hset' Htot').
  rewrite (reward_total_perm regs regs' rw Hp).
  assert (Hmem : rw ∈ map reg_reward regs <-> rw ∈ map reg_reward regs').
  { split; intros H; eapply elem_of_Permutation_proper; try exact H;
      [symmetry|]; now apply Permutation_map. }
  now rewrite Hmem.
Qed.

(** The coefficient is a function of the stakes of the entries, in any
    order. *)
Lemma CalcGiniCoefficientMinStake_amounts (c c' : ConsolidatedStakingInfo)
    (minStake : uint64) :
  Permutation (map StakingAmount (nodes c)) (map StakingAmount (nodes c')) ->
  CalcGiniCoefficientMinStake c minStake = CalcGiniCoefficientMinStake c' minStake.
Proof.
  intros Hp. unfold CalcGiniCoefficientMinStake.
  assert (Hmap : forall ns,
            eligible_amounts ns minStake
            = map of_uint64 (List.filter (fun a => (minStake <=? a)%N) (map StakingAmount ns))).
  { intros ns. rewrite eligible_amounts_filter.
    induction ns as [|n ns IH]; simpl; [reflexivity|].
    destruct (minStake <=? StakingAmount n)%N; simpl; now rewrite IH. }
  assert (Hperm : Permutation (eligible_amounts (nodes c) minStake)
                    (eligible_amounts (nodes c') minStake)).
  { rewrite !Hmap. apply Permutation_map. now apply filter_perm. }
  rewrite (Permutation_length Hperm).
  destruct (length (eligible_amounts (nodes c') minStake) =? 0)%nat; [reflexivity|].
  unfold CalcGiniCoefficient.
  now rewrite (sort_float64s_permutation _ _ (eligible_amounts_stake_values _ _) Hperm).
Qed.

(** The coefficient of a council does not depend on the order of its
    registrations: two snapshots (sequences of one length, amounts below
    [2^64]) with the same registrations in different orders have entries
    with the same stakes, and the same coefficient for every minimum stake. *)
Theorem CalcGiniCoefficientMinStake_registration_order (s s' : StakingInfo)
    (minStake : uint64) :
  length (CouncilStakingAddrs s) = length (CouncilNodeAddrs s) ->
  length (CouncilRewardAddrs s) = length (CouncilNodeAddrs s) ->
  length (CouncilStakingAmounts s) = length (CouncilNodeAddrs s) ->
  length (CouncilStakingAddrs s') = length (CouncilNodeAddrs s') ->
  length (CouncilRewardAddrs s') = length (CouncilNodeAddrs s') ->
  length (CouncilStakingAmounts s') = length (CouncilNodeAddrs s') ->
  Forall (fun a => (a < two64)%N) (CouncilStakingAmounts s) ->
  Permutation (registrations s) (registrations s') ->
  exists c c',
    GetConsolidatedStakingInfo s = Some c /\ GetConsolidatedStakingInfo s' = Some c'
    /\ Permutation (map StakingAmount (GetAllNodes c)) (map StakingAmount (GetAllNodes c'))
    /\ CalcGiniCoefficientMinStake c minStake = CalcGiniCoefficientMinStake c' minStake.
Proof.
  intros H1 H2 H3 H1' H2' H3' Hb Hp.
  destruct (GetConsolidatedStakingInfo_refines s H1 H2 H3) as (c & Hc & Hnodes).
  destruct (GetConsolidatedStakingInfo_refines s' H1' H2' H3') as (c' & Hc' & Hnodes').
  exists c, c'. split; [exact Hc|]. split; [exact Hc'|].
  assert (Hamounts : Permutation (map StakingAmount (nodes c)) (map StakingAmount (nodes c'))).
  { rewrite Hnodes, Hnodes'.
    assert (Hsnd : forall es, map StakingAmount es = map snd (reward_amounts es)).
    { intros es. unfold reward_amounts. rewrite map_map. reflexivity. }
    rewrite !Hsnd. apply Permutation_map. apply reward_amounts_perm; [|exact Hp].
    apply Forall_forall. intros r Hr.
    assert (Hin : reg_amount r ∈ CouncilStakingAmounts s).
    { rewrite <- (registrations_of_amounts (CouncilNodeAddrs s) (CouncilStakingAddrs s)
                    (CouncilRewardAddrs s) (CouncilStakingAmounts s) H1 H2 H3).
      now apply list_elem_of_fmap_2. }
    rewrite Forall_forall in Hb. now apply Hb. }
  split; [exact Hamounts|]. now apply CalcGiniCoefficientMinStake_amounts.
Qed.

(** ** The argument of CalcGiniCoefficient after the call *)

(** [CalcGiniCoefficient] sorts the slice it is given: after the call the
    caller's slice of stake amounts holds the same amounts in ascending
    order. A second call on that slice gives the same coefficient and leaves
    the slice as it is. *)
Theorem CalcGiniCoefficient_sorts_argument (stakingAmount : list float64) :
  Forall (fun y => stake_value y = true) stakingAmount ->
  Sorted stake_le (CalcGiniCoefficient_argument stakingAmount)
  /\ Permutation (CalcGiniCoefficient_argument stakingAmount) stakingAmount
  /\ CalcGiniCoefficient (CalcGiniCoefficient_argument stakingAmount)
     = CalcGiniCoefficient stakingAmount
  /\ CalcGiniCoefficient_argument (CalcGiniCoefficient_argument stakingAmount)
     = CalcGiniCoefficient_argument stakingAmount.
Proof.
  intros Hl. unfold CalcGiniCoefficient_argument.
  assert (Hidem : sort_float64s (sort_float64s stakingAmount) = sort_float64s stakingAmount).
  { symmetry. apply sort_float64s_permutation; [assumption|].
    symmetry. apply sort_float64s_perm. }
  split; [now apply sort_float64s_sorted|]. split; [apply sort_float64s_perm|].
  split; [|exact Hidem]. unfold CalcGiniCoefficient. now rewrite Hidem.
Qed.

(** ** What an entry holds *)

Lemma registered_with_snoc (rw : Address) (regs : list registration) (r : registration) :
  registered_with rw (regs ++ [r])
  = if (reg_reward r =? rw)%N then registered_with rw regs ++ [r]
    else registered_with rw regs.
Proof.
  unfold registered_with. rewrite List.filter_app. simpl.
  destruct (reg_reward r =? rw)%N; [reflexivity | now rewrite app_nil_r].
Qed.

Lemma registered_with_unseen (rw : Address) (regs : list registration) :
  rw ∉ map reg_reward regs -> registered_with rw regs = [].
Proof.
  intros H. unfold registered_with.
  induction regs as [|r regs IH]; simpl; [reflexivity|].
  destruct (N.eqb_spec (reg_reward r) rw) as [E|E].
  - exfalso. apply H. simpl. rewrite E. constructor.
  - apply IH. intros H'. apply H. simpl. now constructor.
Qed.

Lemma absorb_elem_node (r : registration) (entries : list consolidatedNode)
    (n : consolidatedNode) :
  NoDup (map RewardAddr entries) -> n ∈ absorb r entries ->
  (n ∈ entries /\ RewardAddr n <> reg_reward r)
  \/ ((reg_reward r ∉ map RewardAddr entries) /\ n = entry_of r)
  \/ exists n0, n0 ∈ entries /\ RewardAddr n0 = reg_reward r
                /\ n = extend_node n0 (reg_node r) (reg_staking r) (reg_amount r).
Proof.
  induction entries as [|n0 es IH]; simpl; intros Hnd Hin.
  - apply list_elem_of_singleton in Hin as ->. right. left.
    split; [apply not_elem_of_nil | reflexivity].
  - apply NoDup_cons in Hnd as [Hnotin Hnd].
    destruct (N.eqb_spec (RewardAddr n0) (reg_reward r)) as [E|E].
    + apply elem_of_cons in Hin as [->|Hin].
      * right. right. exists n0. split; [constructor|]. auto.
      * left. split; [now constructor|]. intros E'. apply Hnotin. rewrite E, <- E'.
        now apply list_elem_of_fmap_2.
    + apply elem_of_cons in Hin as [->|Hin].
      * left. split; [constructor | exact E].
      * destruct (IH Hnd Hin) as [[H1 H2]|[[H1 H2]|(n1 & H1 & H2 & H3)]].
        -- left. split; [now constructor | exact H2].
        -- right. left. split; [|exact H2].
           intros H. apply elem_of_cons in H as [H|H]; [congruence | contradiction].
        -- right. right. exists n1. split; [now constructor | auto].
Qed.

Lemma consolidate_contents (regs done : list registration) (entries : list consolidatedNode) :
  NoDup (map RewardAddr entries) ->
  (forall rw, rw ∈ map RewardAddr entries <-> rw ∈ map reg_reward done) ->
  (forall n, n ∈ entries ->
     NodeAddrs n = map reg_node (registered_with (RewardAddr n) done)
     /\ StakingAddrs n = map reg_staking (registered_with (RewardAddr n) done)) ->
  forall n, n ∈ fold_left (fun es r => absorb r es) regs entries ->
    NodeAddrs n = map reg_node (registered_with (RewardAddr n) (done ++ regs))
    /\ StakingAddrs n = map reg_staking (registered_with (RewardAddr n) (done ++ regs)).
Proof.
  revert done entries. induction regs as [|r regs IH]; intros done entries Hnd Hset Hcont.
  - simpl. rewrite app_nil_r. exact Hcont.
  - simpl.
    replace (done ++ r :: regs) with ((done ++ [r]) ++ regs) by (now rewrite <- app_assoc).
    apply IH.
    + now apply absorb_nodup.
    + intros rw. rewrite absorb_reward_set, Hset, map_app, elem_of_app. simpl.
      rewrite list_elem_of_singleton. reflexivity.
    + intros n Hin. rewrite registered_with_snoc.
      destruct (absorb_elem_node r entries n Hnd Hin)
        as [[H1 H2]|[[H1 H2]|(n0 & H1 & H2 & H3)]].
      * destruct (N.eqb_spec (reg_reward r) (RewardAddr n)) as [E|_]; [congruence|].
        now apply Hcont.
      * subst n. simpl. rewrite N.eqb_refl.
        rewrite registered_with_unseen by (now rewrite <- Hset). split; reflexivity.
      * subst n. simpl. rewrite H2, N.eqb_refl, !map_app. simpl.
        destruct (Hcont n0 H1) as [Hn Hs]. rewrite H2 in Hn, Hs.
        now rewrite Hn, Hs.
Qed.

(** On sequences of one length, an entry of the consolidation holds the
    node addresses and the staking addresses of the registrations with its
    reward address, in the order of the registrations, and (amounts below
    [2^64]) its StakingAmount is the sum on uint64 of their amounts. *)
Theorem GetConsolidatedStakingInfo_entry_contents (s : StakingInfo) :
  length (CouncilStakingAddrs s) = length (CouncilNodeAddrs s) ->
  length (CouncilRewardAddrs s) = length (CouncilNodeAddrs s) ->
  length (CouncilStakingAmounts s) = length (CouncilNodeAddrs s) ->
  exists c, GetConsolidatedStakingInfo s = Some c
    /\ forall n, n ∈ GetAllNodes c ->
         NodeAddrs n = map reg_node (registered_with (RewardAddr n) (registrations s))
         /\ StakingAddrs n
            = map reg_staking (registered_with (RewardAddr n) (registrations s))
         /\ (Forall (fun a => (a < two64)%N) (CouncilStakingAmounts s) ->
             StakingAmount n
             = sum64 (map reg_amount (registered_with (RewardAddr n) (registrations s)))).
Proof.
  intros H1 H2 H3.
  destruct (GetConsolidatedStakingInfo_refines s H1 H2 H3) as (c & Hc & Hnodes).
  exists c. split; [exact Hc|]. unfold GetAllNodes. rewrite Hnodes. unfold spec_consolidate.
  intros n Hn.
  assert (Hinit : forall rw : Address,
            rw ∈ map RewardAddr [] <-> rw ∈ map reg_reward (@nil registration))
    by reflexivity.
  destruct (consolidate_contents (registrations s) [] [] (NoDup_nil_2) Hinit) with (n := n)
    as [Hnode Hstaking]; [intros n' H'; now apply elem_of_nil in H' | exact Hn |].
  simpl in Hnode, Hstaking. split; [exact Hnode|]. split; [exact Hstaking|].
  intros Hb.
  assert (Hregs : Forall (fun r => (reg_amount r < two64)%N) (registrations s)).
  { apply Forall_forall. intros r Hr.
    assert (Hin : reg_amount r ∈ CouncilStakingAmounts s).
    { rewrite <- (registrations_of_amounts (CouncilNodeAddrs s) (CouncilStakingAddrs s)
                    (CouncilRewardAddrs s) (CouncilStakingAmounts s) H1 H2 H3).
      now apply list_elem_of_fmap_2. }
    rewrite Forall_forall in Hb. now apply Hb. }
  assert (Hinit' : forall n' : consolidatedNode,
            n' ∈ [] -> StakingAmount n' = reward_total [] (RewardAddr n'))
    by (intros n' H'; now apply elem_of_nil in H').
  destruct (consolidate_totals (registrations s) [] [] Hregs (NoDup_nil_2) Hinit Hinit')
    as (_ & _ & Htot).
  simpl in Htot. rewrite (Htot n Hn). rewrite sum64_mod. reflexivity.
Qed.

Lemma CalcGiniCoefficient_sorts_argument_witness :
  CalcGiniCoefficient_argument [of_uint64 7; of_uint64 0; of_uint64 5]%N
  = [of_uint64 0; of_uint64 5; of_uint64 7]%N
  /\ Sorted stake_le (CalcGiniCoefficient_argument [of_uint64 7; of_uint64 0; of_uint64 5]%N).
Proof.
  split; [reflexivity|].
  apply (CalcGiniCoefficient_sorts_argument [of_uint64 7; of_uint64 0; of_uint64 5]%N).
  repeat constructor.
Defined.

(** The entry of reward address 21 of [example_info]. *)
Lemma GetConsolidatedStakingInfo_entry_contents_witness :
  exists c, GetConsolidatedStakingInfo example_info = Some c
    /\ forall n, n ∈ GetAllNodes c -> RewardAddr n = 21%N ->
         NodeAddrs n = [1; 2]%N /\ StakingAddrs n = [5; 7]%N.
Proof.
  destruct (GetConsolidatedStakingInfo_entry_contents example_info eq_refl eq_refl eq_refl)
    as (c & Hc & H).
  exists c. split; [exact Hc|]. intros n Hn Hr.
  destruct (H n Hn) as (Hnode & Hstaking & _). rewrite Hr in Hnode, Hstaking.
  split; assumption.
Defined.

(** ** The balances read by newStakingInfo *)

Lemma staking_amount_clamps (klay balance : Z) :
  0 < klay -> 0 <= balance ->
  staking_amount klay balance
  = Some (Z.to_N (Z.min (balance / klay) (Z.of_N maxStakingLimit))).
Proof.
  intros Hk Hb. unfold staking_amount, big_Div.
  destruct (Z.eqb_spec klay 0) as [E|_]; [exfalso; lia|]. simpl.
  rewrite Z.sgn_pos, Z.abs_eq, Z.mul_1_l by lia.
  assert (Hq : 0 <= balance / klay) by (apply Z.div_pos; lia).
  unfold big_Uint64. revert Hq. generalize (balance / klay). intros q Hq.
  change (Z.of_N maxStakingLimit) with 100000000000.
  destruct (Z.ltb_spec 100000000000 q) as [Hlt|Hge].
  - rewrite Z.min_r by lia. reflexivity.
  - rewrite Z.min_l by lia. rewrite Z.abs_eq by lia. f_equal.
    apply N.mod_small. unfold two64. lia.
Qed.

Lemma staking_amounts_clamp (klay : Z) (statedb : Address -> Z) (stakingAddrs : list Address) :
  0 < klay -> (forall a, 0 <= statedb a) ->
  staking_amounts klay statedb stakingAddrs
  = Some (map (fun a => Z.to_N (Z.min (statedb a / klay) (Z.of_N maxStakingLimit)))
            stakingAddrs).
Proof.
  intros Hk Hb. induction stakingAddrs as [|a l IH]; simpl; [reflexivity|].
  rewrite staking_amount_clamps by auto. simpl. rewrite IH. reflexivity.
Qed.

Section ManagerExtras.

Context {Ext : Type} (env : Collaborators Ext).

#[local] Arguments newStakingInfo : simpl never.
#[local] Arguments getStakingInfoFromAddressBook : simpl never.
#[local] Arguments getStakingInfoFromDB : simpl never.
#[local] Arguments AddStakingInfoToDB : simpl never.
#[local] Arguments fillMissingGiniCoefficient : simpl never.
#[local] Arguments stakingInfoCache_add : simpl never.
#[local] Arguments updateStakingInfo : simpl never.
#[local] Arguments CheckStakingInfoStored : simpl never.
#[local] Arguments GetStakingInfoOnStakingBlock : simpl never.
#[local] Arguments CalcGiniCoefficientMinStake : simpl never.
#[local] Arguments GetConsolidatedStakingInfo : simpl never.
#[local] Arguments staking_amounts : simpl never.

Ltac steps := unfold mbind, M_bind, mret, M_ret, managerIsSet, record, call, load,
  store, alloc, panic; simpl.

Ltac finish H :=
  injection H as <- <-; simpl; rewrite <- ?app_assoc; simpl.



(** *** What the parts of a call do *)

Lemma same_control_refl (w : World Ext) : same_control w w.
Proof. repeat split. Qed.

Lemma same_control_trans (w1 w2 w3 : World Ext) :
  same_control w1 w2 -> same_control w2 w3 -> same_control w1 w3.
Proof. unfold same_control. intros (? & ? & ?) (? & ? & ?). repeat split; congruence. Qed.

Lemma fill_cases (p : nat) (number : uint64) (w w' : World Ext) (r : option error)
    (s : StakingInfo) :
  heap w !! p = Some s ->
  fillMissingGiniCoefficient env p number w = Some (r, w') ->
  same_control w w'
  /\ exists tG g,
       (tG = [] \/ tG = [GovMinimumStaking number])
       /\ trace w' = trace w ++ tG
       /\ heap w' = <[p := set_Gini s g]> (heap w)
       /\ heap w' !! p = Some (set_Gini s g).
Proof.
  intros Hp H.
  assert (Hid : heap w = <[p := set_Gini s (Gini s)]> (heap w)).
  { symmetry. apply list_insert_id. rewrite Hp. now destruct s. }
  assert (Hlt : (p < length (heap w))%nat) by (now apply lookup_lt_Some in Hp).
  assert (Hnoop : fillMissingGiniCoefficient env p number w = Some (None, w) ->
            same_control w w'
            /\ exists tG g,
                 (tG = [] \/ tG = [GovMinimumStaking number])
                 /\ trace w' = trace w ++ tG
                 /\ heap w' = <[p := set_Gini s g]> (heap w)
                 /\ heap w' !! p = Some (set_Gini s g)).
  { intros E. rewrite E in H. injection H as <- <-. split; [apply same_control_refl|].
    exists [], (Gini s). rewrite app_nil_r, set_Gini_same.
    split; [now left|]. split; [reflexivity|].
    split; [rewrite set_Gini_same in Hid; exact Hid | exact Hp]. }
  destruct (UseGini s) eqn:Hu; [destruct (geb (Gini s) zero) eqn:Hg|].
  - apply Hnoop. apply (fill_noop env p number w s Hp). auto.
  - destruct (stakingManager w) eqn:Hset.
    2:{ rewrite (fill_unset env p number w s Hp Hset Hu Hg) in H. discriminate. }
    rewrite (fill_recomputes env p number w s Hp Hset Hu Hg) in H.
    destruct (GetMinimumStakingAtNumber env number (ext w)) as [[minStaking|err] e].
    + destruct (GetConsolidatedStakingInfo s) as [c|]; [|discriminate].
      injection H as <- <-. split; [repeat split|]. simpl.
      eexists _, _. split; [now right|]. split; [reflexivity|]. split; [reflexivity|].
      now apply list_lookup_insert_eq.
    + injection H as <- <-. split; [repeat split|]. simpl.
      exists [GovMinimumStaking number], (Gini s). split; [now right|].
      split; [reflexivity|]. rewrite set_Gini_same.
      rewrite set_Gini_same in Hid. split; [exact Hid | exact Hp].
  - apply Hnoop. apply (fill_noop env p number w s Hp). auto.
Qed.

Lemma newStakingInfo_control (blockNum : uint64) (ns ss rs : list Address) (k p : Address)
    (w w' : World Ext) (r : option nat * option error) :
  newStakingInfo env blockNum ns ss rs k p w = Some (r, w') -> same_control w w'.
Proof.
  unfold newStakingInfo. steps. intros H.
  destruct (GetBlockByNumber env blockNum (ext w)) as [[root|] e1]; simpl in H.
  2:{ finish H. repeat split. }
  destruct (StateAt env root e1) as [[statedb|err] e2]; simpl in H.
  2:{ finish H. repeat split. }
  destruct (staking_amounts (KLAY env) statedb ss) as [amounts|]; [|discriminate].
  simpl in H.
  destruct (GetUseGiniCoeff env blockNum e2) as [[[useGini|]|err] e3]; simpl in H;
    [| discriminate |]; finish H; repeat split.
Qed.

Lemma reader_control (blockNum : uint64) (w w' : World Ext)
    (r : option nat * option error) :
  getStakingInfoFromAddressBook env blockNum w = Some (r, w') -> same_control w w'.
Proof.
  unfold getStakingInfoFromAddressBook. steps. intros H.
  destruct (callAddressBook env blockNum (ext w)) as [[ab|err] e1]; simpl in H.
  - apply newStakingInfo_control in H. exact H.
  - finish H. repeat split.
Qed.

(** The outcomes of [updateStakingInfo] with a manager: the reader failed;
    or the write failed, and the snapshot keeps the sentinel and is not
    cached; or the snapshot was written, fixed up and cached. *)
Lemma update_cases (blockNum : uint64) (w w' : World Ext)
    (r : option nat * option error) :
  stakingManager w = true ->
  updateStakingInfo env blockNum w = Some (r, w') ->
  same_control w w'
  /\ exists tA, forallb reader_access tA = true
     /\ ((exists e, r = (None, Some e) /\ trace w' = trace w ++ tA /\ heap w' = heap w)
         \/ (exists s e,
               r = (Some (length (heap w)), Some e)
               /\ trace w' = trace w ++ tA ++ [DBWrite s (Some e)]
               /\ Gini s = DefaultGiniCoefficient /\ BlockNum s = blockNum
               /\ heap w' = heap w ++ [s])
         \/ (exists s tG g e,
               r = (Some (length (heap w)), None)
               /\ trace w' = trace w ++ tA ++ DBWrite s None :: tG
                                      ++ [CacheAdd (length (heap w))]
               /\ (tG = [] \/ tG = [GovMinimumStaking blockNum])
               /\ Gini s = DefaultGiniCoefficient /\ BlockNum s = blockNum
               /\ heap w' = heap w ++ [set_Gini s g]
               /\ ext w' = cache_add env (length (heap w)) (set_Gini s g) e)).
Proof.
  intros Hset H. unfold updateStakingInfo in H.
  unfold mbind, M_bind, mret, M_ret, managerIsSet, panic in H. simpl in H.
  rewrite Hset in H. simpl in H.
  destruct (getStakingInfoFromAddressBook env blockNum w) as [[[sp err] w1]|] eqn:Hrd;
    [|discriminate].
  pose proof (reader_control _ _ _ _ Hrd) as Hc1.
  apply getStakingInfoFromAddressBook_inv in Hrd
    as (tA & Ht & HtA & _ & [(e & Hr & Hh) | (s & Hr & Hh & Hg & Hb)]).
  - injection Hr as -> ->. injection H as <- <-. split; [exact Hc1|].
    exists tA. split; [exact HtA|]. left. eauto.
  - injection Hr as -> ->.
    assert (Hp : heap w1 !! length (heap w) = Some s)
      by (rewrite Hh; now apply list_lookup_middle).
    rewrite (AddStakingInfoToDB_eq env _ _ _ Hp) in H.
    destruct (db_write env s (ext w1)) as [[e|] e1].
    + injection H as <- <-. split; [exact Hc1|]. exists tA. split; [exact HtA|].
      right. left. exists s, e. simpl. rewrite Ht, <- app_assoc. auto.
    + set (w2 := log_access (DBWrite s None) (set_ext e1 w1)) in H.
      assert (Hp2 : heap w2 !! length (heap w) = Some s) by exact Hp.
      destruct (fillMissingGiniCoefficient env (length (heap w)) blockNum w2)
        as [[rf w3]|] eqn:Hfill; [|discriminate].
      apply (fill_cases _ _ _ _ _ _ Hp2) in Hfill
        as (Hc3 & tG & g & HtG & Ht3 & Hh3 & Hp3).
      rewrite (stakingInfoCache_add_eq env _ _ _ Hp3) in H.
      injection H as <- <-. split.
      { eapply same_control_trans; [exact Hc1|]. exact Hc3. }
      exists tA. split; [exact HtA|]. right. right.
      exists s, tG, g, (ext w3). simpl. rewrite Ht3. unfold w2. simpl.
      rewrite Ht, Hh3. simpl. rewrite Hh, insert_last, <- !app_assoc. simpl.
      repeat (split; [solve [auto]|]). reflexivity.
Qed.


(** *** When the fixup panics *)


(** *** The tiers of GetStakingInfoOnStakingBlock *)

Lemma get_unfold (stakingBlockNumber : uint64) (w : World Ext) :
  stakingManager w = true ->
  IsStakingUpdateInterval env stakingBlockNumber = true ->
  GetStakingInfoOnStakingBlock env stakingBlockNumber w
  = let '(cached, e1) := cache_get env stakingBlockNumber (ext w) in
    let w1 := set_ext e1 (log_access (CacheGet stakingBlockNumber) w) in
    match cached with
    | Some p =>
        match fillMissingGiniCoefficient env p stakingBlockNumber w1 with
        | Some (_, w2) => Some (Some p, w2)
        | None => None
        end
    | None =>
        match getStakingInfoFromDB env stakingBlockNumber w1 with
        | Some (Some p, None, w2) =>
            match fillMissingGiniCoefficient env p stakingBlockNumber w2 with
            | Some (_, w3) =>
                match stakingInfoCache_add env p w3 with
                | Some (_, w4) => Some (Some p, w4)
                | None => None
                end
            | None => None
            end
        | Some (_, _, w2) =>
            match updateStakingInfo env stakingBlockNumber w2 with
            | Some (r, _, w3) => Some (r, w3)
            | None => None
            end
        | None => None
        end
    end.
Proof.
  intros Hset Hint. unfold GetStakingInfoOnStakingBlock, stakingInfoCache_get.
  unfold mbind, M_bind, mret, M_ret, managerIsSet, record, call. simpl.
  rewrite Hset, Hint. simpl.
  destruct (cache_get env stakingBlockNumber (ext w)) as [[p|] e1]; simpl.
  - destruct (fillMissingGiniCoefficient env p stakingBlockNumber _) as [[? ?]|]; reflexivity.
  - destruct (getStakingInfoFromDB env stakingBlockNumber _) as [[[[p|] [err|]] w2]|];
      try reflexivity.
    all: destruct (updateStakingInfo env stakingBlockNumber w2) as [[[? ?] ?]|];
      reflexivity.
Qed.

(** Without a manager every entry point returns at once, nil or
    [ErrStakingManagerNotSet], and leaves the world as it is: no access is
    made, and the prerequisite stops at its first check. *)
Theorem entry_points_without_manager (blockNum : uint64) (w : World Ext) :
  stakingManager w = false ->
  GetStakingInfoOnStakingBlock env blockNum w = Some (None, w)
  /\ GetStakingInfo env blockNum w = Some (None, w)
  /\ updateStakingInfo env blockNum w = Some (None, Some ErrStakingManagerNotSet, w)
  /\ CheckStakingInfoStored env blockNum w = Some (Some ErrStakingManagerNotSet, w)
  /\ migrationPrerequisite env blockNum w = Some (Some ErrStakingManagerNotSet, w).
Proof.
  intros Hset.
  assert (Hget : forall n, GetStakingInfoOnStakingBlock env n w = Some (None, w)).
  { intros n. unfold GetStakingInfoOnStakingBlock. steps. now rewrite Hset. }
  assert (Hcheck : CheckStakingInfoStored env blockNum w
                   = Some (Some ErrStakingManagerNotSet, w)).
  { unfold CheckStakingInfoStored. steps. now rewrite Hset. }
  split; [apply Hget|]. split; [apply Hget|]. split; [|split; [exact Hcheck|]].
  - unfold updateStakingInfo. steps. now rewrite Hset.
  - unfold migrationPrerequisite. unfold mbind, M_bind, mret, M_ret. now rewrite Hcheck.
Qed.

(** When the cache misses and the database has the snapshot, the snapshot
    returned is a new object holding the stored one with its gini fixed up,
    and that object is added to the cache; the accesses are the lookup in the
    cache, the read of the database, at most the governance query of the
    fixup, and the insertion into the cache: nothing is written to the
    database and neither the chain nor the address book is read. *)
Theorem GetStakingInfoOnStakingBlock_db_hit (stakingBlockNumber : uint64)
    (w w' : World Ext) (s : StakingInfo) (e1 e2 : Ext) (r : option nat) :
  stakingManager w = true ->
  IsStakingUpdateInterval env stakingBlockNumber = true ->
  cache_get env stakingBlockNumber (ext w) = (None, e1) ->
  db_read env stakingBlockNumber e1 = (Some s, None, e2) ->
  GetStakingInfoOnStakingBlock env stakingBlockNumber w = Some (r, w') ->
  r = Some (length (heap w))
  /\ exists tG g e,
       (tG = [] \/ tG = [GovMinimumStaking stakingBlockNumber])
       /\ trace w' = trace w ++ [CacheGet stakingBlockNumber;
                                 DBRead stakingBlockNumber (Some s) None]
                             ++ tG ++ [CacheAdd (length (heap w))]
       /\ heap w' = heap w ++ [set_Gini s g]
       /\ ext w' = cache_add env (length (heap w)) (set_Gini s g) e.
Proof.
  intros Hset Hint Hc Hdb H. rewrite (get_unfold _ _ Hset Hint), Hc in H.
  cbv beta iota zeta in H.
  rewrite getStakingInfoFromDB_eq in H. simpl in H. rewrite Hdb in H.
  set (w2 := set_heap _ _) in H.
  assert (Hp : heap w2 !! length (heap w) = Some s)
    by (now apply list_lookup_middle).
  destruct (fillMissingGiniCoefficient env (length (heap w)) stakingBlockNumber w2)
    as [[rf w3]|] eqn:Hfill; [|discriminate].
  apply (fill_cases _ _ _ _ _ _ Hp) in Hfill as (_ & tG & g & HtG & Ht3 & Hh3 & Hp3).
  rewrite (stakingInfoCache_add_eq env _ _ _ Hp3) in H.
  injection H as <- <-. split; [reflexivity|].
  exists tG, g, (ext w3). simpl. rewrite Ht3, Hh3. unfold w2. simpl.
  rewrite insert_last, <- !app_assoc. simpl. auto.
Qed.



(** *** After a miss, a hit *)

(** With a cache that returns a snapshot just added under its block
    number, and a database whose answer to the read is a snapshot of the
    block asked for: a call that missed the cache and ended by adding its
    snapshot to the cache makes the next call for that block a hit, which
    returns the same object and accesses the cache and at most the
    governance. *)
Theorem GetStakingInfoOnStakingBlock_next_call_hits (stakingBlockNumber : uint64)
    (w w1 w2 : World Ext) (p : nat) (e0 : Ext) (r : option nat) :
  (forall q s e, fst (cache_get env (BlockNum s) (cache_add env q s e)) = Some q) ->
  (forall s err e', db_read env stakingBlockNumber e0 = (Some s, err, e') ->
     BlockNum s = stakingBlockNumber) ->
  stakingManager w = true ->
  IsStakingUpdateInterval env stakingBlockNumber = true ->
  cache_get env stakingBlockNumber (ext w) = (None, e0) ->
  GetStakingInfoOnStakingBlock env stakingBlockNumber w = Some (Some p, w1) ->
  last (trace w1) = Some (CacheAdd p) ->
  GetStakingInfoOnStakingBlock env stakingBlockNumber w1 = Some (r, w2) ->
  r = Some p
  /\ exists tG s g,
       (tG = [] \/ tG = [GovMinimumStaking stakingBlockNumber])
       /\ trace w2 = trace w1 ++ CacheGet stakingBlockNumber :: tG
       /\ heap w1 !! p = Some s
       /\ heap w2 = <[p := set_Gini s g]> (heap w1).
Proof.
  intros Hcache Hdb Hset Hint Hc H1 Hlast H2.
  assert (Hw1 : stakingManager w1 = true
                /\ exists s e, heap w1 !! p = Some s
                               /\ BlockNum s = stakingBlockNumber
                               /\ ext w1 = cache_add env p s e).
  { rewrite (get_unfold _ _ Hset Hint), Hc in H1. cbv beta iota zeta in H1.
    rewrite getStakingInfoFromDB_eq in H1. simpl in H1.
    destruct (db_read env stakingBlockNumber e0) as [[stored err] e1] eqn:Hrd.
    assert (Hupd : forall w2',
              stakingManager w2' = true ->
              match updateStakingInfo env stakingBlockNumber w2' with
              | Some (r, _, w3) => Some (r, w3)
              | None => None
              end = Some (Some p, w1) ->
              stakingManager w1 = true
              /\ exists s e, heap w1 !! p = Some s
                             /\ BlockNum s = stakingBlockNumber
                             /\ ext w1 = cache_add env p s e).
    { intros w2' Hset2 H.
      destruct (updateStakingInfo env stakingBlockNumber w2') as [[[r' err'] w3]|] eqn:Hu;
        [|discriminate].
      injection H as -> ->.
      apply (update_cases _ _ _ _ Hset2) in Hu as ((Hm & _) & tA & HtA & Hcases).
      split; [congruence|].
      destruct Hcases as [(e & Hr & Ht & Hh) | [(s & e & Hr & Ht & Hg & Hb & Hh)
                                              | (s & tG & g & e & Hr & Ht & HtG & Hg & Hb & Hh & He)]].
      - discriminate.
      - exfalso. rewrite Ht, !app_assoc, last_snoc in Hlast. discriminate.
      - injection Hr as -> _. exists (set_Gini s g), e.
        split; [rewrite Hh; now apply list_lookup_middle|]. split; [exact Hb | exact He]. }
    destruct stored as [s0|], err as [e|]; cbv beta iota zeta in H1;
      try (refine (Hupd _ _ H1); exact Hset).
    set (w2' := set_heap _ _) in H1.
    assert (Hp : heap w2' !! length (heap w) = Some s0)
      by (now apply list_lookup_middle).
    destruct (fillMissingGiniCoefficient env (length (heap w)) stakingBlockNumber w2')
      as [[rf w3]|] eqn:Hfill; [|discriminate].
    apply (fill_cases _ _ _ _ _ _ Hp) in Hfill as ((Hm & _) & tG & g & HtG & Ht3 & Hh3 & Hp3).
    rewrite (stakingInfoCache_add_eq env _ _ _ Hp3) in H1.
    injection H1 as <- <-. simpl. split; [rewrite Hm; exact Hset|].
    exists (set_Gini s0 g), (ext w3). split; [exact Hp3|].
    split; [exact (Hdb _ _ _ eq_refl) | reflexivity]. }
  destruct Hw1 as (Hset1 & s & e & Hp & Hb & He).
  rewrite (get_unfold _ _ Hset1 Hint) in H2.
  pose proof (Hcache p s e) as Hget. rewrite Hb, <- He in Hget.
  destruct (cache_get env stakingBlockNumber (ext w1)) as [cached e1].
  simpl in Hget. subst cached. cbv beta iota zeta in H2.
  set (w1' := set_ext e1 _) in H2.
  assert (Hp' : heap w1' !! p = Some s) by exact Hp.
  destruct (fillMissingGiniCoefficient env p stakingBlockNumber w1') as [[rf w3]|] eqn:Hfill;
    [|discriminate].
  injection H2 as <- <-. split; [reflexivity|].
  apply (fill_cases _ _ _ _ _ _ Hp') in Hfill as (_ & tG & g & HtG & Ht3 & Hh3 & _).
  exists tG, s, g. rewrite Ht3, Hh3. simpl. rewrite <- app_assoc. auto.
Qed.

(** *** What no call does *)

Lemma gini_only_refl (h : list StakingInfo) : gini_only h h.
Proof. intros q s Hq. exists (Gini s). now rewrite set_Gini_same. Qed.

Lemma gini_only_trans (h1 h2 h3 : list StakingInfo) :
  gini_only h1 h2 -> gini_only h2 h3 -> gini_only h1 h3.
Proof.
  intros H12 H23 q s Hq. destruct (H12 q s Hq) as [g Hg].
  destruct (H23 q _ Hg) as [g' Hg']. exists g'. exact Hg'.
Qed.

Lemma gini_only_alloc (h : list StakingInfo) (x : StakingInfo) : gini_only h (h ++ [x]).
Proof.
  intros q s Hq. exists (Gini s). rewrite set_Gini_same. now apply lookup_app_l_Some.
Qed.

Lemma gini_only_assign (h : list StakingInfo) (p : nat) (s : StakingInfo) (g : float64) :
  h !! p = Some s -> gini_only h (<[p := set_Gini s g]> h).
Proof.
  intros Hp q s' Hq. destruct (decide (q = p)) as [->|Hne].
  - exists g. rewrite list_lookup_insert_eq by (now apply lookup_lt_Some in Hp). congruence.
  - exists (Gini s'). rewrite set_Gini_same. now rewrite list_lookup_insert_ne by congruence.
Qed.

Lemma reached_refl (w : World Ext) : reached_from w w.
Proof.
  split; [apply same_control_refl|]. split; [apply gini_only_refl|].
  split; [lia|]. exists []. now rewrite app_nil_r.
Qed.

Lemma reached_trans (w1 w2 w3 : World Ext) :
  reached_from w1 w2 -> reached_from w2 w3 -> reached_from w1 w3.
Proof.
  intros (Hc & Hg & Hl & t & Ht) (Hc' & Hg' & Hl' & t' & Ht').
  split; [eapply same_control_trans; eassumption|].
  split; [eapply gini_only_trans; eassumption|]. split; [lia|].
  exists (t ++ t'). now rewrite Ht', Ht, app_assoc.
Qed.

Lemma fill_dangling (p : nat) (number : uint64) (w : World Ext) :
  heap w !! p = None -> fillMissingGiniCoefficient env p number w = None.
Proof. intros Hp. unfold fillMissingGiniCoefficient. steps. now rewrite Hp. Qed.

Lemma fill_reached (p : nat) (number : uint64) (w w' : World Ext) (r : option error) :
  fillMissingGiniCoefficient env p number w = Some (r, w') -> reached_from w w'.
Proof.
  intros H. destruct (heap w !! p) as [s|] eqn:Hp.
  - destruct (fill_cases _ _ _ _ _ _ Hp H) as (Hc & tG & g & _ & Ht & Hh & _).
    split; [exact Hc|]. rewrite Hh. split; [now apply gini_only_assign|].
    split; [now rewrite length_insert|]. now exists tG.
  - rewrite (fill_dangling _ _ _ Hp) in H. discriminate.
Qed.

Lemma db_read_reached (blockNum : uint64) (w w' : World Ext)
    (r : option nat * option error) :
  getStakingInfoFromDB env blockNum w = Some (r, w') ->
  reached_from w w'
  /\ match fst r with Some p => is_Some (heap w' !! p) | None => True end.
Proof.
  rewrite getStakingInfoFromDB_eq.
  destruct (db_read env blockNum (ext w)) as [[[s|] err] e]; intros [= <- <-]; simpl.
  - split.
    + split; [repeat split|]. split; [apply gini_only_alloc|].
      split; [simpl; rewrite length_app; lia|]. eexists. simpl. reflexivity.
    + exists s. now apply list_lookup_middle.
  - split; [|exact I]. split; [repeat split|]. split; [apply gini_only_refl|].
    split; [simpl; lia|]. eexists. simpl. reflexivity.
Qed.

Lemma cache_add_reached (p : nat) (w w' : World Ext) (u : unit) :
  stakingInfoCache_add env p w = Some (u, w') -> reached_from w w'.
Proof.
  unfold stakingInfoCache_add. steps. destruct (heap w !! p); [|discriminate].
  simpl. intros [= <- <-]. split; [repeat split|]. split; [apply gini_only_refl|].
  split; [simpl; lia|]. eexists. simpl. reflexivity.
Qed.

Lemma update_reached (blockNum : uint64) (w w' : World Ext)
    (r : option nat * option error) :
  updateStakingInfo env blockNum w = Some (r, w') -> reached_from w w'.
Proof.
  intros H. destruct (stakingManager w) eqn:Hset.
  - apply (update_cases _ _ _ _ Hset) in H as (Hc & tA & _ & Hcases).
    split; [exact Hc|].
    destruct Hcases as [(e & _ & Ht & Hh) | [(s & e & _ & Ht & _ & _ & Hh)
                                           | (s & tG & g & e & _ & Ht & _ & _ & _ & Hh & _)]];
      rewrite Hh, Ht.
    + split; [apply gini_only_refl|]. split; [lia|]. eexists. reflexivity.
    + split; [apply gini_only_alloc|]. split; [rewrite length_app; lia|].
      eexists. reflexivity.
    + split; [apply gini_only_alloc|]. split; [rewrite length_app; lia|].
      eexists. reflexivity.
  - unfold updateStakingInfo in H. revert H. steps. rewrite Hset. simpl.
    intros [= <- <-]. apply reached_refl.
Qed.

Lemma get_reached (stakingBlockNumber : uint64) (w w' : World Ext) (r : option nat) :
  GetStakingInfoOnStakingBlock env stakingBlockNumber w = Some (r, w') ->
  reached_from w w'.
Proof.
  intros H.
  destruct (stakingManager w) eqn:Hset;
    [destruct (IsStakingUpdateInterval env stakingBlockNumber) eqn:Hint|].
  - rewrite (get_unfold _ _ Hset Hint) in H.
    destruct (cache_get env stakingBlockNumber (ext w)) as [cached e1].
    cbv beta iota zeta in H. set (w1 := set_ext e1 _) in H.
    assert (H01 : reached_from w w1).
    { split; [repeat split|]. split; [apply gini_only_refl|].
      split; [simpl; lia|]. eexists. simpl. reflexivity. }
    apply (reached_trans _ _ _ H01). clear H01.
    destruct cached as [p|].
    + destruct (fillMissingGiniCoefficient env p stakingBlockNumber w1) as [[rf w2]|] eqn:Hf;
        [|discriminate].
      injection H as <- <-. eapply fill_reached. eassumption.
    + destruct (getStakingInfoFromDB env stakingBlockNumber w1) as [[[sp err] w2]|] eqn:Hdb;
        [|discriminate].
      apply db_read_reached in Hdb as [H12 _].
      apply (reached_trans _ _ _ H12).
      assert (Hupd : match updateStakingInfo env stakingBlockNumber w2 with
                     | Some (r, _, w3) => Some (r, w3)
                     | None => None
                     end = Some (r, w') -> reached_from w2 w').
      { destruct (updateStakingInfo env stakingBlockNumber w2) as [[[r' err'] w3]|] eqn:Hu;
          [|discriminate].
        intros [= <- <-]. eapply update_reached. eassumption. }
      destruct sp as [p|], err as [e|]; try (now apply Hupd).
      destruct (fillMissingGiniCoefficient env p stakingBlockNumber w2) as [[rf w3]|] eqn:Hf;
        [|discriminate].
      destruct (stakingInfoCache_add env p w3) as [[u w4]|] eqn:Ha; [|discriminate].
      injection H as <- <-.
      eapply reached_trans; [eapply fill_reached | eapply cache_add_reached]; eassumption.
  - revert H. unfold GetStakingInfoOnStakingBlock. steps. rewrite Hset, Hint. simpl.
    intros [= <- <-]. apply reached_refl.
  - revert H. unfold GetStakingInfoOnStakingBlock. steps. rewrite Hset. simpl.
    intros [= <- <-]. apply reached_refl.
Qed.

Lemma check_reached (blockNum : uint64) (w w' : World Ext) (r : option error) :
  CheckStakingInfoStored env blockNum w = Some (r, w') -> reached_from w w'.
Proof.
  unfold CheckStakingInfoStored. unfold mbind, M_bind, mret, M_ret, managerIsSet. simpl.
  destruct (stakingManager w) eqn:Hset; simpl; [|intros [= <- <-]; apply reached_refl].
  destruct (getStakingInfoFromDB env (CalcStakingBlockNumber env blockNum) w)
    as [[[sp err] w1]|] eqn:Hdb; [|discriminate].
  apply db_read_reached in Hdb as [H01 _]. destruct err as [e|].
  - destruct (updateStakingInfo env (CalcStakingBlockNumber env blockNum) w1)
      as [[[r' err'] w2]|] eqn:Hu; [|discriminate].
    intros [= <- <-]. eapply reached_trans; [exact H01|]. eapply update_reached. eassumption.
  - intros [= <- <-]. exact H01.
Qed.

(** No call of [GetStakingInfoOnStakingBlock], [GetStakingInfo],
    [updateStakingInfo], [CheckStakingInfoStored] or the migration
    prerequisite assigns the package variables of the manager, and none
    frees a snapshot or changes a field of an existing snapshot other than
    its gini: the snapshots allocated before the call are all there after
    it, equal but for their gini. *)
Theorem manager_calls_keep_snapshots (blockNum : uint64) (w w' : World Ext) :
  (forall r, GetStakingInfoOnStakingBlock env blockNum w = Some (r, w') ->
     reached_from w w')
  /\ (forall r, GetStakingInfo env blockNum w = Some (r, w') -> reached_from w w')
  /\ (forall r, updateStakingInfo env blockNum w = Some (r, w') -> reached_from w w')
  /\ (forall r, CheckStakingInfoStored env blockNum w = Some (r, w') ->
        reached_from w w')
  /\ (forall r, migrationPrerequisite env blockNum w = Some (r, w') ->
        reached_from w w').
Proof.
  split; [intros r; apply get_reached|]. split; [intros r; apply get_reached|].
  split; [intros r; apply update_reached|]. split; [intros r; apply check_reached|].
  intros r. unfold migrationPrerequisite, mbind, M_bind, mret, M_ret.
  destruct (CheckStakingInfoStored env blockNum w) as [[[e|] w1]|] eqn:H1; [| |discriminate].
  - intros [= <- <-]. eapply check_reached. eassumption.
  - intros H2. eapply reached_trans; eapply check_reached; eassumption.
Qed.


(** *** What a passed check has seen *)

Lemma reader_no_evidence (blockNum : uint64) (t : list Access) :
  forallb reader_access t = true -> existsb (stored_evidence blockNum) t = false.
Proof.
  induction t as [|a t IH]; simpl; [reflexivity|].
  intros H. apply andb_true_iff in H as [Ha Ht]. rewrite (IH Ht).
  now destruct a.
Qed.

Lemma check_evidence (blockNum : uint64) (w w' : World Ext) (r : option error) :
  CheckStakingInfoStored env blockNum w = Some (r, w') ->
  exists t, trace w' = trace w ++ t
    /\ (r = None
        <-> existsb (stored_evidence (CalcStakingBlockNumber env blockNum)) t = true).
Proof.
  unfold CheckStakingInfoStored. unfold mbind, M_bind, mret, M_ret, managerIsSet. simpl.
  destruct (stakingManager w) eqn:Hset; simpl.
  2:{ intros [= <- <-]. exists []. rewrite app_nil_r. split; [reflexivity|].
      simpl. split; discriminate. }
  rewrite getStakingInfoFromDB_eq.
  set (sb := CalcStakingBlockNumber env blockNum).
  destruct (db_read env sb (ext w)) as [[stored err] e].
  assert (Herr : forall (w1 : World Ext) r',
            stakingManager w1 = true ->
            trace w1 = trace w ++ [DBRead sb stored err] ->
            err <> None ->
            updateStakingInfo env sb w1 = Some (r', r, w') ->
            exists t, trace w' = trace w ++ t
              /\ (r = None <-> existsb (stored_evidence sb) t = true)).
  { intros w1 r' Hset1 Ht1 Hne Hu. destruct err as [e0|]; [|contradiction].
    apply (update_cases _ _ _ _ Hset1) in Hu as (_ & tA & HtA & Hcases).
    pose proof (reader_no_evidence sb tA HtA) as Hno.
    destruct Hcases as [(e1 & Hr & Ht & Hh) | [(s & e1 & Hr & Ht & Hg & Hb & Hh)
                                             | (s & tG & g & e1 & Hr & Ht & HtG & Hg & Hb & Hh & He)]];
      injection Hr as -> ->; rewrite Ht, Ht1, <- !app_assoc; eexists;
      (split; [reflexivity|]); simpl; rewrite ?existsb_app, Hno; simpl.
    - split; discriminate.
    - split; discriminate.
    - rewrite Hb, N.eqb_refl. simpl. split; reflexivity. }
  destruct stored as [s|], err as [e0|]; simpl.
  - destruct (updateStakingInfo env sb _) as [[[r' err'] w2]|] eqn:Hu; [|discriminate].
    intros [= <- <-]. eapply Herr; [| |discriminate|exact Hu]; [exact Hset | reflexivity].
  - intros [= <- <-]. eexists. split; [reflexivity|].
    simpl. rewrite N.eqb_refl. split; reflexivity.
  - destruct (updateStakingInfo env sb _) as [[[r' err'] w2]|] eqn:Hu; [|discriminate].
    intros [= <- <-]. eapply Herr; [| |discriminate|exact Hu]; [exact Hset | reflexivity].
  - intros [= <- <-]. eexists. split; [reflexivity|].
    simpl. rewrite N.eqb_refl. split; reflexivity.
Qed.

(** [CheckStakingInfoStored] returns nil exactly when, during the call,
    the database answered the read of the staking block without error or
    took the write of a snapshot of that block without error. So when the
    migration prerequisite returns nil, that has happened for the staking
    block of [blockNum] and for the one of [blockNum + StakingUpdateInterval]. *)
Theorem CheckStakingInfoStored_has_stored (blockNum : uint64) (w : World Ext) :
  (forall r w', CheckStakingInfoStored env blockNum w = Some (r, w') ->
     exists t, trace w' = trace w ++ t
       /\ (r = None
           <-> existsb (stored_evidence (CalcStakingBlockNumber env blockNum)) t = true))
  /\ (forall w', migrationPrerequisite env blockNum w = Some (None, w') ->
        exists t, trace w' = trace w ++ t
          /\ existsb (stored_evidence (CalcStakingBlockNumber env blockNum)) t = true
          /\ existsb (stored_evidence
                        (CalcStakingBlockNumber env
                           (add64 blockNum (StakingUpdateInterval env)))) t = true).
Proof.
  split; [intros r w'; apply check_evidence|].
  intros w'. unfold migrationPrerequisite, mbind, M_bind, mret, M_ret.
  destruct (CheckStakingInfoStored env blockNum w) as [[[e|] w1]|] eqn:H1;
    [discriminate| |discriminate].
  intros H2.
  apply check_evidence in H1 as (t1 & Ht1 & Hev1).
  apply check_evidence in H2 as (t2 & Ht2 & Hev2).
  exists (t1 ++ t2). rewrite Ht2, Ht1, <- app_assoc. split; [reflexivity|].
  rewrite !existsb_app. rewrite (proj1 Hev1 eq_refl), (proj1 Hev2 eq_refl).
  split; [reflexivity | apply orb_true_r].
Qed.

End ManagerExtras.

(** ** Setting the manager up *)

Section Setup.

Context {Ext : Type}.

Lemma run_setup_call_cases (c : setup_call) (w : World Ext) :
  exists w', run_setup_call c w = Some w'
    /\ heap w' = heap w /\ ext w' = ext w /\ trace w' = trace w
    /\ once w' = once w || fires_once c
    /\ prerequisites w'
       = (prerequisites w + if negb (once w) && fires_once c then 1 else 0)%nat
    /\ stakingManager w'
       = match c with
         | CallNew _ _ => stakingManager w || (negb (once w) && fires_once c)
         | CallSetTest sm => sm
         end.
Proof.
  destruct c as [bc gh|sm]; simpl.
  - unfold NewStakingManager. destruct (bc && gh), (once w) eqn:Ho; simpl;
      eexists; (split; [reflexivity|]); simpl;
      rewrite ?Ho, ?orb_false_r, ?orb_true_r, ?Nat.add_0_r, ?Nat.add_1_r; auto 10.
  - eexists. split; [reflexivity|]. simpl.
    rewrite orb_false_r, andb_false_r, Nat.add_0_r. auto 10.
Qed.

(** Over any sequence of calls of [NewStakingManager] and
    [SetTestStakingManager], none panics, and the migration prerequisite is
    registered at most once: exactly when [once] had not fired and some call
    of [NewStakingManager] has both a blockchain and a governance; a
    [SetTestStakingManager] never fires [once]. The snapshots, the
    collaborators and the accesses are left as they are. With no
    [SetTestStakingManager] in the sequence, there is a manager at the end
    exactly when there was one or [once] has fired during the sequence; and
    [GetStakingManager] returns the manager without changing anything. *)
Theorem NewStakingManager_registers_once (cs : list setup_call) (w : World Ext) :
  exists w', run_setup_calls cs w = Some w'
    /\ heap w' = heap w /\ ext w' = ext w /\ trace w' = trace w
    /\ once w' = once w || existsb fires_once cs
    /\ prerequisites w'
       = (prerequisites w + if negb (once w) && existsb fires_once cs then 1 else 0)%nat
    /\ (existsb is_set_test cs = false ->
        stakingManager w'
        = stakingManager w || (negb (once w) && existsb fires_once cs))
    /\ GetStakingManager w' = Some (stakingManager w', w').
Proof.
  revert w. induction cs as [|c cs IH]; intros w.
  - exists w. simpl. rewrite !andb_false_r, !orb_false_r, Nat.add_0_r. auto 10.
  - destruct (run_setup_call_cases c w) as (w1 & Hrun & Hh & He & Ht & Ho & Hp & Hm).
    destruct (IH w1) as (w' & Hrun' & Hh' & He' & Ht' & Ho' & Hp' & Hm' & Hget).
    exists w'. cbn [run_setup_calls]. rewrite Hrun. simpl.
    split; [exact Hrun'|]. split; [congruence|]. split; [congruence|].
    split; [congruence|].
    split; [rewrite Ho', Ho; now rewrite orb_assoc|]. split; [|split; [|exact Hget]].
    + rewrite Hp', Hp, Ho.
      destruct (once w), (fires_once c), (existsb fires_once cs); simpl; lia.
    + intros Hno. apply orb_false_iff in Hno as [Hc Hcs].
      rewrite (Hm' Hcs), Ho. destruct c as [bc gh|sm]; [|discriminate]. rewrite Hm.
      cbn [fires_once].
      destruct (stakingManager w), (once w), (bc && gh), (existsb fires_once cs);
        reflexivity.
Qed.

End Setup.

(** ** More examples *)

(** Node 2 of [example_info] is found in the entry of reward address 21. *)
Lemma GetConsolidatedNode_of_council_witness :
  exists c n,
    GetConsolidatedStakingInfo example_info = Some c
    /\ GetConsolidatedNode c 2%N = Some n /\ RewardAddr n = 21%N.
Proof.
  destruct (GetConsolidatedNode_of_council example_info eq_refl eq_refl eq_refl)
    as (c & Hc & H).
  destruct (H 2%N) as [_ H2].
  destruct H2 as (n & Hn & _ & _ & Hr).
  { apply elem_of_cons. right. apply elem_of_cons. now left. }
  exists c, n. split; [exact Hc|]. split; [exact Hn|].
  specialize (Hr 1%nat eq_refl).
  assert (Hlast : forall j', (1 < j')%nat ->
            CouncilNodeAddrs example_info !! j' <> Some 2%N).
  { intros [|[|[|j']]] Hlt; simpl; try lia; discriminate. }
  specialize (Hr Hlast). now injection Hr as <-.
Defined.

Lemma GetConsolidatedStakingInfo_entries_witness :
  exists c, GetConsolidatedStakingInfo example_info = Some c
    /\ NoDup (map RewardAddr (GetAllNodes c))
    /\ (length (GetAllNodes c) <= 3)%nat.
Proof.
  destruct (GetConsolidatedStakingInfo_entries example_info eq_refl eq_refl eq_refl)
    as (c & Hc & Hnd & _ & Hlen & _).
  exists c. auto.
Defined.

Lemma CalcGiniCoefficientMinStake_permutation_witness :
  CalcGiniCoefficientMinStake
    {| nodes := [new_node 1 5 21 12; new_node 3 3 23 3]%N; nodeIndex := ∅ |} 0%N
  = CalcGiniCoefficientMinStake
      {| nodes := [new_node 3 3 23 3; new_node 1 5 21 12]%N; nodeIndex := ∅ |} 0%N.
Proof.
  apply CalcGiniCoefficientMinStake_permutation. simpl. apply perm_swap.
Defined.

Lemma CalcGiniCoefficient_single_witness :
  CalcGiniCoefficient [of_uint64 5%N] = zero.
Proof. exact (CalcGiniCoefficient_single (of_uint64 5%N) eq_refl). Defined.

Lemma CalcGiniCoefficientMinStake_registration_order_witness :
  exists c c',
    GetConsolidatedStakingInfo example_info = Some c
    /\ GetConsolidatedStakingInfo reordered_info = Some c'
    /\ Permutation (map StakingAmount (GetAllNodes c)) (map StakingAmount (GetAllNodes c'))
    /\ CalcGiniCoefficientMinStake c 0%N = CalcGiniCoefficientMinStake c' 0%N.
Proof.
  apply (CalcGiniCoefficientMinStake_registration_order example_info reordered_info 0%N);
    try reflexivity.
  - repeat constructor.
  - unfold registrations. simpl. apply (Permutation_app_comm [_; _] [_]).
Defined.


Lemma entry_points_without_manager_witness :
  migrationPrerequisite mem_env 100000%N mem_world_unset
  = Some (Some ErrStakingManagerNotSet, mem_world_unset).
Proof.
  apply (entry_points_without_manager mem_env 100000%N mem_world_unset eq_refl).
Defined.

Lemma GetStakingInfoOnStakingBlock_db_hit_witness :
  Some 0%nat = Some 0%nat
  /\ exists tG g e,
       (tG = [] \/ tG = [GovMinimumStaking 86400%N])
       /\ [CacheGet 86400%N; DBRead 86400%N (Some example_info) None;
           GovMinimumStaking 86400%N; CacheAdd 0%nat]
          = [] ++ [CacheGet 86400%N; DBRead 86400%N (Some example_info) None]
               ++ tG ++ [CacheAdd 0%nat]
       /\ [set_Gini example_info three_tenths] = [] ++ [set_Gini example_info g]
       /\ {| mem_cache := [(86400%N, 0%nat)]; mem_db := [(86400%N, example_info)];
             mem_db_down := false |}
          = cache_add mem_env 0%nat (set_Gini example_info g) e.
Proof.
  exact (GetStakingInfoOnStakingBlock_db_hit mem_env 86400%N mem_world_stored
           _ example_info _ _ (Some 0%nat)
           eq_refl eq_refl eq_refl eq_refl eq_refl).
Defined.


Lemma GetStakingInfoOnStakingBlock_next_call_hits_witness :
  Some 0%nat = Some 0%nat
  /\ exists tG s g,
       (tG = [] \/ tG = [GovMinimumStaking 86400%N])
       /\ trace mem_world_cached ++ [CacheGet 86400%N]
          = trace mem_world_cached ++ CacheGet 86400%N :: tG
       /\ heap mem_world_cached !! 0%nat = Some s
       /\ heap mem_world_cached = <[0%nat := set_Gini s g]> (heap mem_world_cached).
Proof.
  apply (GetStakingInfoOnStakingBlock_next_call_hits mem_env 86400%N (mem_world false [])
           mem_world_cached
           {| heap := heap mem_world_cached; stakingManager := true; once := true;
              prerequisites := 1; ext := ext mem_world_cached;
              trace := trace mem_world_cached ++ [CacheGet 86400%N] |}
           0%nat (ext (mem_world false [])) (Some 0%nat)).
  - intros q s e. simpl. now rewrite N.eqb_refl.
  - intros s err e' H. discriminate H.
  - reflexivity.
  - reflexivity.
  - reflexivity.
  - reflexivity.
  - reflexivity.
  - reflexivity.
Defined.

